(** * AlLocatorMatrix: a shallow embedding of [src/locator/al-locator.types.ts]

    The locator resolves a location type id plus a context (environment,
    residency, insight location) to a node descriptor and a URL, and maps
    literal URLs back to the descriptors whose patterns match them.

    Modelling choices.
    - Descriptors are JavaScript objects shared by reference between the
      catalog, the hash index, the URI index, the lookup memo and the caller.
      They live in [heap]; a reference is an index into it.
    - [_nodeMap] and [uriMap] are JavaScript objects used as dictionaries and
      enumerated with [for ... in]: insertion-ordered association lists.
      All their keys contain a [-] or start with [^], so none is an array
      index, enumeration order is insertion order, and none names a
      property that objects inherit.
    - [nodes], the per-type memo, is a plain object keyed by the type id
      itself, tested with [this.nodes.hasOwnProperty] and written by
      assignment: a [gmap] of its own properties.  Two type ids are special
      on it.  A descriptor memoized under [hasOwnProperty] shadows the
      inherited method, and calling it throws a [TypeError].  An assignment
      under [__proto__] stores no own property; it makes the descriptor the
      memo's prototype, through which the memo inherits [hasOwnProperty] as
      before.
    - [AlInsightLocations] is only read under ids it has as own properties.
    - Optional string fields are [option string]; a value is truthy when it
      is present and not the empty string.
    - Strings are sequences of 8-bit code units.
    - The development port that [AlLocation.uiNode] takes is a Number that
      is a natural number; a natural number stands for the Number nearest
      to it, and a template literal renders it as [Number::toString] does.
    - [new RegExp] is modelled on the pattern language that
      [escapeLocationPattern] can emit; a pattern JavaScript rejects makes
      the constructor throw.
    - [resolveNodeURI] recurses through parent links without a cycle check;
      it takes fuel, and running out of fuel at every fuel is divergence. *)

From Stdlib Require Import Ascii DecimalString.
From stdpp Require Import base option list strings gmap.

(** ** JavaScript values *)

(** Truthiness of an optional string: [undefined] and the empty string are falsy. *)
Definition truthy (o : option string) : bool :=
  match o with
  | Some (String _ _) => true
  | _ => false
  end.

(** [a || b] on optional strings. *)
Definition orElse (a b : option string) : option string :=
  if truthy a then a else b.

(** How a template literal renders an optional string. *)
Definition tpl (o : option string) : string := default "undefined" o.

(** A reference to a descriptor object. *)
Definition ref := nat.

(** ** Dictionaries with insertion order *)

Section Dict.
Context {V : Type}.

Definition Dict := list (string * V).

Fixpoint dict_get (k : string) (m : list (string * V)) : option V :=
  match m with
  | [] => None
  | (k', v) :: m' => if decide (k' = k) then Some v else dict_get k m'
  end.

(** [m.hasOwnProperty(k)] *)
Definition hasOwnProperty (k : string) (m : list (string * V)) : bool :=
  bool_decide (is_Some (dict_get k m)).

(** [m[k] = v]: an existing property keeps its place, a new one goes last. *)
Definition dict_set (k : string) (v : V) (m : list (string * V)) : list (string * V) :=
  if hasOwnProperty k m
  then map (fun kv => if decide (kv.1 = k) then (kv.1, v) else kv) m
  else m ++ [(k, v)].
End Dict.

Arguments Dict : clear implicits.

(** ** Data model *)

Module AlLocationContext.
Record t := mk {
  environment : option string;
  residency : option string;
  insightLocationId : option string;
  accessible : option (list string)
}.
End AlLocationContext.

Module AlLocationDescriptor.
(** [uiEntryPoint] and [data] have type [any] and are never read by the
    locator; they are left out. *)
Record t := mk {
  locTypeId : string;
  parentId : option string;
  insightLocationId : option string;
  uri : string;
  residency : option string;
  environment : option string;
  aliases : option (list string);
  productType : option string;
  aspect : option string;
  uiCaption : option string;
  _fullURI : option string
}.

Definition with_uri (u : string) (f : option string) (d : t) : t :=
  mk (locTypeId d) (parentId d) (insightLocationId d) u (residency d)
     (environment d) (aliases d) (productType d) (aspect d) (uiCaption d) f.

Definition with_fullURI (f : option string) (d : t) : t :=
  with_uri (uri d) f d.

Definition blank : t :=
  mk EmptyString None None EmptyString None None None None None None None.
End AlLocationDescriptor.

Global Instance descriptor_inhabited : Inhabited AlLocationDescriptor.t :=
  populate AlLocationDescriptor.blank.

Module InsightLocation.
Record t := mk {
  residency : string;
  residencyCaption : string;
  alternatives : option (list string);
  logicalRegion : string
}.
End InsightLocation.

(** The dictionary of insight locations. *)
Definition AlInsightLocations : Dict InsightLocation.t :=
  [ ("defender-us-denver",
     InsightLocation.mk "US" "UNITED STATES" None "us-west-1");
    ("defender-us-ashburn",
     InsightLocation.mk "US" "UNITED STATES" None "us-east-1");
    ("defender-uk-newport",
     InsightLocation.mk "EMEA" "UNITED KINGDOM" None "uk-west-1");
    ("insight-us-virginia",
     InsightLocation.mk "US" "UNITED STATES"
       (Some ["defender-us-denver"; "defender-us-ashburn"]) "us-east-1");
    ("insight-eu-ireland",
     InsightLocation.mk "EMEA" "UNITED KINGDOM"
       (Some ["defender-uk-newport"]) "uk-west-1") ].

(** ** Numbers in template literals *)

(** All the digits of a natural number. *)
Definition decimal (n : N) : string := NilZero.string_of_uint (N.to_uint n).

(** The Number nearest to a natural number: 53 significant bits, a tie
    going to the even significand. *)
Definition roundToNumber (v : N) : N :=
  let bits := N.size v in
  if (bits <=? 53)%N then v
  else
    let shift := (bits - 53)%N in
    let q := N.shiftr v shift in
    let r := N.land v (N.ones shift) in
    let half := N.shiftl 1 (shift - 1) in
    let q := if (half <? r)%N || ((r =? half)%N && N.odd q) then (q + 1)%N else q in
    N.shiftl q shift.

(** The pairs [(s, n)] of Number::toString for a given number of digits [k]:
    [s] has [k] digits and [s * 10 ^ (n - k)] is a natural that rounds to
    [x].  Of the multiples of [10 ^ (n - k)] only the two next to [x] can be
    the nearest one that does. *)
Definition candidates (x k : N) : list (N * N) :=
  let digits := N.of_nat (String.length (decimal x)) in
  flat_map
    (fun n =>
       let scale := (10 ^ (n - k))%N in
       List.filter
         (fun sn : N * N =>
            (10 ^ (k - 1) <=? sn.1)%N && (sn.1 <? 10 ^ k)%N
            && (roundToNumber (sn.1 * scale) =? x)%N)
         [ ((x / scale)%N, n); ((x / scale + 1)%N, n) ])
    [ digits; (digits + 1)%N ].

Definition distance (x k : N) (sn : N * N) : N :=
  let v := (sn.1 * 10 ^ (sn.2 - k))%N in
  if (v <? x)%N then (x - v)%N else (v - x)%N.

(** Of several candidates the one nearest to [x], an even [s] before an odd one. *)
Definition nearest (x k : N) (l : list (N * N)) : option (N * N) :=
  fold_left
    (fun best c =>
       match best with
       | None => Some c
       | Some b =>
           if (distance x k c <? distance x k b)%N
              || ((distance x k c =? distance x k b)%N && N.even c.1 && N.odd b.1)
           then Some c else best
       end)
    l None.

(** The least [k] that has a candidate, with the candidate chosen. *)
Fixpoint shortest (x : N) (ks : list N) : option (N * N * N) :=
  match ks with
  | [] => None
  | k :: ks' =>
      match nearest x k (candidates x k) with
      | Some (s, n) => Some (s, n, k)
      | None => shortest x ks'
      end
  end.

Definition zeros (n : N) : string := String.concat "" (replicate (N.to_nat n) "0").

(** Number::toString on a natural number, as a template literal applies it.
    Below 2^53 every natural is a Number and prints all its digits.  From
    there on the digits are the fewest that read back as the same Number,
    and from 10^21 on they come in exponent notation. *)
Definition numberToString (v : N) : string :=
  if (v <? 9007199254740992)%N then decimal v
  else
    let x := roundToNumber v in
    if (2 ^ 1024 <=? x)%N then "Infinity"
    else
      match shortest x (N.of_nat <$> seq 1 17) with
      | Some (s, n, k) =>
          if (n <=? 21)%N then decimal s +:+ zeros (n - k)
          else
            match decimal s with
            | String c (String c' rest) =>
                String c ("." +:+ String c' rest) +:+ "e+" +:+ decimal (n - 1)
            | d => d +:+ "e+" +:+ decimal (n - 1)
            end
      | None => decimal x
      end.

(** ** AlLocation *)

Module AlLocation.
Definition GlobalAPI : string := "global:api".
Definition InsightAPI : string := "insight:api".
Definition EndpointsAPI : string := "endpoints:api".
Definition LegacyUI : string := "cd14:ui".
Definition OverviewUI : string := "cd17:overview".
Definition IntelligenceUI : string := "cd17:intelligence".
Definition ConfigurationUI : string := "cd17:config".
Definition RemediationsUI : string := "cd17:remediations".
Definition IncidentsUI : string := "cd17:incidents".
Definition AccountsUI : string := "cd17:accounts".
Definition LandscapeUI : string := "cd17:landscape".
Definition IntegrationsUI : string := "cd17:integrations".
Definition EndpointsUI : string := "cd19:endpoints".
Definition InsightBI : string := "insight:bi".
Definition HudUI : string := "insight:hud".
Definition IrisUI : string := "insight:iris".
Definition SearchUI : string := "cd17:search".
Definition HealthUI : string := "cd17:health".
Definition DisputesUI : string := "cd17:disputes".
Definition DashboardsUI : string := "cd19:dashboards".
Definition ExposuresUI : string := "cd17:exposures".
Definition Fino : string := "cd14:fino".
Definition SecurityContent : string := "cd14:scc".
Definition SupportPortal : string := "cd14:support".
Definition Segment : string := "segment".
Definition Auth0 : string := "auth0".

(** The descriptors of a UI in production (US and EMEA), integration and
    development. *)
Definition uiNode (locTypeId appCode : string) (devPort : N) : list AlLocationDescriptor.t :=
  [ AlLocationDescriptor.mk locTypeId None None
      ("https://console." +:+ appCode +:+ ".alertlogic.com")
      (Some "US") (Some "production") None None None None None;
    AlLocationDescriptor.mk locTypeId None None
      ("https://console." +:+ appCode +:+ ".alertlogic.co.uk")
      (Some "EMEA") (Some "production") None None None None None;
    AlLocationDescriptor.mk locTypeId None None
      ("https://console." +:+ appCode +:+ ".product.dev.alertlogic.com")
      None (Some "integration")
      (Some [ "https://" +:+ appCode +:+ ".ui-dev.product.dev.alertlogic.com";
              "https://" +:+ appCode +:+ "-*.ui-dev.product.dev.alertlogic.com";
              "https://" +:+ appCode +:+ "-*-*.ui-dev.product.dev.alertlogic.com";
              "https://" +:+ appCode +:+ "-*-*-*.ui-dev.product.dev.alertlogic.com";
              "https://*.o3-" +:+ appCode +:+ ".product.dev.alertlogic.com" ])
      None None None None;
    AlLocationDescriptor.mk locTypeId None None
      ("http://localhost:" +:+ numberToString devPort)
      None (Some "development") None None None None None ].
End AlLocation.

Arguments numberToString : simpl never.

(** ** Regular expressions

    The patterns [escapeLocationPattern] builds use: the anchors [^] and [$],
    literal characters, identity escapes of the characters it escapes, the
    class [[a-zA-Z0-9_]], the dot, and the quantifiers [*], [+] and [?]
    (each optionally followed by the lazy marker [?]). *)

Inductive atom :=
  | Lit (c : ascii)
  | AnyChar
  | WordClass.

Inductive quant := Once | ZeroOrMore | OneOrMore | ZeroOrOne.

Inductive term :=
  | Bol
  | Eol
  | Rep (a : atom) (q : quant).

Definition RegExp := list term.

Definition ascii_in (c : ascii) (s : string) : bool :=
  existsb (Ascii.eqb c) (String.list_ascii_of_string s).

(** The characters matched by the class [[-\/\\^$.()|[\]{}]]. *)
Definition isSpecial (c : ascii) : bool := ascii_in c "-/\^$.()|[]{}".

Definition isQuantifier (c : ascii) : bool := ascii_in c "*+?".

Definition isWordChar (c : ascii) : bool :=
  let n := nat_of_ascii c in
  ((97 <=? n) && (n <=? 122)) || ((65 <=? n) && (n <=? 90))
  || ((48 <=? n) && (n <=? 57)) || (n =? 95).

(** [.] matches anything but a line terminator. *)
Definition isLineTerminator (c : ascii) : bool :=
  let n := nat_of_ascii c in (n =? 10) || (n =? 13).

(** The scanner's state between two characters of the pattern. *)
Inductive mode :=
  | Start
  | Escaped
  | InClass (body : string)
  | After (a : atom)
  | Quantified (a : atom) (q : quant).

Definition emit (t : term) (r : option RegExp) : option RegExp :=
  cons t <$> r.

(** A character read where a new term may begin; [k] scans the rest. *)
Definition startChar (k : mode -> option RegExp) (c : ascii) : option RegExp :=
  if Ascii.eqb c "^" then emit Bol (k Start)
  else if Ascii.eqb c "$" then emit Eol (k Start)
  else if Ascii.eqb c "\" then k Escaped
  else if Ascii.eqb c "[" then k (InClass EmptyString)
  else if Ascii.eqb c "." then k (After AnyChar)
  else if isQuantifier c then None
  else if isSpecial c then None
  else k (After (Lit c)).

Definition quantOf (c : ascii) : option quant :=
  if Ascii.eqb c "*" then Some ZeroOrMore
  else if Ascii.eqb c "+" then Some OneOrMore
  else if Ascii.eqb c "?" then Some ZeroOrOne
  else None.

(** [new RegExp(pattern)]; [None] is a thrown [SyntaxError]. The class body
    is collected back to front. *)
Fixpoint scan (m : mode) (s : string) : option RegExp :=
  match s with
  | EmptyString =>
      match m with
      | Start => Some []
      | After a => Some [Rep a Once]
      | Quantified a q => Some [Rep a q]
      | Escaped | InClass _ => None
      end
  | String c r =>
      match m with
      | Start => startChar (fun m' => scan m' r) c
      | Escaped => if isSpecial c then scan (After (Lit c)) r else None
      | InClass body =>
          if Ascii.eqb c "]"
          then if String.eqb body "_9-0Z-Az-a" then scan (After WordClass) r else None
          else scan (InClass (String c body)) r
      | After a =>
          match quantOf c with
          | Some q => scan (Quantified a q) r
          | None => emit (Rep a Once) (startChar (fun m' => scan m' r) c)
          end
      | Quantified a q =>
          if Ascii.eqb c "?" then emit (Rep a q) (scan Start r)
          else emit (Rep a q) (startChar (fun m' => scan m' r) c)
      end
  end.

Definition newRegExp (pattern : string) : option RegExp := scan Start pattern.

Definition accepts (a : atom) (c : ascii) : bool :=
  match a with
  | Lit x => Ascii.eqb x c
  | AnyChar => negb (isLineTerminator c)
  | WordClass => isWordChar c
  end.

(** Zero or more [a], then the continuation [k]. *)
Fixpoint matchStar (a : atom) (k : bool -> string -> bool) (atStart : bool) (s : string) : bool :=
  k atStart s
  || match s with
     | String c r => accepts a c && matchStar a k false r
     | EmptyString => false
     end.

(** Does the term sequence match a prefix of [s]?  [atStart] tells whether
    [s] is the whole input. *)
Fixpoint matchTerms (ts : RegExp) (atStart : bool) (s : string) : bool :=
  match ts with
  | [] => true
  | Bol :: ts' => atStart && matchTerms ts' atStart s
  | Eol :: ts' =>
      match s with
      | EmptyString => matchTerms ts' atStart s
      | String _ _ => false
      end
  | Rep a q :: ts' =>
      let k := matchTerms ts' in
      let one :=
        match s with
        | String c r => accepts a c && k false r
        | EmptyString => false
        end in
      match q with
      | Once => one
      | ZeroOrOne => k atStart s || one
      | ZeroOrMore => matchStar a k atStart s
      | OneOrMore =>
          match s with
          | String c r => accepts a c && matchStar a k false r
          | EmptyString => false
          end
      end
  end.

Fixpoint searchFrom (ts : RegExp) (atStart : bool) (s : string) : bool :=
  matchTerms ts atStart s
  || match s with
     | String _ r => searchFrom ts false r
     | EmptyString => false
     end.

(** [matcher.test(s)] for a regular expression without flags. *)
Definition test (matcher : RegExp) (s : string) : bool := searchFrom matcher true s.

(** ** escapeLocationPattern and getBaseUrl *)

(** [uri.replace(/[-\/\\^$.()|[\]{}]/g, '\\$&')] *)
Fixpoint escapeAll (s : string) : string :=
  match s with
  | EmptyString => EmptyString
  | String c r =>
      if isSpecial c then String "\" (String c (escapeAll r))
      else String c (escapeAll r)
  end.

(** [pattern.replace(/\*/, "[a-zA-Z0-9_]+")]: without the [g] flag only the
    first occurrence is replaced. *)
Fixpoint replaceFirstStar (s : string) : string :=
  match s with
  | EmptyString => EmptyString
  | String c r =>
      if Ascii.eqb c "*" then "[a-zA-Z0-9_]+" +:+ r
      else String c (replaceFirstStar r)
  end.

Definition escapeLocationPattern (uri : string) : string :=
  let pattern := "^" +:+ escapeAll uri in
  let pattern := replaceFirstStar pattern in
  pattern +:+ ".*$".

(** [uri.substring(0, uri.indexOf(c))] when [c] occurs, else [uri]. *)
Definition chopAt (c : string) (uri : string) : string :=
  match String.index 0 c uri with
  | Some n => String.substring 0 n uri
  | None => uri
  end.

(** [uri.substring(0, uri.length - 1)] when [uri] ends with a slash. *)
Definition dropTrailingSlash (uri : string) : string :=
  let n := String.length uri in
  if (0 <? n) && bool_decide (String.get (n - 1) uri = Some "/"%char)
  then String.substring 0 (n - 1) uri
  else uri.

Definition getBaseUrl (uri : string) : string :=
  let uri := chopAt "#" uri in
  let uri := chopAt "?" uri in
  dropTrailingSlash uri.

(** ** The locator's state *)

Record Mapping := mkMapping {
  matcher : RegExp;
  location : ref
}.

(** [window.location], when the runtime has a [window]. *)
Record WindowLocation := mkWindowLocation {
  origin : string;
  pathname : string
}.

Record AlLocatorMatrix := mkMatrix {
  heap : list AlLocationDescriptor.t;
  window : option WindowLocation;
  actingUri : option string;
  actor : option ref;
  uriMap : Dict Mapping;
  nodes : gmap string ref;
  _nodeMap : Dict ref;
  context : AlLocationContext.t
}.

Definition set_heap (h : list AlLocationDescriptor.t) (st : AlLocatorMatrix) : AlLocatorMatrix :=
  mkMatrix h (window st) (actingUri st) (actor st) (uriMap st) (nodes st) (_nodeMap st) (context st).

Definition set_acting (u : option string) (a : option ref) (st : AlLocatorMatrix) : AlLocatorMatrix :=
  mkMatrix (heap st) (window st) u a (uriMap st) (nodes st) (_nodeMap st) (context st).

Definition set_uriMap (m : Dict Mapping) (st : AlLocatorMatrix) : AlLocatorMatrix :=
  mkMatrix (heap st) (window st) (actingUri st) (actor st) m (nodes st) (_nodeMap st) (context st).

Definition set_nodes (m : gmap string ref) (st : AlLocatorMatrix) : AlLocatorMatrix :=
  mkMatrix (heap st) (window st) (actingUri st) (actor st) (uriMap st) m (_nodeMap st) (context st).

Definition set_nodeMap (m : Dict ref) (st : AlLocatorMatrix) : AlLocatorMatrix :=
  mkMatrix (heap st) (window st) (actingUri st) (actor st) (uriMap st) (nodes st) m (context st).

Definition set_context (c : AlLocationContext.t) (st : AlLocatorMatrix) : AlLocatorMatrix :=
  mkMatrix (heap st) (window st) (actingUri st) (actor st) (uriMap st) (nodes st) (_nodeMap st) c.

(** The field initialisers of the class. *)
Definition defaultContext : AlLocationContext.t :=
  AlLocationContext.mk (Some "production") (Some "US") None None.

Definition emptyMatrix (h : list AlLocationDescriptor.t) (w : option WindowLocation) : AlLocatorMatrix :=
  mkMatrix h w None None [] ∅ [] defaultContext.

(** Reading a descriptor through its reference. *)
Definition deref (st : AlLocatorMatrix) (r : ref) : AlLocationDescriptor.t :=
  heap st !!! r.

(** ** Effects: state, a thrown exception, or no answer within the fuel *)

Inductive Outcome (A : Type) :=
  | Ok (a : A) (st : AlLocatorMatrix)
  | Thrown (st : AlLocatorMatrix)
  | OutOfFuel.

Arguments Ok {A} a st.
Arguments Thrown {A} st.
Arguments OutOfFuel {A}.

Definition M (A : Type) := AlLocatorMatrix -> Outcome A.

Definition ret {A} (a : A) : M A := fun st => Ok a st.

Definition bind {A B} (m : M A) (f : A -> M B) : M B :=
  fun st =>
    match m st with
    | Ok a st' => f a st'
    | Thrown st' => Thrown st'
    | OutOfFuel => OutOfFuel
    end.

Declare Scope matrix_scope.
Delimit Scope matrix_scope with matrix.
Notation "x <- m ;; k" := (bind m (fun x => k))
  (at level 100, m at next level, right associativity) : matrix_scope.
Notation "m ;; k" := (bind m (fun _ => k))
  (at level 100, right associativity) : matrix_scope.
Open Scope matrix_scope.

Definition gets {A} (f : AlLocatorMatrix -> A) : M A := fun st => Ok (f st) st.
Definition modify (f : AlLocatorMatrix -> AlLocatorMatrix) : M unit := fun st => Ok tt (f st).
Definition lift {A} (f : AlLocatorMatrix -> A * AlLocatorMatrix) : M A :=
  fun st => Ok (f st).1 (f st).2.
Definition throw {A} : M A := fun st => Thrown st.
Definition when (b : bool) (m : M unit) : M unit := if b then m else ret tt.

Fixpoint forEach {A} (l : list A) (f : A -> M unit) : M unit :=
  match l with
  | [] => ret tt
  | x :: l' => f x ;; forEach l' f
  end.

(** ** getNode *)

Definition key3 (t e r : string) : string := t +:+ "-" +:+ e +:+ "-" +:+ r.
Definition key4 (t e r d : string) : string := key3 t e r +:+ "-" +:+ d.

(** [if (m.hasOwnProperty(k)) node = m[k]] *)
Definition pick (m : Dict ref) (k : string) (node : option ref) : option ref :=
  if hasOwnProperty k m then dict_get k m else node.

(** The body of [getNode] between the memo test and the memo write. *)
Definition lookupNode (st : AlLocatorMatrix) (locTypeId : string)
    (context' : option AlLocationContext.t) : option ref :=
  let environment :=
    orElse (context' ≫= AlLocationContext.environment)
           (AlLocationContext.environment (context st)) in
  let residency :=
    orElse (context' ≫= AlLocationContext.residency)
           (AlLocationContext.residency (context st)) in
  let insightLocationId :=
    orElse (context' ≫= AlLocationContext.insightLocationId)
           (AlLocationContext.insightLocationId (context st)) in
  let accessible :=
    match context' ≫= AlLocationContext.accessible with
    | Some a => Some a
    | None => AlLocationContext.accessible (context st)
    end in
  let m := _nodeMap st in
  let node : option ref := None in
  let node :=
    if truthy insightLocationId
    then pick m (key4 locTypeId (tpl environment) (tpl residency) (tpl insightLocationId)) node
    else node in
  let node :=
    match node, accessible with
    | None, Some accessible =>
        fold_left
          (fun node accessibleLocationId =>
             if decide (Some accessibleLocationId = insightLocationId) then node
             else pick m (key4 locTypeId (tpl environment) (tpl residency) accessibleLocationId) node)
          accessible node
    | _, _ => node
    end in
  let node :=
    match node with
    | None =>
        if truthy environment && truthy residency
        then pick m (key3 locTypeId (tpl environment) (tpl residency)) node
        else node
    | Some _ => node
    end in
  let node :=
    match node with
    | None =>
        if truthy environment then pick m (key3 locTypeId (tpl environment) "*") node else node
    | Some _ => node
    end in
  match node with
  | None => pick m (key3 locTypeId "*" "*") node
  | Some _ => node
  end.

(** [this.nodes.hasOwnProperty] is looked up on the memo itself first: a
    descriptor memoized under that name is what the call finds, and it is
    no function. *)
Definition memoShadowed (st : AlLocatorMatrix) : bool :=
  bool_decide (is_Some (nodes st !! "hasOwnProperty")).

(** [this.nodes[locTypeId] = node]: under [__proto__] the assignment
    replaces the prototype of the memo and stores nothing in it. *)
Definition memoize (locTypeId : string) (node : ref) (st : AlLocatorMatrix) : AlLocatorMatrix :=
  if decide (locTypeId = "__proto__") then st
  else set_nodes (<[locTypeId := node]> (nodes st)) st.

(** [getNode] once [this.nodes.hasOwnProperty] is found to be the
    inherited method: the memo test, the lookup and the memo write. *)
Definition memoizedLookup (locTypeId : string) (context' : option AlLocationContext.t)
    (st : AlLocatorMatrix) : option ref * AlLocatorMatrix :=
  match nodes st !! locTypeId, context' with
  | Some n, None => (Some n, st)
  | _, _ =>
      let node := lookupNode st locTypeId context' in
      match node, context' with
      | Some n, None => (node, memoize locTypeId n st)
      | _, _ => (node, st)
      end
  end.

(** The call of [hasOwnProperty] comes before the test of [context]: with
    the method shadowed, [getNode] throws whatever its arguments. *)
Definition getNode (locTypeId : string) (context' : option AlLocationContext.t)
    : M (option ref) :=
  shadowed <- gets memoShadowed ;;
  if shadowed : bool then throw else lift (memoizedLookup locTypeId context').

(** ** resolveNodeURI and resolveURL *)

(** [uri.indexOf("http") !== 0] *)
Definition lacksHttp (uri : string) : bool :=
  negb (bool_decide (String.index 0 "http" uri = Some 0)).

Definition cacheFullURI (node : ref) (uri : string) (st : AlLocatorMatrix) : AlLocatorMatrix :=
  set_heap (<[node := AlLocationDescriptor.with_fullURI (Some uri) (deref st node)]> (heap st)) st.

(** The lines of [resolveNodeURI] that append the node's own [uri] to what
    its parent resolved to, and put the default protocol before a parentless
    node's URI that does not start with [http]. *)
Definition appendOwnUri (d : AlLocationDescriptor.t) (uri : string) : string :=
  match AlLocationDescriptor.uri d with
  | EmptyString => uri
  | String _ _ =>
      let uri := uri +:+ AlLocationDescriptor.uri d in
      if negb (truthy (AlLocationDescriptor.parentId d)) && lacksHttp uri
      then "https://" +:+ uri
      else uri
  end.

Fixpoint resolveNodeURI (fuel : nat) (node : ref) (context' : option AlLocationContext.t) : M string :=
  match fuel with
  | 0 => fun _ => OutOfFuel
  | S fuel' =>
      d <- gets (fun st => deref st node) ;;
      if truthy (AlLocationDescriptor._fullURI d)
      then ret (tpl (AlLocationDescriptor._fullURI d))
      else
        uri <- (if truthy (AlLocationDescriptor.parentId d)
                then
                  parentNode <- getNode (tpl (AlLocationDescriptor.parentId d)) context' ;;
                  match parentNode with
                  | Some p => resolveNodeURI fuel' p context'
                  | None => ret EmptyString
                  end
                else ret EmptyString) ;;
        d <- gets (fun st => deref st node) ;;
        let uri := appendOwnUri d uri in
        modify (cacheFullURI node uri) ;;
        ret uri
  end.

(** [window.location.origin + (pathname longer than one character ? pathname : '')],
    or the placeholder when there is no [window]. *)
Definition currentLocation (st : AlLocatorMatrix) : string :=
  match window st with
  | Some w => origin w +:+ (if 1 <? String.length (pathname w) then pathname w else EmptyString)
  | None => "http://localhost:9999"
  end.

Definition resolveURL (fuel : nat) (locTypeId : string) (path : option string)
    (context' : option AlLocationContext.t) : M string :=
  loc <- getNode locTypeId context' ;;
  url <- match loc with
         | Some n => resolveNodeURI fuel n None
         | None => gets currentLocation
         end ;;
  ret (if truthy path then url +:+ tpl path else url).

(** ** getNodeByURI *)

Fixpoint firstMatch (targetURI : string) (m : Dict Mapping) : option Mapping :=
  match m with
  | [] => None
  | (_, mapping) :: m' =>
      if test (matcher mapping) targetURI then Some mapping else firstMatch targetURI m'
  end.

Definition getNodeByURI (targetURI : string) (st : AlLocatorMatrix) : option ref * AlLocatorMatrix :=
  match firstMatch targetURI (uriMap st) with
  | Some mapping =>
      let baseUrl := getBaseUrl targetURI in
      let d := deref st (location mapping) in
      if decide (baseUrl = AlLocationDescriptor.uri d)
      then (Some (location mapping), st)
      else (Some (location mapping),
            set_heap (<[location mapping :=
                          AlLocationDescriptor.with_uri baseUrl (Some baseUrl) d]> (heap st)) st)
  | None => (None, st)
  end.

Definition getActingNode (st : AlLocatorMatrix) : option ref := actor st.

(** ** setLocations *)

Definition registerPattern (node : ref) (source : string) : M unit :=
  let pattern := escapeLocationPattern source in
  match newRegExp pattern with
  | Some re => modify (fun st => set_uriMap (dict_set pattern (mkMapping re node) (uriMap st)) st)
  | None => throw
  end.

Definition addUriMapping (node : ref) : M unit :=
  d <- gets (fun st => deref st node) ;;
  when (0 <? String.length (AlLocationDescriptor.uri d))
       (registerPattern node (AlLocationDescriptor.uri d)) ;;
  match AlLocationDescriptor.aliases d with
  | Some aliases => forEach aliases (registerPattern node)
  | None => ret tt
  end.

Definition indexNode (k : string) (node : ref) : M unit :=
  modify (fun st => set_nodeMap (dict_set k node (_nodeMap st)) st).

Definition saveNode (node : ref) : M unit :=
  d <- gets (fun st => deref st node) ;;
  let t := AlLocationDescriptor.locTypeId d in
  let e := AlLocationDescriptor.environment d in
  let r := AlLocationDescriptor.residency d in
  let i := AlLocationDescriptor.insightLocationId d in
  when (truthy e && truthy r)
       (when (truthy i) (indexNode (key4 t (tpl e) (tpl r) (tpl i)) node) ;;
        indexNode (key3 t (tpl e) (tpl r)) node) ;;
  when (truthy e) (indexNode (key3 t (tpl e) "*") node) ;;
  indexNode (key3 t "*" "*") node ;;
  addUriMapping node.

Definition setLocations (nodes' : list ref) : M unit := forEach nodes' saveNode.

(** ** search and findOne *)

(** The filter receives the descriptor object: its identity and its fields. *)
Definition search (filter : ref -> AlLocationDescriptor.t -> bool) (st : AlLocatorMatrix) : list ref :=
  omap (fun kv : string * ref => if filter kv.2 (deref st kv.2) then Some kv.2 else None)
       (_nodeMap st).

Definition findOne (filter : ref -> AlLocationDescriptor.t -> bool) (st : AlLocatorMatrix) : option ref :=
  match search filter st with
  | [] => None
  | r :: _ => Some r
  end.

(** ** setContext and normalizeContext *)

(** The loop over [alternatives], leaving at the first accessible candidate. *)
Fixpoint selectAlternative (alternatives accessible : list string) : option string :=
  match alternatives with
  | [] => None
  | candidateLocationId :: rest =>
      if bool_decide (candidateLocationId ∈ accessible) then Some candidateLocationId
      else selectAlternative rest accessible
  end.

Definition normalizeContext (c : AlLocationContext.t) : AlLocationContext.t :=
  match AlLocationContext.accessible c with
  | Some accessible =>
      if truthy (AlLocationContext.insightLocationId c) then
        match dict_get (tpl (AlLocationContext.insightLocationId c)) AlInsightLocations with
        | Some insightLocation =>
            let c :=
              match InsightLocation.alternatives insightLocation with
              | Some alternatives =>
                  let selected :=
                    match selectAlternative alternatives accessible with
                    | Some s => Some s
                    | None => head alternatives
                    end in
                  AlLocationContext.mk (AlLocationContext.environment c)
                    (AlLocationContext.residency c) selected (Some accessible)
              | None => c
              end in
            if truthy (Some (InsightLocation.residency insightLocation))
               && negb (bool_decide (AlLocationContext.residency c
                                     = Some (InsightLocation.residency insightLocation)))
            then AlLocationContext.mk (AlLocationContext.environment c)
                   (Some (InsightLocation.residency insightLocation))
                   (AlLocationContext.insightLocationId c) (AlLocationContext.accessible c)
            else c
        | None => c
        end
      else c
  | None => c
  end.

(** The context after the assignments of [setContext], before [normalizeContext]. *)
Definition mergeContext (context' : option AlLocationContext.t) (st : AlLocatorMatrix)
    : AlLocationContext.t :=
  let c := context st in
  let insightLocationId :=
    orElse (context' ≫= AlLocationContext.insightLocationId) (AlLocationContext.insightLocationId c) in
  let accessible :=
    match context' ≫= AlLocationContext.accessible with
    | Some (a :: l) => Some (a :: l)
    | _ => AlLocationContext.accessible c
    end in
  let residency :=
    if truthy insightLocationId then
      match findOne (fun _ n => bool_decide (AlLocationDescriptor.insightLocationId n = insightLocationId)) st with
      | Some locationNode =>
          if truthy (AlLocationDescriptor.residency (deref st locationNode))
          then AlLocationDescriptor.residency (deref st locationNode)
          else AlLocationContext.residency c
      | None => AlLocationContext.residency c
      end
    else AlLocationContext.residency c in
  let environment :=
    orElse (context' ≫= AlLocationContext.environment) (AlLocationContext.environment c) in
  let residency := orElse (context' ≫= AlLocationContext.residency) residency in
  AlLocationContext.mk environment residency insightLocationId accessible.

Definition setContext (context' : option AlLocationContext.t) (st : AlLocatorMatrix) : AlLocatorMatrix :=
  let st := set_nodes ∅ st in
  let st := set_context (mergeContext context' st) st in
  set_context (normalizeContext (context st)) st.

Definition getContext (st : AlLocatorMatrix) : AlLocationContext.t := context st.

(** ** setActingUri and the constructor *)

Inductive ActingUri :=
  | UriNull
  | UriBoolean (b : bool)
  | UriString (s : string).

Definition setActingUri (actingUri' : ActingUri) (st : AlLocatorMatrix) : AlLocatorMatrix :=
  match actingUri' with
  | UriNull => set_acting None None st
  | _ =>
      let uri :=
        match actingUri' with
        | UriString s => s
        | _ => currentLocation st
        end in
      match uri with
      | EmptyString => st
      | String _ _ =>
          let '(found, st) := getNodeByURI uri st in
          let st := set_acting (Some uri) found st in
          match found with
          | Some a =>
              setContext
                (Some (AlLocationContext.mk
                         (orElse (AlLocationDescriptor.environment (deref st a))
                                 (AlLocationContext.environment (context st)))
                         (orElse (AlLocationDescriptor.residency (deref st a))
                                 (AlLocationContext.residency (context st)))
                         None None)) st
          | None => st
          end
      end
  end.

(** [new AlLocatorMatrix(nodes, actingUri, context)] in a runtime whose heap
    is [h] and whose window location is [w]. *)
Definition construct (h : list AlLocationDescriptor.t) (w : option WindowLocation)
    (nodes' : list ref) (actingUri' : ActingUri) (context' : option AlLocationContext.t)
    : Outcome unit :=
  (when (bool_decide (is_Some context')) (modify (setContext context')) ;;
   when (bool_decide (nodes' <> [])) (setLocations nodes') ;;
   match actingUri' with
   | UriBoolean _ | UriString (String _ _) => modify (setActingUri actingUri')
   | _ => ret tt
   end) (emptyMatrix h w).

(** ** Observing outcomes *)

Definition returned {A} (o : Outcome A) : option A :=
  match o with
  | Ok a _ => Some a
  | _ => None
  end.

(** The state a call leaves behind; a thrown exception keeps the writes
    made before it. *)
Definition stateAfter {A} (o : Outcome A) (st : AlLocatorMatrix) : AlLocatorMatrix :=
  match o with
  | Ok _ st' => st'
  | Thrown st' => st'
  | OutOfFuel => st
  end.

(** A fresh locator after [setLocations(catalog)]. *)
Definition loaded (h : list AlLocationDescriptor.t) (w : option WindowLocation)
    (catalog : list ref) : AlLocatorMatrix :=
  stateAfter (setLocations catalog (emptyMatrix h w)) (emptyMatrix h w).

(** ** Frames: what a call leaves as it was *)

(** [m] relates the state before to the state after by [R], whether it
    returns or throws. *)
Definition keeps (R : AlLocatorMatrix -> AlLocatorMatrix -> Prop) {A} (m : M A) : Prop :=
  forall st,
    match m st with
    | Ok _ st' => R st st'
    | Thrown st' => R st st'
    | OutOfFuel => True
    end.

(** Everything but the two indices is as before. *)
Definition sameButIndices (st st' : AlLocatorMatrix) : Prop :=
  heap st' = heap st /\ window st' = window st /\ actingUri st' = actingUri st
  /\ actor st' = actor st /\ nodes st' = nodes st /\ context st' = context st.

(** Everything but the URI index is as before. *)
Definition sameButUriMap (st st' : AlLocatorMatrix) : Prop :=
  sameButIndices st st' /\ _nodeMap st' = _nodeMap st.

(** The keys [saveNode] writes for a descriptor, in the order it writes them. *)
Definition nodeKeys (d : AlLocationDescriptor.t) : list string :=
  let t := AlLocationDescriptor.locTypeId d in
  let e := AlLocationDescriptor.environment d in
  let r := AlLocationDescriptor.residency d in
  let i := AlLocationDescriptor.insightLocationId d in
  (if truthy e && truthy r
   then (if truthy i then [key4 t (tpl e) (tpl r) (tpl i)] else []) ++ [key3 t (tpl e) (tpl r)]
   else [])
  ++ (if truthy e then [key3 t (tpl e) "*"] else [])
  ++ [key3 t "*" "*"].

(** The URI and the aliases [addUriMapping] compiles, in order. *)
Definition uriSources (d : AlLocationDescriptor.t) : list string :=
  (if 0 <? String.length (AlLocationDescriptor.uri d) then [AlLocationDescriptor.uri d] else [])
  ++ default [] (AlLocationDescriptor.aliases d).

Definition assignAll {V} (v : V) (ks : list string) (m : Dict V) : Dict V :=
  fold_left (fun m k => dict_set k v m) ks m.

(** ** setLocations as two lists of dictionary writes *)

Definition applyWrites {V} (ws : list (string * V)) (m : Dict V) : Dict V :=
  fold_left (fun m kv => dict_set kv.1 kv.2 m) ws m.

(** The writes to [_nodeMap] that loading [catalog] performs, in order. *)
Definition nodeWrites (h : list AlLocationDescriptor.t) (catalog : list ref) : list (string * ref) :=
  flat_map (fun n => (fun k => (k, n)) <$> nodeKeys (h !!! n)) catalog.

(** The patterns loading [catalog] registers, in order. *)
Definition catalogPatterns (h : list AlLocationDescriptor.t) (catalog : list ref) : list string :=
  flat_map (fun n => escapeLocationPattern <$> uriSources (h !!! n)) catalog.

(** The writes to [uriMap] for node [n]; [None] when a pattern does not compile. *)
Fixpoint compileSources (n : ref) (sources : list string) : option (list (string * Mapping)) :=
  match sources with
  | [] => Some []
  | src :: rest =>
      match newRegExp (escapeLocationPattern src), compileSources n rest with
      | Some re, Some ws => Some ((escapeLocationPattern src, mkMapping re n) :: ws)
      | _, _ => None
      end
  end.

Fixpoint uriWrites (h : list AlLocationDescriptor.t) (catalog : list ref)
    : option (list (string * Mapping)) :=
  match catalog with
  | [] => Some []
  | n :: rest =>
      match compileSources n (uriSources (h !!! n)), uriWrites h rest with
      | Some ws, Some ws' => Some (ws ++ ws')
      | _, _ => None
      end
  end.

(** Two dictionaries with the same keys in the same places, whose values
    differ at most under the keys of [K]. *)
Definition agreeOff {V} (K : list string) (m2 m1 : Dict V) : Prop :=
  Forall2 (fun kv2 kv1 : string * V => kv2.1 = kv1.1 /\ (kv2.2 = kv1.2 \/ kv1.1 ∈ K)) m2 m1.

(** Every entry under [k] holds [v]. *)
Definition allAt {V} (k : string) (v : V) (m : Dict V) : Prop :=
  Forall (fun kv : string * V => kv.1 = k -> kv.2 = v) m.

(** Does the matcher compiled for [source] accept [url]?  [None] when the
    pattern does not compile. *)
Definition compiledTest (source url : string) : option bool :=
  (fun re => test re url) <$> newRegExp (escapeLocationPattern source).

(** A descriptor with its cache field forgotten. *)
Definition forgetCache (d : AlLocationDescriptor.t) : AlLocationDescriptor.t :=
  AlLocationDescriptor.with_fullURI None d.

(** What [resolveNodeURI] leaves as it was: everything but the memo and the
    descriptors' [_fullURI] caches. *)
Definition sameButCaches (st st' : AlLocatorMatrix) : Prop :=
  _nodeMap st' = _nodeMap st /\ uriMap st' = uriMap st /\ context st' = context st
  /\ window st' = window st /\ actingUri st' = actingUri st /\ actor st' = actor st
  /\ forall r, forgetCache (deref st' r) = forgetCache (deref st r).

(** ** Plain URIs and the patterns compiled for them *)

(** No character of [s] is one [escapeLocationPattern] leaves as, or turns
    into, an operator. *)
Fixpoint isPlain (s : string) : bool :=
  match s with
  | EmptyString => true
  | String c r => negb (isQuantifier c) && isPlain r
  end.

Fixpoint noLineTerminator (s : string) : bool :=
  match s with
  | EmptyString => true
  | String c r => negb (isLineTerminator c) && noLineTerminator r
  end.

(** One literal term per character. *)
Fixpoint literals (s : string) : RegExp :=
  match s with
  | EmptyString => []
  | String c r => Rep (Lit c) Once :: literals r
  end.

(** The first character, if any, is not a quantifier. *)
Definition startsPlain (s : string) : bool :=
  match s with
  | EmptyString => true
  | String c _ => negb (isQuantifier c)
  end.

(** ** Parent chains that end *)


(** No lookup has put, and none will put, a descriptor into the memo under
    the name [hasOwnProperty]: the memo has no such entry, and the index has
    nothing that a lookup of that type id under the ambient context finds. *)
Definition methodSafe (st : AlLocatorMatrix) : Prop :=
  memoShadowed st = false /\ lookupNode st "hasOwnProperty" None = None.

(** [path ? url + path : url] *)
Definition withPath (url : string) (path : option string) : string :=
  if truthy path then url +:+ tpl path else url.

(** ** The context in effect for a lookup *)

(** A field of the explicit context when it is truthy there, else the
    ambient one. *)
Definition effective (f : AlLocationContext.t -> option string)
    (ctx : option AlLocationContext.t) (st : AlLocatorMatrix) : option string :=
  orElse (ctx ≫= f) (f (context st)).

Definition effectiveAccessible (ctx : option AlLocationContext.t) (st : AlLocatorMatrix)
    : option (list string) :=
  match ctx ≫= AlLocationContext.accessible with
  | Some a => Some a
  | None => AlLocationContext.accessible (context st)
  end.

(** The descriptors indexed for the accessible data centers, the insight
    location in effect left out, in the order of the accessible list. *)
Definition accessibleHits (st : AlLocatorMatrix) (T : string)
    (ctx : option AlLocationContext.t) : list ref :=
  omap (fun a =>
          if decide (Some a = effective AlLocationContext.insightLocationId ctx st) then None
          else dict_get (key4 T (tpl (effective AlLocationContext.environment ctx st))
                              (tpl (effective AlLocationContext.residency ctx st)) a)
                        (_nodeMap st))
       (default [] (effectiveAccessible ctx st)).

(** The first result among alternatives tried in order. *)
Definition firstOf {A} (tries : list (option A)) : option A :=
  head (omap id tries).

(** ** Notions for stating what the methods keep and how they compose *)

(** Every character of [w] is one the class [[a-zA-Z0-9_]] matches. *)
Definition wordChars (w : string) : bool :=
  forallb isWordChar (String.list_ascii_of_string w).

(** What a lookup or a resolution may change: the memo may grow, and
    descriptors may get their [_fullURI] cached. *)
Definition onlyFillsCaches (st st' : AlLocatorMatrix) : Prop :=
  sameButCaches st st' /\ nodes st ⊆ nodes st' /\ length (heap st') = length (heap st).

(** The residency [setContext] takes from the node bound to the insight
    location [i], when there is one with a residency; else [fallback]. *)
Definition boundResidency (st : AlLocatorMatrix) (i fallback : option string) : option string :=
  if truthy i then
    match findOne (fun _ n => bool_decide (AlLocationDescriptor.insightLocationId n = i)) st with
    | Some locationNode =>
        if truthy (AlLocationDescriptor.residency (deref st locationNode))
        then AlLocationDescriptor.residency (deref st locationNode)
        else fallback
    | None => fallback
    end
  else fallback.

(** The data center [normalizeContext] selects for a table entry. *)
Definition selectedLocation (loc : InsightLocation.t) (i : option string)
    (accessible : list string) : option string :=
  match InsightLocation.alternatives loc with
  | Some alternatives =>
      match selectAlternative alternatives accessible with
      | Some s => Some s
      | None => head alternatives
      end
  | None => i
  end.

(** A key that [getNode] tries for the type [T], and that [saveNode] writes
    for a descriptor of type [T]: the type, a hyphen, and the rest. *)
Definition keyOf (T k : string) : Prop := exists rest, k = T +:+ "-" +:+ rest.

(** The hash index and the memo hold descriptors under their own keys only:
    every entry of [_nodeMap] is under one of the keys [saveNode] writes for
    the descriptor it holds, and every entry of the memo is a descriptor
    with a key of the memoized type. *)
Definition wellIndexed (st : AlLocatorMatrix) : Prop :=
  (forall k r, (k, r) ∈ _nodeMap st -> k ∈ nodeKeys (deref st r))
  /\ (forall T r, nodes st !! T = Some r ->
        exists k, keyOf T k /\ k ∈ nodeKeys (deref st r)).

(** A call keeps [wellIndexed], whether it returns or throws. *)
Definition keepsIndexed (st st' : AlLocatorMatrix) : Prop :=
  wellIndexed st -> wellIndexed st'.

Definition hyphenFree (s : string) : bool := negb (ascii_in "-" s).

(** The node of a generated UI that a context with the given environment
    and residency, and no data center, resolves to. *)
Definition uiNodeFor (e r : string) : ref :=
  if decide (e = "production") then (if decide (r = "US") then 0 else 1)
  else if decide (e = "integration") then 2
  else 3.

(** The tail of every pattern: [.*$]. *)
Definition openEnd : RegExp := [Rep AnyChar ZeroOrMore; Eol].

(** The URI index of a locator loaded with the descriptors of a UI. *)
Definition uiUriIndex (appCode : string) (devPort : N) : Dict Mapping :=
  let plain (u : string) (n : ref) :=
    (escapeLocationPattern u, mkMapping (Bol :: literals u ++ openEnd) n) in
  let dev := literals ".ui-dev.product.dev.alertlogic.com" ++ openEnd in
  let dash := Rep (Lit "-") ZeroOrMore in
  let alias (stars : string) (R : RegExp) :=
    (escapeLocationPattern ("https://" +:+ appCode +:+ stars
                            +:+ ".ui-dev.product.dev.alertlogic.com"),
     mkMapping (Bol :: literals ("https://" +:+ appCode +:+ "-")
                        ++ Rep WordClass OneOrMore :: R) 2) in
  [ plain ("https://console." +:+ appCode +:+ ".alertlogic.com") 0;
    plain ("https://console." +:+ appCode +:+ ".alertlogic.co.uk") 1;
    plain ("https://console." +:+ appCode +:+ ".product.dev.alertlogic.com") 2;
    plain ("https://" +:+ appCode +:+ ".ui-dev.product.dev.alertlogic.com") 2;
    alias "-*" dev;
    alias "-*-*" (dash :: dev);
    alias "-*-*-*" (dash :: dash :: dev);
    (escapeLocationPattern ("https://*.o3-" +:+ appCode +:+ ".product.dev.alertlogic.com"),
     mkMapping (Bol :: literals "https://"
                        ++ Rep WordClass OneOrMore
                        :: literals (".o3-" +:+ appCode +:+ ".product.dev.alertlogic.com")
                        ++ openEnd) 2);
    plain ("http://localhost:" +:+ numberToString devPort) 3 ].

(** ** Scenarios *)

Definition node (t : string) (e r i : option string) (u : string) : AlLocationDescriptor.t :=
  AlLocationDescriptor.mk t None i u r e None None None None None.

Definition child (t parent u : string) : AlLocationDescriptor.t :=
  AlLocationDescriptor.mk t (Some parent) None u None None None None None None None.

(** The development node of a UI, as [AlLocation.uiNode] generates it. *)
Definition devHeap : list AlLocationDescriptor.t :=
  [ node "cd17:accounts" (Some "development") None None "http://localhost:9999" ].

(** Two descriptors of one type in one environment and residency, in two
    data centers. *)
Definition twoCenters : list AlLocationDescriptor.t :=
  [ node "insight:api" (Some "production") (Some "US") (Some "defender-us-denver")
         "https://api.denver.example.com";
    node "insight:api" (Some "production") (Some "US") (Some "defender-us-ashburn")
         "https://api.ashburn.example.com" ].

(** The filter [n => n === r]. *)
Definition isObject (r : ref) : ref -> AlLocationDescriptor.t -> bool :=
  fun r' _ => bool_decide (r' = r).

(** Two applications, loaded one catalog after the other. *)
Definition twoApps : list AlLocationDescriptor.t :=
  [ node "cd17:accounts" (Some "production") (Some "US") None
         "https://console.account.alertlogic.com";
    node "cd17:search" (Some "production") (Some "US") None
         "https://console.search.alertlogic.com" ].

Definition loadedTwice : AlLocatorMatrix :=
  stateAfter (setLocations [1] (loaded twoApps None [0])) (loaded twoApps None [0]).

(** The context argument of the data-center normalization example. *)
Definition virginiaFromAshburn : AlLocationContext.t :=
  AlLocationContext.mk None None (Some "insight-us-virginia") (Some ["defender-us-ashburn"]).

(** The Newport API node, and the locator constructed with it and a context
    bound to Newport: [new AlLocatorMatrix(nodes, null, {insightLocationId})]. *)
Definition newportHeap : list AlLocationDescriptor.t :=
  [ node "insight:api" (Some "production") (Some "EMEA") (Some "defender-uk-newport")
         "https://api.newport.example.com" ].


(** A parent and a child that names it, a bare host name, and a host name
    that starts with the letters [http]. *)
Definition familyHeap : list AlLocationDescriptor.t :=
  [ node "parent:ui" (Some "production") (Some "US") None "https://p.example.com";
    child "child:ui" "parent:ui" "/child";
    node "auth0" None None None "bare.example.com";
    node "httpbin" None None None "httpbin.org" ].

(** One node with the URI of the round-trip example, one whose URI holds a
    wildcard, and two nodes with one and the same URI. *)
Definition exampleHeap : list AlLocationDescriptor.t :=
  [ node "x:ui" (Some "production") (Some "US") None "https://x.example.com" ].

Definition wildcardHeap : list AlLocationDescriptor.t :=
  [ node "x:ui" (Some "production") (Some "US") None "https://*.example.com" ].

Definition sharedUriHeap : list AlLocationDescriptor.t :=
  [ node "x:ui" (Some "production") (Some "US") None "https://x.example.com";
    node "x:api" (Some "production") (Some "US") None "https://x.example.com" ].

(** The catalog of the resolveURL scenario, a browser location with a path,
    and a node that names its own type as its parent. *)
Definition apiHeap : list AlLocationDescriptor.t :=
  [ node "global:api" (Some "production") (Some "US") None "https://api.global.alertlogic.com" ].


Definition loopHeap : list AlLocationDescriptor.t := [ child "loop:ui" "loop:ui" "/x" ].

(** Three nodes of one type: for production in the US, for production
    anywhere, and for anywhere. *)
Definition fallbackHeap : list AlLocationDescriptor.t :=
  [ node "cd17:accounts" (Some "production") (Some "US") None "https://us.example.com";
    node "cd17:accounts" (Some "production") None None "https://prod.example.com";
    node "cd17:accounts" None None None "https://any.example.com" ].

(** A catalog whose second node has two wildcards in a row in its URI. *)
Definition doubleStarHeap : list AlLocationDescriptor.t :=
  [ node "x:ui" (Some "production") (Some "US") None "https://x.example.com";
    node "y:ui" (Some "production") (Some "US") None "https://**.example.com";
    node "z:ui" (Some "production") (Some "US") None "https://z.example.com" ].

(** One UI in two residencies and a child of it. *)
Definition residencyHeap : list AlLocationDescriptor.t :=
  [ node "parent:ui" (Some "production") (Some "US") None "https://us.example.com";
    node "parent:ui" (Some "production") (Some "EMEA") None "https://emea.example.com";
    child "child:ui" "parent:ui" "/child" ].

Definition inEMEA : option AlLocationContext.t :=
  Some (AlLocationContext.mk None (Some "EMEA") None None).

(** A child whose parent type is not in the catalog. *)
Definition orphanHeap : list AlLocationDescriptor.t :=
  [ child "child:ui" "parent:ui" "bare.example.com/child" ].

(** A type id with a hyphen in it: a descriptor of type [cd17] whose
    environment is [accounts-x]. *)
Definition hyphenHeap : list AlLocationDescriptor.t :=
  [ node "cd17" (Some "accounts-x") None None "https://x.example.com" ].

(** The accounts application and a descriptor whose type id is
    [hasOwnProperty]. *)
Definition methodHeap : list AlLocationDescriptor.t :=
  [ node "cd17:accounts" (Some "production") (Some "US") None "https://accounts.example.com";
    node "hasOwnProperty" (Some "production") (Some "US") None "https://method.example.com" ].

(** * Properties *)

(** ** Dictionaries *)

Section DictFacts.
Context {V : Type}.
Implicit Types (m : Dict V) (k : string) (v : V).

Lemma hasOwnProperty_Some k m v :
  dict_get k m = Some v -> hasOwnProperty k m = true.
Proof. intros H. unfold hasOwnProperty. rewrite H. apply bool_decide_eq_true. eauto. Qed.

Lemma hasOwnProperty_None k m :
  dict_get k m = None -> hasOwnProperty k m = false.
Proof.
  intros H. unfold hasOwnProperty. rewrite H.
  apply bool_decide_eq_false. intros [x Hx]. discriminate.
Qed.

Lemma hasOwnProperty_keys k m :
  hasOwnProperty k m = true <-> k ∈ m.*1.
Proof.
  induction m as [|[k' v'] m IH]; simpl.
  - split; [discriminate | intros H; inversion H].
  - unfold hasOwnProperty in *. simpl. destruct (decide (k' = k)) as [->|Hne].
    + split; [intros _; left | intros _; apply bool_decide_eq_true; eauto].
    + rewrite IH. split; [intros H; by right | intros H].
      apply elem_of_cons in H as [H|H]; [congruence | done].
Qed.

Lemma dict_set_keys_old k v m :
  hasOwnProperty k m = true -> (dict_set k v m).*1 = m.*1.
Proof.
  intros H. unfold dict_set. rewrite H. clear H.
  induction m as [|[k' v'] m IH]; [done|].
  rewrite map_cons, !fmap_cons, IH. by destruct (decide (_ = k)).
Qed.

Lemma dict_set_keys_new k v m :
  hasOwnProperty k m = false -> (dict_set k v m).*1 = m.*1 ++ [k].
Proof. intros H. unfold dict_set. rewrite H. by rewrite fmap_app. Qed.

Lemma dict_get_app_l k m m' v :
  dict_get k m = Some v -> dict_get k (m ++ m') = Some v.
Proof.
  induction m as [|[k' v'] m IH]; simpl; [discriminate|].
  destruct (decide (k' = k)); auto.
Qed.

Lemma dict_get_app_r k m m' :
  dict_get k m = None -> dict_get k (m ++ m') = dict_get k m'.
Proof.
  induction m as [|[k' v'] m IH]; simpl; [done|].
  destruct (decide (k' = k)); [discriminate | auto].
Qed.

Lemma dict_get_set_eq k v m : dict_get k (dict_set k v m) = Some v.
Proof.
  unfold dict_set. destruct (hasOwnProperty k m) eqn:H.
  - unfold hasOwnProperty in H. apply bool_decide_eq_true in H.
    induction m as [|[k' v'] m IH]; simpl in *.
    + by destruct H.
    + destruct (decide (k' = k)) as [->|Hne]; simpl.
      * by rewrite decide_True.
      * rewrite decide_False by done. auto.
  - unfold hasOwnProperty in H. apply bool_decide_eq_false in H.
    rewrite dict_get_app_r; simpl.
    + by rewrite decide_True.
    + destruct (dict_get k m); [exfalso; eauto | done].
Qed.

Lemma dict_get_set_ne k k' v m :
  k <> k' -> dict_get k' (dict_set k v m) = dict_get k' m.
Proof.
  intros Hne. unfold dict_set. destruct (hasOwnProperty k m).
  - induction m as [|[k0 v0] m IH]; simpl; [done|].
    destruct (decide (k0 = k)) as [->|H0]; simpl.
    + rewrite !decide_False by done. apply IH.
    + destruct (decide (k0 = k')); [done | apply IH].
  - destruct (dict_get k' m) eqn:H.
    + by apply dict_get_app_l.
    + rewrite dict_get_app_r by done. simpl. by rewrite decide_False.
Qed.

Lemma dict_set_has k k' v m :
  hasOwnProperty k' m = true -> hasOwnProperty k' (dict_set k v m) = true.
Proof.
  intros H. destruct (decide (k = k')) as [->|Hne].
  - eapply hasOwnProperty_Some, dict_get_set_eq.
  - unfold hasOwnProperty in *. by rewrite dict_get_set_ne.
Qed.
End DictFacts.

Lemma pick_Some m k n r : dict_get k m = Some n -> pick m k r = Some n.
Proof. intros H. unfold pick. by rewrite (hasOwnProperty_Some _ _ _ H). Qed.

Lemma pick_None m k r : dict_get k m = None -> pick m k r = r.
Proof. intros H. unfold pick. by rewrite (hasOwnProperty_None _ _ H). Qed.

(** ** C9: setActingUri *)

(** C9, as the code has it: [setActingUri(null)] clears the acting URI and
    the acting node and touches nothing else (no detection runs, the context,
    the indices, the memo and the descriptors stay as they are), while
    [setActingUri(false)] is the same call as [setActingUri(true)]:
    both detect the acting node from the ambient location. *)
Theorem setActingUri_null_clears (st : AlLocatorMatrix) :
  actingUri (setActingUri UriNull st) = None
  /\ getActingNode (setActingUri UriNull st) = None
  /\ context (setActingUri UriNull st) = context st
  /\ heap (setActingUri UriNull st) = heap st
  /\ nodes (setActingUri UriNull st) = nodes st
  /\ _nodeMap (setActingUri UriNull st) = _nodeMap st
  /\ uriMap (setActingUri UriNull st) = uriMap st
  /\ setActingUri (UriBoolean false) st = setActingUri (UriBoolean true) st
  /\ setActingUri (UriBoolean false) st = setActingUri (UriString (currentLocation st)) st.
Proof. repeat split. Qed.

(** C9 fails for [false]: on a locator holding the development node of a UI
    and no [window], [setActingUri(false)] stores the placeholder as acting
    URI, detects the development node as acting node and moves the ambient
    environment from production to development. *)
Lemma setActingUri_false_detects :
  actingUri (setActingUri (UriBoolean false) (loaded devHeap None [0]))
    = Some "http://localhost:9999"
  /\ getActingNode (setActingUri (UriBoolean false) (loaded devHeap None [0])) = Some 0
  /\ AlLocationContext.environment (context (loaded devHeap None [0])) = Some "production"
  /\ AlLocationContext.environment
       (context (setActingUri (UriBoolean false) (loaded devHeap None [0])))
     = Some "development".
Proof. vm_compute. repeat split. Qed.

(** ** The scenarios load *)

(** Every catalog of the scenarios compiles: [setLocations] returns. *)
Lemma scenarios_load :
  returned (setLocations [0] (emptyMatrix devHeap None)) = Some tt
  /\ returned (setLocations [0; 1] (emptyMatrix twoCenters None)) = Some tt
  /\ returned (setLocations [0] (emptyMatrix twoApps None)) = Some tt
  /\ returned (setLocations [0] (emptyMatrix newportHeap None)) = Some tt
  /\ returned (setLocations [0; 1; 2; 3] (emptyMatrix familyHeap None)) = Some tt
  /\ returned (setLocations [0] (emptyMatrix exampleHeap None)) = Some tt
  /\ returned (setLocations [0] (emptyMatrix wildcardHeap None)) = Some tt
  /\ returned (setLocations [0; 1] (emptyMatrix sharedUriHeap None)) = Some tt
  /\ returned (setLocations [0] (emptyMatrix apiHeap None)) = Some tt
  /\ returned (setLocations [0] (emptyMatrix loopHeap None)) = Some tt
  /\ returned (setLocations [0; 1; 2] (emptyMatrix fallbackHeap None)) = Some tt.
Proof. vm_compute. repeat split. Qed.

(** ** Strings and index keys *)

Lemma append_nil (b : string) : EmptyString +:+ b = b.
Proof. reflexivity. Qed.

Lemma append_cons (c : ascii) (a b : string) : String c a +:+ b = String c (a +:+ b).
Proof. reflexivity. Qed.

Ltac app_norm := rewrite ?append_cons, ?append_nil.
Ltac app_norm_in H := rewrite ?append_cons, ?append_nil in H.

Lemma append_assoc (a b c : string) : (a +:+ b) +:+ c = a +:+ b +:+ c.
Proof. induction a as [|x a IH]; app_norm; [done | by f_equal]. Qed.

Lemma append_inj_l (a b c : string) : a +:+ b = a +:+ c -> b = c.
Proof. apply (inj (String.append a)). Qed.

Lemma append_length (a b : string) :
  String.length (a +:+ b) = String.length a + String.length b.
Proof. induction a as [|x a IH]; app_norm; simpl; [done | by f_equal]. Qed.

Lemma append_empty_r (a : string) : a +:+ EmptyString = a.
Proof. induction a as [|x a IH]; app_norm; [done | by f_equal]. Qed.

Lemma truthy_Some (o : option string) :
  truthy o = true -> exists c s, o = Some (String c s).
Proof. destruct o as [[|c s]|]; simpl; [discriminate | eauto | discriminate]. Qed.

Lemma key4_ne_key3 t e r i : key4 t e r i <> key3 t e r.
Proof.
  unfold key4. intros H. apply (f_equal String.length) in H.
  rewrite !append_length in H. simpl in H. lia.
Qed.

Lemma key3_any_res_ne_key4 t e c r i : key3 t e "*" <> key4 t e (String c r) i.
Proof.
  unfold key4, key3. rewrite !append_assoc. intros H.
  do 4 apply append_inj_l in H. app_norm_in H. injection H as _ H.
  destruct r; app_norm_in H; discriminate.
Qed.

Lemma key3_any_res_ne_key3 t e r : r <> "*" -> key3 t e "*" <> key3 t e r.
Proof. unfold key3. intros Hr H. do 4 apply append_inj_l in H. congruence. Qed.

Lemma key3_any_ne_key4 t c e c' r c'' i :
  key3 t "*" "*" <> key4 t (String c e) (String c' r) (String c'' i).
Proof.
  unfold key4, key3. rewrite !append_assoc. intros H.
  do 2 apply append_inj_l in H. apply (f_equal String.length) in H.
  rewrite !append_length in H. simpl in H. lia.
Qed.

Lemma key3_any_ne_key3 t e r : e <> "*" -> key3 t "*" "*" <> key3 t e r.
Proof.
  unfold key3. intros He H. do 2 apply append_inj_l in H.
  destruct e as [|c [|c' e]]; app_norm_in H.
  - discriminate.
  - injection H as <- _. by apply He.
  - injection H as _ _ H. destruct e as [|x e]; app_norm_in H; [discriminate|].
    injection H as _ H. apply (f_equal String.length) in H.
    rewrite !append_length in H. simpl in H. lia.
Qed.

(** ** getNode and its memo *)

Lemma getNode_unfold T ctx st :
  getNode T ctx st
  = if memoShadowed st then Thrown st
    else Ok (memoizedLookup T ctx st).1 (memoizedLookup T ctx st).2.
Proof. unfold getNode, bind, gets, throw, lift. by destruct (memoShadowed st). Qed.

(** With the method in place [getNode] returns. *)
Lemma getNode_run T ctx st :
  memoShadowed st = false ->
  getNode T ctx st = Ok (memoizedLookup T ctx st).1 (memoizedLookup T ctx st).2.
Proof. intros H. by rewrite getNode_unfold, H. Qed.

Lemma getNode_throws T ctx st : memoShadowed st = true -> getNode T ctx st = Thrown st.
Proof. intros H. by rewrite getNode_unfold, H. Qed.

Lemma getNode_Ok T ctx st o st' :
  getNode T ctx st = Ok o st' ->
  memoShadowed st = false /\ o = (memoizedLookup T ctx st).1 /\ st' = (memoizedLookup T ctx st).2.
Proof. rewrite getNode_unfold. destruct (memoShadowed st); [done|]. by intros [= <- <-]. Qed.

Lemma getNode_returned T ctx st o :
  returned (getNode T ctx st) = Some o ->
  memoShadowed st = false /\ o = (memoizedLookup T ctx st).1.
Proof. rewrite getNode_unfold. destruct (memoShadowed st); [done|]. by intros [= <-]. Qed.

Lemma memoShadowed_false st :
  memoShadowed st = false <-> nodes st !! "hasOwnProperty" = None.
Proof.
  unfold memoShadowed. rewrite bool_decide_eq_false, <- eq_None_not_Some. done.
Qed.

Lemma memoizedLookup_memo_miss T st :
  nodes st !! T = None -> (memoizedLookup T None st).1 = lookupNode st T None.
Proof.
  intros H. unfold memoizedLookup. rewrite H. by destruct (lookupNode st T None).
Qed.

Lemma getNode_memo_miss T st :
  memoShadowed st = false -> nodes st !! T = None ->
  returned (getNode T None st) = Some (lookupNode st T None).
Proof.
  intros Hs H. rewrite getNode_run by done. cbn [returned]. f_equal.
  by apply memoizedLookup_memo_miss.
Qed.

(** ** Frames *)

Section Frame.
Variable R : AlLocatorMatrix -> AlLocatorMatrix -> Prop.
Hypothesis R_refl : forall st, R st st.
Hypothesis R_trans : forall a b c, R a b -> R b c -> R a c.

Lemma keeps_ret {A} (a : A) : keeps R (ret a).
Proof. intros st. apply R_refl. Qed.

Lemma keeps_gets {A} (f : AlLocatorMatrix -> A) : keeps R (gets f).
Proof. intros st. apply R_refl. Qed.

Lemma keeps_throw {A} : keeps R (@throw A).
Proof. intros st. apply R_refl. Qed.

Lemma keeps_modify f : (forall st, R st (f st)) -> keeps R (modify f).
Proof. intros H st. apply H. Qed.

Lemma keeps_lift {A} (f : AlLocatorMatrix -> A * AlLocatorMatrix) :
  (forall st, R st (f st).2) -> keeps R (lift f).
Proof. intros H st. apply H. Qed.

Lemma keeps_getNode T ctx :
  (forall st, R st (memoizedLookup T ctx st).2) -> keeps R (getNode T ctx).
Proof.
  intros H st. rewrite getNode_unfold. destruct (memoShadowed st); [apply R_refl | apply H].
Qed.

Lemma keeps_bind {A B} (m : M A) (f : A -> M B) :
  keeps R m -> (forall a, keeps R (f a)) -> keeps R (bind m f).
Proof.
  intros Hm Hf st. unfold bind. specialize (Hm st).
  destruct (m st) as [a st1| |]; [|done..].
  specialize (Hf a st1). destruct (f a st1); eauto.
Qed.

Lemma keeps_when b m : keeps R m -> keeps R (when b m).
Proof. destruct b; [done | intros _; apply keeps_ret]. Qed.

Lemma keeps_forEach {A} (l : list A) f :
  (forall x, keeps R (f x)) -> keeps R (forEach l f).
Proof.
  intros Hf. induction l as [|x l IH]; simpl.
  - apply keeps_ret.
  - apply keeps_bind; auto.
Qed.

Lemma keeps_Ok {A} (m : M A) st a st' : keeps R m -> m st = Ok a st' -> R st st'.
Proof. intros H E. specialize (H st). by rewrite E in H. Qed.
End Frame.

Lemma sameButIndices_refl st : sameButIndices st st.
Proof. by repeat split. Qed.

Lemma sameButIndices_trans a b c :
  sameButIndices a b -> sameButIndices b c -> sameButIndices a c.
Proof. unfold sameButIndices. intros (?&?&?&?&?&?) (?&?&?&?&?&?). repeat split; congruence. Qed.

Lemma sameButUriMap_refl st : sameButUriMap st st.
Proof. split; [apply sameButIndices_refl | done]. Qed.

Lemma sameButUriMap_trans a b c :
  sameButUriMap a b -> sameButUriMap b c -> sameButUriMap a c.
Proof.
  intros [? ?] [? ?]. split; [by eapply sameButIndices_trans | congruence].
Qed.

Lemma registerPattern_keeps n src : keeps sameButUriMap (registerPattern n src).
Proof.
  unfold registerPattern. destruct (newRegExp _).
  - apply keeps_modify. intros st. by repeat split.
  - apply keeps_throw, sameButUriMap_refl.
Qed.

Lemma addUriMapping_keeps n : keeps sameButUriMap (addUriMapping n).
Proof.
  unfold addUriMapping.
  apply keeps_bind; [apply sameButUriMap_trans | apply keeps_gets, sameButUriMap_refl |].
  intros d. apply keeps_bind; [apply sameButUriMap_trans | |].
  - apply keeps_when; [apply sameButUriMap_refl | apply registerPattern_keeps].
  - intros _. destruct (AlLocationDescriptor.aliases d).
    + apply keeps_forEach; [apply sameButUriMap_refl | apply sameButUriMap_trans |].
      intros x. apply registerPattern_keeps.
    + apply keeps_ret, sameButUriMap_refl.
Qed.

(** [saveNode] is its index writes followed by [addUriMapping]. *)
Lemma saveNode_unfold n st :
  saveNode n st
  = addUriMapping n (set_nodeMap (assignAll n (nodeKeys (deref st n)) (_nodeMap st)) st).
Proof.
  unfold saveNode, nodeKeys, assignAll, bind, gets, when, indexNode, modify, ret.
  destruct (truthy (AlLocationDescriptor.environment (deref st n)));
    destruct (truthy (AlLocationDescriptor.residency (deref st n)));
    destruct (truthy (AlLocationDescriptor.insightLocationId (deref st n)));
    reflexivity.
Qed.

Lemma saveNode_keeps n : keeps sameButIndices (saveNode n).
Proof.
  intros st. rewrite saveNode_unfold.
  pose proof (addUriMapping_keeps n
    (set_nodeMap (assignAll n (nodeKeys (deref st n)) (_nodeMap st)) st)) as H.
  destruct (addUriMapping _ _) as [a st'|st'|]; [| |done]; by destruct H as [H _].
Qed.

Lemma setLocations_keeps l : keeps sameButIndices (setLocations l).
Proof.
  apply keeps_forEach;
    [apply sameButIndices_refl | apply sameButIndices_trans | apply saveNode_keeps].
Qed.

Lemma dict_set_fresh {V} k (v : V) (m : Dict V) :
  k ∉ m.*1 -> dict_set k v m = m ++ [(k, v)].
Proof.
  intros H. unfold dict_set.
  destruct (hasOwnProperty k m) eqn:E; [|done].
  by apply hasOwnProperty_keys in E.
Qed.

(** ** C10: search and findOne *)

Lemma search_filter f st :
  search f st = (List.filter (fun kv : string * ref => f kv.2 (deref st kv.2)) (_nodeMap st)).*2.
Proof.
  unfold search. induction (_nodeMap st) as [|[k r] m IH]; [done|].
  cbn [omap list_omap List.filter]. simpl.
  destruct (f r (deref st r)); [rewrite fmap_cons; simpl; f_equal|]; apply IH.
Qed.

(** The index after loading one descriptor with environment, residency and
    insight location into a fresh locator. *)
Lemma saveNode_fresh_index h w n st' c e c' r c'' i :
  AlLocationDescriptor.environment (h !!! n) = Some (String c e) ->
  AlLocationDescriptor.residency (h !!! n) = Some (String c' r) ->
  AlLocationDescriptor.insightLocationId (h !!! n) = Some (String c'' i) ->
  String c e <> "*" -> String c' r <> "*" ->
  setLocations [n] (emptyMatrix h w) = Ok tt st' ->
  heap st' = h
  /\ _nodeMap st'
     = let t := AlLocationDescriptor.locTypeId (h !!! n) in
       [ (key4 t (String c e) (String c' r) (String c'' i), n);
         (key3 t (String c e) (String c' r), n);
         (key3 t (String c e) "*", n);
         (key3 t "*" "*", n) ].
Proof.
  intros He Hr Hi Hes Hrs H.
  unfold setLocations in H. simpl in H. unfold bind in H.
  destruct (saveNode n (emptyMatrix h w)) as [u st1| |] eqn:Hs; [|done..].
  injection H as <-. rewrite saveNode_unfold in Hs.
  apply (keeps_Ok _ _ _ _ _ (addUriMapping_keeps n)) in Hs.
  destruct Hs as [(Hh & _) Hm]. split; [exact Hh|]. rewrite Hm. clear Hh Hm.
  unfold deref, nodeKeys. simpl. rewrite He, Hr, Hi. simpl.
  unfold assignAll. simpl.
  set (t := AlLocationDescriptor.locTypeId (h !!! n)).
  rewrite (dict_set_fresh (key4 _ _ _ _) n []) by apply not_elem_of_nil.
  rewrite (dict_set_fresh (key3 t (String c e) (String c' r)) n); simpl.
  2:{ rewrite not_elem_of_cons. split; [|apply not_elem_of_nil].
      intros E. symmetry in E. by apply key4_ne_key3 in E. }
  rewrite (dict_set_fresh (key3 t (String c e) "*") n); simpl.
  2:{ rewrite !not_elem_of_cons. split; [|split; [|apply not_elem_of_nil]].
      - apply key3_any_res_ne_key4.
      - by apply key3_any_res_ne_key3. }
  rewrite dict_set_fresh; simpl; [done|].
  rewrite !not_elem_of_cons. repeat split; [| | |apply not_elem_of_nil].
  - apply key3_any_ne_key4.
  - by apply key3_any_ne_key3.
  - by apply key3_any_ne_key3.
Qed.

(** C10, as the code has it: [search] walks the hash index and returns, in
    insertion order, one result per index entry whose descriptor passes the
    filter, so a descriptor comes back once per key that still maps to it;
    [findOne] is the first of these results, or none.  A descriptor with
    environment, residency and insight location set (neither environment nor
    residency being the wildcard), loaded alone into a fresh locator, sits
    under four keys and a filter it passes gets it four times. *)
Theorem search_one_result_per_index_key
    (f : ref -> AlLocationDescriptor.t -> bool) (h : list AlLocationDescriptor.t)
    (w : option WindowLocation) (n : ref) (st' : AlLocatorMatrix) :
  truthy (AlLocationDescriptor.environment (h !!! n)) = true ->
  truthy (AlLocationDescriptor.residency (h !!! n)) = true ->
  truthy (AlLocationDescriptor.insightLocationId (h !!! n)) = true ->
  AlLocationDescriptor.environment (h !!! n) <> Some "*" ->
  AlLocationDescriptor.residency (h !!! n) <> Some "*" ->
  setLocations [n] (emptyMatrix h w) = Ok tt st' ->
  (_nodeMap st').*1
    = (let d := h !!! n in
       let t := AlLocationDescriptor.locTypeId d in
       let e := tpl (AlLocationDescriptor.environment d) in
       let r := tpl (AlLocationDescriptor.residency d) in
       [ key4 t e r (tpl (AlLocationDescriptor.insightLocationId d));
         key3 t e r; key3 t e "*"; key3 t "*" "*" ])
  /\ search f st' = (if f n (h !!! n) then [n; n; n; n] else [])
  /\ findOne f st' = (if f n (h !!! n) then Some n else None)
  /\ (forall g st,
        search g st
          = (List.filter (fun kv : string * ref => g kv.2 (deref st kv.2)) (_nodeMap st)).*2
        /\ findOne g st = head (search g st)).
Proof.
  intros He Hr Hi Hes Hrs H.
  apply truthy_Some in He as (c & e & He).
  apply truthy_Some in Hr as (c' & r & Hr).
  apply truthy_Some in Hi as (c'' & i & Hi).
  rewrite He in Hes. rewrite Hr in Hrs.
  destruct (saveNode_fresh_index h w n st' c e c' r c'' i) as [Hh Hm]; try done;
    try congruence.
  cbv zeta in *. rewrite He, Hr, Hi. simpl in *.
  assert (Hs : search f st' = if f n (h !!! n) then [n; n; n; n] else []).
  { unfold search, deref. rewrite Hm, Hh. simpl. by destruct (f n (h !!! n)). }
  split; [by rewrite Hm|]. split; [exact Hs|]. split.
  - unfold findOne. rewrite Hs. by destruct (f n (h !!! n)).
  - intros g st. split; [apply search_filter|].
    unfold findOne. by destruct (search g st).
Qed.

(** C10 witness: the Denver descriptor of [twoCenters], loaded alone. *)
Lemma search_one_result_per_index_key_witness :
  search (isObject 0) (loaded twoCenters None [0]) = [0; 0; 0; 0]
  /\ findOne (isObject 0) (loaded twoCenters None [0]) = Some 0.
Proof.
  destruct (search_one_result_per_index_key (isObject 0) twoCenters None 0
              (loaded twoCenters None [0])) as (_ & Hs & Hf & _);
    [reflexivity | reflexivity | reflexivity | discriminate | discriminate
    | vm_compute; reflexivity | ].
  split; [exact Hs | exact Hf].
Defined.

(** C10 fails as stated: with the Denver and Ashburn descriptors of one type
    both loaded, the later one takes over the three keys they share, and a
    filter matched only by the Denver descriptor, which has environment,
    residency and insight location all set, gets it once, not four times. *)
Lemma search_returns_overwritten_descriptor_once :
  returned (setLocations [0; 1] (emptyMatrix twoCenters None)) = Some tt
  /\ search (isObject 0) (loaded twoCenters None [0; 1]) = [0]
  /\ search (isObject 1) (loaded twoCenters None [0; 1]) = [1; 1; 1; 1].
Proof. vm_compute. repeat split. Qed.

(** ** Repeating a list of writes *)

Section Writes.
Context {V : Type}.
Implicit Types (m : Dict V) (k : string) (v : V) (ws : list (string * V)).

Lemma applyWrites_cons k v ws m :
  applyWrites ((k, v) :: ws) m = applyWrites ws (dict_set k v m).
Proof. done. Qed.

Lemma applyWrites_app ws ws' m :
  applyWrites (ws ++ ws') m = applyWrites ws' (applyWrites ws m).
Proof. apply fold_left_app. Qed.

Lemma dict_set_keys_prefix k v m : m.*1 `prefix_of` (dict_set k v m).*1.
Proof.
  destruct (hasOwnProperty k m) eqn:E.
  - by rewrite dict_set_keys_old.
  - rewrite dict_set_keys_new by done. by apply prefix_app_r.
Qed.

Lemma applyWrites_keys_prefix ws m : m.*1 `prefix_of` (applyWrites ws m).*1.
Proof.
  revert m. induction ws as [|[k v] ws IH]; intros m; [done|].
  rewrite applyWrites_cons. etrans; [apply (dict_set_keys_prefix k v)|apply IH].
Qed.

Lemma applyWrites_get_other k ws m :
  k ∉ ws.*1 -> dict_get k (applyWrites ws m) = dict_get k m.
Proof.
  revert m. induction ws as [|[k' v] ws IH]; intros m Hk; [done|].
  rewrite fmap_cons, not_elem_of_cons in Hk. destruct Hk as [Hne Hk].
  rewrite applyWrites_cons, IH by done. apply dict_get_set_ne. simpl in Hne. congruence.
Qed.

Lemma agreeOff_keys K m2 m1 : agreeOff K m2 m1 -> m2.*1 = m1.*1.
Proof. induction 1 as [|[] [] ?? [? _]]; simpl in *; [done | by f_equal]. Qed.

Lemma agreeOff_has K k m2 m1 :
  agreeOff K m2 m1 -> hasOwnProperty k m2 = hasOwnProperty k m1.
Proof.
  intros H%agreeOff_keys.
  destruct (hasOwnProperty k m1) eqn:E1.
  - apply hasOwnProperty_keys. rewrite H. by apply hasOwnProperty_keys.
  - destruct (hasOwnProperty k m2) eqn:E2; [|done].
    apply hasOwnProperty_keys in E2. rewrite H in E2.
    apply hasOwnProperty_keys in E2. congruence.
Qed.

Lemma agreeOff_nil m2 m1 : agreeOff [] m2 m1 -> m2 = m1.
Proof.
  induction 1 as [|[k2 v2] [k1 v1] ?? [Hk Hv] _ IH]; [done|].
  simpl in *. destruct Hv as [->|Hv]; [by subst | by apply elem_of_nil in Hv].
Qed.

Lemma agreeOff_set K k v m2 m1 :
  agreeOff (k :: K) m2 m1 -> agreeOff K (dict_set k v m2) (dict_set k v m1).
Proof.
  intros H. unfold dict_set. rewrite (agreeOff_has _ k _ _ H).
  destruct (hasOwnProperty k m1) eqn:E.
  - clear E. induction H as [|[k2 v2] [k1 v1] ?? [Hk Hv] _ IH]; simpl; [constructor|].
    simpl in *. subst k2. constructor; [|exact IH].
    destruct (decide (k1 = k)) as [->|Hne]; simpl; [auto|].
    split; [done|]. destruct Hv as [->|Hv]; [auto|].
    apply elem_of_cons in Hv as [?|?]; [congruence | auto].
  - apply Forall2_app; [|by repeat constructor; auto].
    assert (Hk : k ∉ m1.*1).
    { intros Hin. apply hasOwnProperty_keys in Hin. congruence. }
    clear E. induction H as [|[k2 v2] [k1 v1] ?? [Hk2 Hv] _ IH]; [constructor|].
    simpl in *. rewrite not_elem_of_cons in Hk. destruct Hk as [Hne Hk].
    constructor; [|auto]. split; [done|]. destruct Hv as [->|Hv]; [auto|].
    apply elem_of_cons in Hv as [?|?]; [congruence | auto].
Qed.

Lemma applyWrites_agree ws m2 m1 :
  agreeOff ws.*1 m2 m1 -> applyWrites ws m2 = applyWrites ws m1.
Proof.
  revert m2 m1. induction ws as [|[k v] ws IH]; intros m2 m1 H.
  - by apply agreeOff_nil.
  - rewrite !applyWrites_cons. apply IH. by apply agreeOff_set.
Qed.

Lemma allAt_set k v m : allAt k v (dict_set k v m).
Proof.
  unfold allAt, dict_set. destruct (hasOwnProperty k m) eqn:E.
  - apply Forall_forall. intros [k' v'] Hin Hk. simpl in *. subst k'.
    apply list_elem_of_fmap in Hin as ([k0 v0] & E' & _).
    simpl in E'. destruct (decide (k0 = k)); by simplify_eq.
  - apply Forall_app. split; [|by repeat constructor].
    apply Forall_forall. intros [k' v'] Hin Hk. simpl in *. subst k'.
    assert (Hk : k ∈ m.*1) by (apply list_elem_of_fmap; by exists (k, v')).
    apply hasOwnProperty_keys in Hk. congruence.
Qed.

Lemma allAt_set_other k v k' v' m :
  k <> k' -> allAt k v m -> allAt k v (dict_set k' v' m).
Proof.
  intros Hne H. unfold allAt, dict_set in *. destruct (hasOwnProperty k' m).
  - apply Forall_fmap. eapply Forall_impl; [exact H|].
    intros [k0 v0] Hkv. simpl in *. destruct (decide (k0 = k')); simpl; [congruence | done].
  - apply Forall_app. split; [done|]. repeat constructor. simpl. congruence.
Qed.

Lemma allAt_applyWrites k v ws m :
  k ∉ ws.*1 -> allAt k v m -> allAt k v (applyWrites ws m).
Proof.
  revert m. induction ws as [|[k' v'] ws IH]; intros m Hk H; [done|].
  rewrite fmap_cons, not_elem_of_cons in Hk. destruct Hk as [Hne Hk].
  rewrite applyWrites_cons. apply IH; [done|]. by apply allAt_set_other.
Qed.

Lemma applyWrites_has k ws m :
  hasOwnProperty k m = true -> hasOwnProperty k (applyWrites ws m) = true.
Proof.
  revert m. induction ws as [|[k' v'] ws IH]; intros m H; [done|].
  rewrite applyWrites_cons. apply IH. by apply dict_set_has.
Qed.

(** Writing [k := v] again changes nothing once every later write to [k]
    has been replayed. *)
Lemma agreeOff_rewrite K k v m :
  hasOwnProperty k m = true -> (k ∉ K -> allAt k v m) -> agreeOff K (dict_set k v m) m.
Proof.
  intros Hhas Hall. unfold dict_set. rewrite Hhas. clear Hhas.
  destruct (decide (k ∈ K)) as [Hin|Hout].
  - clear Hall. induction m as [|[k0 v0] m IH]; simpl; [constructor|].
    constructor; [|exact IH]. destruct (decide (k0 = k)) as [->|]; simpl; auto.
  - specialize (Hall Hout). induction Hall as [|[k0 v0] m H0 _ IH]; simpl; [constructor|].
    constructor; [|exact IH]. simpl in *.
    destruct (decide (k0 = k)) as [->|]; simpl; [|auto].
    split; [done|]. left. symmetry. by apply H0.
Qed.

Lemma applyWrites_idem ws m : applyWrites ws (applyWrites ws m) = applyWrites ws m.
Proof.
  revert m. induction ws as [|[k v] ws IH]; intros m; [done|].
  rewrite !applyWrites_cons. rewrite <- (IH (dict_set k v m)) at 2.
  apply applyWrites_agree, agreeOff_rewrite.
  - apply applyWrites_has. eapply hasOwnProperty_Some, dict_get_set_eq.
  - intros Hk. apply allAt_applyWrites; [done | apply allAt_set].
Qed.
End Writes.

(** ** setLocations, computed *)

Lemma set_uriMap_id st : set_uriMap (uriMap st) st = st.
Proof. by destruct st. Qed.

Lemma set_nodeMap_id st : set_nodeMap (_nodeMap st) st = st.
Proof. by destruct st. Qed.

Lemma assignAll_applyWrites {V} (v : V) ks m :
  assignAll v ks m = applyWrites ((fun k => (k, v)) <$> ks) m.
Proof.
  unfold assignAll, applyWrites. revert m.
  induction ks as [|k ks IH]; intros m; [done | apply IH].
Qed.

Lemma addUriMapping_unfold n st :
  addUriMapping n st = forEach (uriSources (deref st n)) (registerPattern n) st.
Proof.
  unfold addUriMapping, uriSources, bind, gets, when.
  destruct (0 <? String.length (AlLocationDescriptor.uri (deref st n)));
    destruct (AlLocationDescriptor.aliases (deref st n)) as [al|]; simpl;
    unfold bind, ret; reflexivity.
Qed.

Lemma forEach_register n sources st :
  match compileSources n sources with
  | Some ws =>
      forEach sources (registerPattern n) st = Ok tt (set_uriMap (applyWrites ws (uriMap st)) st)
  | None => returned (forEach sources (registerPattern n) st) = None
  end.
Proof.
  revert st. induction sources as [|src rest IH]; intros st; simpl.
  - unfold ret. by rewrite set_uriMap_id.
  - destruct (newRegExp (escapeLocationPattern src)) as [re|] eqn:E.
    + specialize (IH (set_uriMap
        (dict_set (escapeLocationPattern src) (mkMapping re n) (uriMap st)) st)).
      destruct (compileSources n rest) as [ws|];
        unfold bind, registerPattern; rewrite E; exact IH.
    + unfold bind, registerPattern. by rewrite E.
Qed.

Lemma saveNode_spec n st :
  match compileSources n (uriSources (deref st n)) with
  | Some ws =>
      saveNode n st
      = Ok tt (set_uriMap (applyWrites ws (uriMap st))
                 (set_nodeMap (applyWrites ((fun k => (k, n)) <$> nodeKeys (deref st n))
                                 (_nodeMap st)) st))
  | None => returned (saveNode n st) = None
  end.
Proof.
  rewrite saveNode_unfold, addUriMapping_unfold, assignAll_applyWrites.
  exact (forEach_register n (uriSources (deref st n))
           (set_nodeMap (applyWrites ((fun k => (k, n)) <$> nodeKeys (deref st n))
                           (_nodeMap st)) st)).
Qed.

Lemma setLocations_spec catalog st :
  match uriWrites (heap st) catalog with
  | Some ws =>
      setLocations catalog st
      = Ok tt (set_uriMap (applyWrites ws (uriMap st))
                 (set_nodeMap (applyWrites (nodeWrites (heap st) catalog) (_nodeMap st)) st))
  | None => returned (setLocations catalog st) = None
  end.
Proof.
  revert st. induction catalog as [|n rest IH]; intros st; simpl.
  - unfold setLocations, ret. simpl. unfold ret. by rewrite set_nodeMap_id, set_uriMap_id.
  - unfold setLocations. simpl.
    pose proof (saveNode_spec n st) as Hn. unfold deref in Hn.
    destruct (compileSources n (uriSources (heap st !!! n))) as [ws|].
    + specialize (IH (set_uriMap (applyWrites ws (uriMap st))
                        (set_nodeMap (applyWrites ((fun k => (k, n)) <$> nodeKeys (heap st !!! n))
                                        (_nodeMap st)) st))).
      simpl in IH. unfold setLocations in IH.
      destruct (uriWrites (heap st) rest) as [ws'|]; unfold bind; rewrite Hn; [|exact IH].
      rewrite IH. unfold nodeWrites. simpl. rewrite !applyWrites_app. reflexivity.
    + unfold bind. destruct (saveNode n st); [discriminate | done | done].
Qed.

Lemma setLocations_Ok catalog st st1 :
  setLocations catalog st = Ok tt st1 ->
  exists ws,
    uriWrites (heap st) catalog = Some ws
    /\ st1 = set_uriMap (applyWrites ws (uriMap st))
               (set_nodeMap (applyWrites (nodeWrites (heap st) catalog) (_nodeMap st)) st).
Proof.
  intros H. pose proof (setLocations_spec catalog st) as Hs.
  destruct (uriWrites (heap st) catalog) as [ws|].
  - exists ws. split; [done|]. congruence.
  - rewrite H in Hs. discriminate.
Qed.

(** ** C8: setLocations *)

Lemma compileSources_keys n sources ws :
  compileSources n sources = Some ws -> ws.*1 = escapeLocationPattern <$> sources.
Proof.
  revert ws. induction sources as [|src rest IH]; intros ws H; simpl in H.
  - by injection H as <-.
  - destruct (newRegExp _); [|done]. destruct (compileSources n rest); [|done].
    injection H as <-. rewrite !fmap_cons. simpl. f_equal. by apply IH.
Qed.

Lemma uriWrites_keys h catalog ws :
  uriWrites h catalog = Some ws -> ws.*1 = catalogPatterns h catalog.
Proof.
  revert ws. induction catalog as [|n rest IH]; intros ws H; simpl in H.
  - by injection H as <-.
  - destruct (compileSources n _) as [w1|] eqn:E1; [|done].
    destruct (uriWrites h rest) as [w2|]; [|done].
    injection H as <-. simpl. rewrite fmap_app. f_equal; [|by apply IH].
    by apply compileSources_keys in E1.
Qed.

(** [setLocations] returns unless one of the catalog's patterns fails to compile. *)
Lemma setLocations_returns catalog st :
  is_Some (uriWrites (heap st) catalog) -> returned (setLocations catalog st) = Some tt.
Proof.
  intros [ws H]. pose proof (setLocations_spec catalog st) as Hs.
  rewrite H in Hs. by rewrite Hs.
Qed.

Lemma applyWrites_get_in {V} (v : V) k ks m :
  k ∈ ks -> dict_get k (applyWrites ((fun k => (k, v)) <$> ks) m) = Some v.
Proof.
  revert m. induction ks as [|k' ks IH]; intros m Hin; [by apply elem_of_nil in Hin|].
  cbn [fmap list_fmap]. rewrite applyWrites_cons.
  destruct (decide (k ∈ ks)) as [Hk|Hk]; [by apply IH|].
  apply elem_of_cons in Hin as [->|Hin]; [|done].
  rewrite applyWrites_get_other.
  - apply dict_get_set_eq.
  - by rewrite <- list_fmap_compose, list_fmap_id.
Qed.

Lemma nodeWrites_app h l l' : nodeWrites h (l ++ l') = nodeWrites h l ++ nodeWrites h l'.
Proof. unfold nodeWrites. apply flat_map_app. Qed.

Lemma nodeWrites_keys_inv h catalog k :
  k ∈ (nodeWrites h catalog).*1 -> exists n, n ∈ catalog /\ k ∈ nodeKeys (h !!! n).
Proof.
  induction catalog as [|n rest IH]; [by intros ?%elem_of_nil|].
  change (nodeWrites h (n :: rest))
    with (((fun k => (k, n)) <$> nodeKeys (h !!! n)) ++ nodeWrites h rest).
  rewrite fmap_app, <- list_fmap_compose, list_fmap_id.
  intros [Hk|Hk]%elem_of_app.
  - exists n. split; [apply list_elem_of_here | done].
  - destruct (IH Hk) as (n' & Hn' & Hk'). exists n'. split; [by apply list_elem_of_further | done].
Qed.

(** A key leads to the last node of the catalog that writes it. *)
Lemma applyWrites_last_node h pre n post k m :
  k ∈ nodeKeys (h !!! n) ->
  (forall n', n' ∈ post -> k ∉ nodeKeys (h !!! n')) ->
  dict_get k (applyWrites (nodeWrites h (pre ++ n :: post)) m) = Some n.
Proof.
  intros Hk Hpost.
  change (n :: post) with ([n] ++ post). rewrite !nodeWrites_app, !applyWrites_app.
  rewrite applyWrites_get_other.
  - unfold nodeWrites. cbn [flat_map]. rewrite app_nil_r. by apply applyWrites_get_in.
  - intros (n' & Hn' & Hk')%nodeWrites_keys_inv. by apply (Hpost n').
Qed.

Lemma uriWrites_app h l l' :
  uriWrites h (l ++ l')
  = match uriWrites h l, uriWrites h l' with
    | Some ws, Some ws' => Some (ws ++ ws')
    | _, _ => None
    end.
Proof.
  induction l as [|n l IH]; cbn [app uriWrites].
  - by destruct (uriWrites h l').
  - rewrite IH. destruct (compileSources n _), (uriWrites h l), (uriWrites h l'); try done.
    by rewrite app_assoc.
Qed.

(** Every pattern of a node's sources compiles and is registered to it. *)
Lemma compileSources_get n sources ws p m :
  compileSources n sources = Some ws ->
  p ∈ escapeLocationPattern <$> sources ->
  exists re, newRegExp p = Some re /\ dict_get p (applyWrites ws m) = Some (mkMapping re n).
Proof.
  revert ws m. induction sources as [|s0 rest IH]; intros ws m Hc Hin;
    [by apply elem_of_nil in Hin|].
  cbn [compileSources] in Hc.
  destruct (newRegExp (escapeLocationPattern s0)) as [re0|] eqn:E0; [|done].
  destruct (compileSources n rest) as [ws'|] eqn:Er; [|done].
  injection Hc as <-. rewrite applyWrites_cons.
  destruct (decide (p ∈ escapeLocationPattern <$> rest)) as [Hr|Hr].
  - by apply IH.
  - rewrite fmap_cons in Hin. apply elem_of_cons in Hin as [->|Hin]; [|done].
    exists re0. split; [done|]. rewrite applyWrites_get_other.
    + apply dict_get_set_eq.
    + by rewrite (compileSources_keys _ _ _ Er).
Qed.

Lemma catalogPatterns_inv h catalog p :
  p ∈ catalogPatterns h catalog ->
  exists n, n ∈ catalog /\ p ∈ escapeLocationPattern <$> uriSources (h !!! n).
Proof.
  induction catalog as [|n rest IH]; [by intros ?%elem_of_nil|].
  change (catalogPatterns h (n :: rest))
    with ((escapeLocationPattern <$> uriSources (h !!! n)) ++ catalogPatterns h rest).
  intros [Hp|Hp]%elem_of_app.
  - exists n. split; [apply list_elem_of_here | done].
  - destruct (IH Hp) as (n' & Hn' & Hp'). exists n'. split; [by apply list_elem_of_further | done].
Qed.

(** A pattern leads to the last node of the catalog that registers it. *)
Lemma applyWrites_last_pattern h pre n post ws src m :
  uriWrites h (pre ++ n :: post) = Some ws ->
  src ∈ uriSources (h !!! n) ->
  (forall n', n' ∈ post ->
     escapeLocationPattern src ∉ escapeLocationPattern <$> uriSources (h !!! n')) ->
  exists re,
    newRegExp (escapeLocationPattern src) = Some re
    /\ dict_get (escapeLocationPattern src) (applyWrites ws m) = Some (mkMapping re n).
Proof.
  intros Hws Hsrc Hpost. rewrite uriWrites_app in Hws. cbn [uriWrites] in Hws.
  destruct (uriWrites h pre) as [w1|]; [|done].
  destruct (compileSources n (uriSources (h !!! n))) as [w2|] eqn:E2; [|done].
  destruct (uriWrites h post) as [w3|] eqn:E3; [|done].
  injection Hws as <-. rewrite !applyWrites_app.
  rewrite applyWrites_get_other.
  - eapply compileSources_get; [exact E2|]. apply list_elem_of_fmap. by exists src.
  - rewrite (uriWrites_keys _ _ _ E3).
    intros (n' & Hn' & Hp)%catalogPatterns_inv. by apply (Hpost n').
Qed.

(** C8, as the code has it: [setLocations] never clears.  It writes the
    catalog's entries over the indices it finds.  Every key of every
    descriptor of the catalog then leads to the last descriptor of the
    catalog that has this key, and every pattern of a URI or alias of the
    catalog is compiled and registered to the last descriptor of the catalog
    that has this pattern.  Every key present before is still present, in
    the same place; a key the catalog does not write keeps its descriptor,
    so descriptors of earlier catalogs stay reachable; the memo, the context
    and the descriptors are not touched.  Loading the same catalog again
    right away changes nothing: the state, and with it every lookup, is the
    same as after loading it once. *)
Theorem setLocations_merges_and_is_idempotent
    (catalog : list ref) (st st1 : AlLocatorMatrix) :
  setLocations catalog st = Ok tt st1 ->
  setLocations catalog st1 = Ok tt st1
  /\ (forall pre n post k,
        catalog = pre ++ n :: post ->
        k ∈ nodeKeys (deref st n) ->
        (forall n', n' ∈ post -> k ∉ nodeKeys (deref st n')) ->
        dict_get k (_nodeMap st1) = Some n)
  /\ (forall pre n post src,
        catalog = pre ++ n :: post ->
        src ∈ uriSources (deref st n) ->
        (forall n', n' ∈ post ->
           escapeLocationPattern src ∉ escapeLocationPattern <$> uriSources (deref st n')) ->
        exists re,
          newRegExp (escapeLocationPattern src) = Some re
          /\ dict_get (escapeLocationPattern src) (uriMap st1) = Some (mkMapping re n))
  /\ (_nodeMap st).*1 `prefix_of` (_nodeMap st1).*1
  /\ (uriMap st).*1 `prefix_of` (uriMap st1).*1
  /\ (forall k, k ∉ (nodeWrites (heap st) catalog).*1 ->
        dict_get k (_nodeMap st1) = dict_get k (_nodeMap st))
  /\ (forall p, p ∉ catalogPatterns (heap st) catalog ->
        dict_get p (uriMap st1) = dict_get p (uriMap st))
  /\ sameButIndices st st1.
Proof.
  intros H. destruct (setLocations_Ok _ _ _ H) as (ws & Hws & ->).
  split; [|split; [|split; [|split; [|split; [|split; [|split]]]]]].
  - pose proof (setLocations_spec catalog
      (set_uriMap (applyWrites ws (uriMap st))
         (set_nodeMap (applyWrites (nodeWrites (heap st) catalog) (_nodeMap st)) st))) as Hs.
    simpl in Hs. rewrite Hws in Hs. rewrite Hs. simpl. by rewrite !applyWrites_idem.
  - intros pre n post k -> Hk Hpost. cbn [_nodeMap set_uriMap set_nodeMap].
    by apply applyWrites_last_node.
  - intros pre n post src -> Hsrc Hpost. cbn [uriMap set_uriMap set_nodeMap].
    by eapply applyWrites_last_pattern.
  - simpl. apply applyWrites_keys_prefix.
  - simpl. apply applyWrites_keys_prefix.
  - intros k Hk. simpl. by apply applyWrites_get_other.
  - intros p Hp. simpl. apply applyWrites_get_other.
    by rewrite (uriWrites_keys _ _ _ Hws).
  - by repeat split.
Qed.

(** C8 witness: the accounts application loaded into a fresh locator. *)
Lemma setLocations_merges_and_is_idempotent_witness :
  setLocations [0] (loaded twoApps None [0]) = Ok tt (loaded twoApps None [0]).
Proof.
  apply (setLocations_merges_and_is_idempotent [0] (emptyMatrix twoApps None)
           (loaded twoApps None [0])).
  vm_compute. reflexivity.
Defined.

(** C8 fails as stated: after loading the accounts application and then a
    catalog holding only the search application, the accounts descriptor is
    still in both indices, and lookup and reverse lookup still find it. *)
Lemma setLocations_keeps_earlier_catalog :
  returned (setLocations [1] (loaded twoApps None [0])) = Some tt
  /\ (_nodeMap loadedTwice).*1
     = [ "cd17:accounts-production-US"; "cd17:accounts-production-*"; "cd17:accounts-*-*";
         "cd17:search-production-US"; "cd17:search-production-*"; "cd17:search-*-*" ]
  /\ returned (getNode "cd17:accounts" None loadedTwice) = Some (Some 0)
  /\ (getNodeByURI "https://console.account.alertlogic.com" loadedTwice).1 = Some 0.
Proof. vm_compute. repeat split. Qed.

(** ** C5: normalizeContext *)

Ltac ctx_simpl :=
  cbn [AlLocationContext.environment AlLocationContext.residency
       AlLocationContext.insightLocationId AlLocationContext.accessible
       tpl from_option id andb negb].

Lemma selectAlternative_Some alternatives accessible a :
  selectAlternative alternatives accessible = Some a ->
  exists before after,
    alternatives = before ++ a :: after /\ a ∈ accessible
    /\ forall x, x ∈ before -> x ∉ accessible.
Proof.
  induction alternatives as [|x rest IH]; simpl; [done|].
  case_bool_decide as Hx.
  - intros [= ->]. exists [], rest. repeat split; [done|]. by intros ? ?%elem_of_nil.
  - intros H. destruct (IH H) as (before & after & -> & Ha & Hb).
    exists (x :: before), after. repeat split; [done|].
    intros y [->|Hy]%elem_of_cons; auto.
Qed.

Lemma selectAlternative_None alternatives accessible :
  selectAlternative alternatives accessible = None ->
  forall x, x ∈ alternatives -> x ∉ accessible.
Proof.
  induction alternatives as [|y rest IH]; simpl; [by intros _ ? ?%elem_of_nil|].
  case_bool_decide as Hy; [done|].
  intros H x [->|Hx]%elem_of_cons; auto.
Qed.

(** In the table, a location with alternatives lists at least one, and each
    is itself in the table with the residency of the location it stands for;
    every location declares a residency. *)
Lemma AlInsightLocations_alternatives id loc :
  dict_get id AlInsightLocations = Some loc ->
  truthy (Some (InsightLocation.residency loc)) = true
  /\ forall alternatives,
       InsightLocation.alternatives loc = Some alternatives ->
       alternatives <> []
       /\ forall a, a ∈ alternatives ->
            exists loc', dict_get a AlInsightLocations = Some loc'
                         /\ InsightLocation.residency loc' = InsightLocation.residency loc.
Proof.
  unfold AlInsightLocations. simpl. intros H.
  repeat (case_decide; [injection H as <-; split; [done|]; intros alts [= <-] |]);
    try discriminate; try done.
  - split; [done|]. intros a Ha. 
    apply elem_of_cons in Ha as [->|Ha]; [by eexists|].
    apply elem_of_cons in Ha as [->|Ha]; [by eexists|]. by apply elem_of_nil in Ha.
  - split; [done|]. intros a Ha.
    apply elem_of_cons in Ha as [->|Ha]; [by eexists|]. by apply elem_of_nil in Ha.
Qed.

(** C5: when the context [setContext] has merged holds an insight location
    id and an accessible list, [normalizeContext] rewrites an id whose table
    entry declares alternatives to the first alternative, in declared order,
    that is accessible, or to the first declared alternative when none is;
    the residency then is the one the table declares for the resulting data
    center; environment and accessible are kept.  When the id or the
    accessible list is absent, or the id is not in the table, nothing
    changes.  The example of the insight location of Virginia seen from
    Ashburn holds from every state. *)
Theorem setContext_normalizes_data_center
    (arg : option AlLocationContext.t) (st : AlLocatorMatrix) :
  (forall id accessible loc,
     AlLocationContext.insightLocationId (mergeContext arg st) = Some id ->
     truthy (Some id) = true ->
     AlLocationContext.accessible (mergeContext arg st) = Some accessible ->
     dict_get id AlInsightLocations = Some loc ->
     match InsightLocation.alternatives loc with
     | Some alternatives =>
         exists a,
           AlLocationContext.insightLocationId (context (setContext arg st)) = Some a
           /\ ((exists before after,
                  alternatives = before ++ a :: after /\ a ∈ accessible
                  /\ forall x, x ∈ before -> x ∉ accessible)
               \/ ((forall x, x ∈ alternatives -> x ∉ accessible)
                   /\ head alternatives = Some a))
     | None => AlLocationContext.insightLocationId (context (setContext arg st)) = Some id
     end
     /\ (exists loc',
           dict_get (tpl (AlLocationContext.insightLocationId (context (setContext arg st))))
             AlInsightLocations = Some loc'
           /\ AlLocationContext.residency (context (setContext arg st))
              = Some (InsightLocation.residency loc'))
     /\ AlLocationContext.environment (context (setContext arg st))
        = AlLocationContext.environment (mergeContext arg st)
     /\ AlLocationContext.accessible (context (setContext arg st)) = Some accessible)
  /\ (truthy (AlLocationContext.insightLocationId (mergeContext arg st)) = false
      \/ AlLocationContext.accessible (mergeContext arg st) = None
      \/ dict_get (tpl (AlLocationContext.insightLocationId (mergeContext arg st)))
           AlInsightLocations = None ->
      context (setContext arg st) = mergeContext arg st)
  /\ AlLocationContext.insightLocationId (context (setContext (Some virginiaFromAshburn) st))
     = Some "defender-us-ashburn"
  /\ AlLocationContext.residency (context (setContext (Some virginiaFromAshburn) st))
     = Some "US".
Proof.
  assert (Hctx : forall a, context (setContext a st) = normalizeContext (mergeContext a st)).
  { intros a. reflexivity. }
  split; [|split; [|split]].
  - intros id acc loc Hid Ht Hacc Hloc. rewrite Hctx.
    destruct (AlInsightLocations_alternatives id loc Hloc) as [Hres Halts].
    unfold normalizeContext. rewrite Hacc, Hid, Ht. ctx_simpl. rewrite Hloc, Hres.
    destruct (InsightLocation.alternatives loc) as [alts|] eqn:Ea.
    + destruct (Halts alts eq_refl) as [Hne Hin].
      assert (Hsel : exists a,
        match selectAlternative alts acc with Some s => Some s | None => head alts end = Some a
        /\ a ∈ alts
        /\ ((exists before after, alts = before ++ a :: after /\ a ∈ acc
               /\ forall x, x ∈ before -> x ∉ acc)
            \/ ((forall x, x ∈ alts -> x ∉ acc) /\ head alts = Some a))).
      { destruct (selectAlternative alts acc) as [a|] eqn:Es.
        - exists a. destruct (selectAlternative_Some _ _ _ Es) as (b & af & -> & Ha & Hb).
          split; [done|]. split; [apply elem_of_app; right; by left|].
          left. by exists b, af.
        - destruct alts as [|a rest]; [done|]. exists a. split; [done|].
          split; [by left|]. right. split; [|done]. by apply selectAlternative_None. }
      destruct Hsel as (a & -> & Hina & Hsel).
      destruct (Hin a Hina) as (loc' & Hloc' & Hr').
      split; [|split; [|split]].
      * exists a. split; [|exact Hsel]. by case_bool_decide.
      * exists loc'.
        case_bool_decide as Hr; ctx_simpl; cbn [AlLocationContext.residency] in Hr;
          rewrite Hloc'; split; congruence.
      * by case_bool_decide.
      * by case_bool_decide.
    + split; [|split; [|split]].
      * by case_bool_decide.
      * exists loc.
        case_bool_decide as Hr; ctx_simpl; rewrite Hid; ctx_simpl; rewrite Hloc;
          split; congruence.
      * by case_bool_decide.
      * by case_bool_decide.
  - intros H. rewrite Hctx. unfold normalizeContext.
    destruct (AlLocationContext.accessible (mergeContext arg st)); [|done].
    destruct H as [->|[H| ->]]; [done | done |].
    by destruct (truthy _).
  - rewrite Hctx. unfold normalizeContext. simpl.
    by case_bool_decide.
  - rewrite Hctx. unfold normalizeContext. simpl.
    case_bool_decide as Hr; [|done]. exact Hr.
Qed.

(** C5 witness: the example context set on a fresh locator. *)
Lemma setContext_normalizes_data_center_witness :
  exists a,
    AlLocationContext.insightLocationId
      (context (setContext (Some virginiaFromAshburn) (emptyMatrix [] None))) = Some a
    /\ ((exists before after,
           ["defender-us-denver"; "defender-us-ashburn"] = before ++ a :: after
           /\ a ∈ ["defender-us-ashburn"]
           /\ forall x, x ∈ before -> x ∉ ["defender-us-ashburn"])
        \/ ((forall x, x ∈ ["defender-us-denver"; "defender-us-ashburn"] ->
               x ∉ ["defender-us-ashburn"])
            /\ head ["defender-us-denver"; "defender-us-ashburn"] = Some a)).
Proof.
  destruct (setContext_normalizes_data_center (Some virginiaFromAshburn) (emptyMatrix [] None))
    as [H _].
  destruct (H "insight-us-virginia" ["defender-us-ashburn"]
              (InsightLocation.mk "US" "UNITED STATES"
                 (Some ["defender-us-denver"; "defender-us-ashburn"]) "us-east-1")
              eq_refl eq_refl eq_refl eq_refl) as [Ha _].
  exact Ha.
Defined.

(** ** C6: setContext *)

Lemma normalizeContext_environment c :
  AlLocationContext.environment (normalizeContext c) = AlLocationContext.environment c.
Proof.
  unfold normalizeContext.
  destruct (AlLocationContext.accessible c); [|done].
  destruct (truthy _); [|done]. destruct (dict_get _ _) as [loc|]; [|done].
  destruct (InsightLocation.alternatives loc); destruct (_ && _); done.
Qed.

Lemma normalizeContext_accessible c :
  AlLocationContext.accessible (normalizeContext c) = AlLocationContext.accessible c.
Proof.
  unfold normalizeContext.
  destruct (AlLocationContext.accessible c) eqn:E; [|done].
  destruct (truthy _); [|done]. destruct (dict_get _ _) as [loc|]; [|done].
  destruct (InsightLocation.alternatives loc); destruct (_ && _); done.
Qed.

Lemma findOne_Some f st r :
  findOne f st = Some r ->
  f r (deref st r) = true /\ exists k, (k, r) ∈ _nodeMap st.
Proof.
  unfold findOne, search.
  induction (_nodeMap st) as [|[k n] m IH]; [done|].
  cbn [omap list_omap]. simpl. destruct (f n (deref st n)) eqn:E.
  - intros [= <-]. split; [done|]. exists k. by left.
  - intros H. destruct (IH H) as [Hf [k' Hk']]. split; [done|]. exists k'. by right.
Qed.






(** ** C4: escapeLocationPattern *)

(** C4 at the failing input: only the first wildcard of an alias becomes a
    character class; the second one stays in the pattern as a quantifier of
    the escaped hyphen before it.  The compiled matcher rejects a URL that
    substitutes both wildcards and accepts URLs that substitute only the
    first.  A [+] in a URI is not escaped either and is read as a quantifier:
    the matcher compiled for such a URI rejects the URI itself. *)
Theorem escapeLocationPattern_replaces_first_wildcard_only :
  escapeLocationPattern "https://app-*-*.ui-dev.product.dev.alertlogic.com"
    = "^https:\/\/app\-[a-zA-Z0-9_]+\-*\.ui\-dev\.product\.dev\.alertlogic\.com.*$"
  /\ compiledTest "https://app-*-*.ui-dev.product.dev.alertlogic.com"
       "https://app-a-b.ui-dev.product.dev.alertlogic.com" = Some false
  /\ compiledTest "https://app-*-*.ui-dev.product.dev.alertlogic.com"
       "https://app-a.ui-dev.product.dev.alertlogic.com" = Some true
  /\ compiledTest "https://app-*-*.ui-dev.product.dev.alertlogic.com"
       "https://app-a--.ui-dev.product.dev.alertlogic.com" = Some true
  /\ compiledTest "https://app-*.ui-dev.product.dev.alertlogic.com"
       "https://app-a.ui-dev.product.dev.alertlogic.com" = Some true
  /\ escapeLocationPattern "https://x.example.com/a+b" = "^https:\/\/x\.example\.com\/a+b.*$"
  /\ compiledTest "https://x.example.com/a+b" "https://x.example.com/a+b" = Some false
  /\ compiledTest "https://x.example.com/a+b" "https://x.example.com/aab" = Some true.
Proof. vm_compute. repeat split. Qed.

(** ** C1: getNode *)

(** C1 at the failing input: with the Denver and Ashburn nodes both indexed
    and both data centers accessible, in that order, and no insight location
    id set, the key of Denver is the first key present in the order the claim
    gives, yet [getNode] returns the Ashburn node: the loop over [accessible]
    does not stop at its first hit, so the last accessible hit wins; with
    the list reversed it returns the Denver node. *)
Theorem getNode_takes_last_accessible_hit :
  dict_get "insight:api-production-US-defender-us-denver"
    (_nodeMap (loaded twoCenters None [0; 1])) = Some 0
  /\ dict_get "insight:api-production-US-defender-us-ashburn"
       (_nodeMap (loaded twoCenters None [0; 1])) = Some 1
  /\ returned (getNode "insight:api"
                 (Some (AlLocationContext.mk None None None
                          (Some ["defender-us-denver"; "defender-us-ashburn"])))
                 (loaded twoCenters None [0; 1])) = Some (Some 1)
  /\ returned (getNode "insight:api" None
                 (setContext
                    (Some (AlLocationContext.mk None None None
                             (Some ["defender-us-denver"; "defender-us-ashburn"])))
                    (loaded twoCenters None [0; 1]))) = Some (Some 1)
  /\ returned (getNode "insight:api"
                 (Some (AlLocationContext.mk None None None
                          (Some ["defender-us-ashburn"; "defender-us-denver"])))
                 (loaded twoCenters None [0; 1])) = Some (Some 0).
Proof. vm_compute. repeat split. Qed.

(** ** resolveNodeURI: what it leaves alone *)

Lemma sameButCaches_refl st : sameButCaches st st.
Proof. by repeat split. Qed.

Lemma sameButCaches_trans a b c :
  sameButCaches a b -> sameButCaches b c -> sameButCaches a c.
Proof.
  unfold sameButCaches. intros (?&?&?&?&?&?&Hab) (?&?&?&?&?&?&Hbc).
  repeat split; try congruence; intros r; by rewrite Hbc, Hab.
Qed.

Lemma memoize_sameButCaches T n st : sameButCaches st (memoize T n st).
Proof. unfold memoize. case_decide; by repeat split. Qed.

Lemma memoize_heap T n st : heap (memoize T n st) = heap st.
Proof. unfold memoize. by case_decide. Qed.

Lemma memoizedLookup_heap T ctx st : heap (memoizedLookup T ctx st).2 = heap st.
Proof.
  unfold memoizedLookup. destruct (nodes st !! T), ctx; simpl; try done;
    destruct (lookupNode st T _); simpl; try done; apply memoize_heap.
Qed.

Lemma memoizedLookup_sameButCaches T ctx st : sameButCaches st (memoizedLookup T ctx st).2.
Proof.
  unfold memoizedLookup. destruct (nodes st !! T), ctx; simpl;
    try apply sameButCaches_refl; destruct (lookupNode st T _); simpl;
    try apply sameButCaches_refl; apply memoize_sameButCaches.
Qed.

Lemma getNode_keeps T ctx : keeps sameButCaches (getNode T ctx).
Proof.
  apply keeps_getNode; [apply sameButCaches_refl|]. intros st.
  apply memoizedLookup_sameButCaches.
Qed.

Lemma deref_cacheFullURI n u st r :
  deref (cacheFullURI n u st) r
  = if decide (r = n /\ n < length (heap st))
    then AlLocationDescriptor.with_fullURI (Some u) (deref st n)
    else deref st r.
Proof.
  unfold deref, cacheFullURI. simpl. case_decide as H.
  - destruct H as [-> H]. by rewrite list_lookup_total_insert_eq.
  - destruct (decide (r = n)) as [->|Hne].
    + rewrite list_insert_ge; [done|]. lia.
    + by rewrite list_lookup_total_insert_ne.
Qed.

Lemma cacheFullURI_sameButCaches n u st : sameButCaches st (cacheFullURI n u st).
Proof.
  repeat split. intros r. rewrite deref_cacheFullURI.
  case_decide as H; [|done]. by destruct H as [-> _].
Qed.

Lemma resolveNodeURI_keeps fuel n ctx : keeps sameButCaches (resolveNodeURI fuel n ctx).
Proof.
  revert n. induction fuel as [|fuel IH]; intros n; [by intros st|].
  pose proof sameButCaches_refl as Hr. pose proof sameButCaches_trans as Ht.
  cbn [resolveNodeURI].
  apply keeps_bind; [done | by apply keeps_gets |]. intros d.
  destruct (truthy (AlLocationDescriptor._fullURI d)); [by apply keeps_ret|].
  apply keeps_bind; [done | |].
  - destruct (truthy (AlLocationDescriptor.parentId d)); [|by apply keeps_ret].
    apply keeps_bind; [done | |].
    + apply getNode_keeps.
    + intros [p|]; [apply IH | by apply keeps_ret].
  - intros uri. apply keeps_bind; [done | by apply keeps_gets |]. intros d'.
    apply keeps_bind; [done | | intros _; by apply keeps_ret].
    apply keeps_modify. intros st. apply cacheFullURI_sameButCaches.
Qed.

Lemma sameButCaches_fields st st' r :
  sameButCaches st st' ->
  AlLocationDescriptor.uri (deref st' r) = AlLocationDescriptor.uri (deref st r)
  /\ AlLocationDescriptor.parentId (deref st' r) = AlLocationDescriptor.parentId (deref st r).
Proof.
  intros (_&_&_&_&_&_&H). specialize (H r).
  split.
  - by apply (f_equal AlLocationDescriptor.uri) in H.
  - by apply (f_equal AlLocationDescriptor.parentId) in H.
Qed.

Lemma appendOwnUri_same d d' u :
  AlLocationDescriptor.uri d' = AlLocationDescriptor.uri d ->
  AlLocationDescriptor.parentId d' = AlLocationDescriptor.parentId d ->
  appendOwnUri d' u = appendOwnUri d u.
Proof. unfold appendOwnUri. by intros -> ->. Qed.

Lemma lacksHttp_prefix u : lacksHttp u = negb (String.prefix "http" u).
Proof.
  unfold lacksHttp. destruct u as [|c u]; [done|].
  cbn [String.index]. destruct (String.prefix "http" (String c u)); [done|].
  by destruct (String.index 0 "http" u).
Qed.

(** One step of [resolveNodeURI], written out. *)
Lemma resolveNodeURI_S fuel n ctx st :
  resolveNodeURI (S fuel) n ctx st
  = if truthy (AlLocationDescriptor._fullURI (deref st n))
    then Ok (tpl (AlLocationDescriptor._fullURI (deref st n))) st
    else
      match
        (if truthy (AlLocationDescriptor.parentId (deref st n))
         then
           match getNode (tpl (AlLocationDescriptor.parentId (deref st n))) ctx st with
           | Ok (Some p) st1 => resolveNodeURI fuel p ctx st1
           | Ok None st1 => Ok EmptyString st1
           | Thrown st1 => Thrown st1
           | OutOfFuel => OutOfFuel
           end
         else Ok EmptyString st)
      with
      | Ok uri st' =>
          Ok (appendOwnUri (deref st' n) uri)
             (cacheFullURI n (appendOwnUri (deref st' n) uri) st')
      | Thrown st' => Thrown st'
      | OutOfFuel => OutOfFuel
      end.
Proof.
  cbn [resolveNodeURI]. unfold bind at 1. unfold gets at 1.
  destruct (truthy (AlLocationDescriptor._fullURI (deref st n))); [done|].
  unfold bind at 1.
  destruct (truthy (AlLocationDescriptor.parentId (deref st n))); [|done].
  unfold bind at 1.
  destruct (getNode _ ctx st) as [[p|] st1|st1|]; [|done..].
  by destruct (resolveNodeURI fuel _ ctx _).
Qed.

(** ** C7: resolveNodeURI and a host name that starts with http *)

Lemma resolveNodeURI_cached fuel n ctx st :
  truthy (AlLocationDescriptor._fullURI (deref st n)) = true ->
  resolveNodeURI (S fuel) n ctx st = Ok (tpl (AlLocationDescriptor._fullURI (deref st n))) st.
Proof. intros H. by rewrite resolveNodeURI_S, H. Qed.

Lemma resolveNodeURI_parentless fuel n ctx st :
  truthy (AlLocationDescriptor._fullURI (deref st n)) = false ->
  truthy (AlLocationDescriptor.parentId (deref st n)) = false ->
  AlLocationDescriptor.uri (deref st n) <> EmptyString ->
  resolveNodeURI (S fuel) n ctx st
  = let u := if String.prefix "http" (AlLocationDescriptor.uri (deref st n))
             then AlLocationDescriptor.uri (deref st n)
             else "https://" +:+ AlLocationDescriptor.uri (deref st n) in
    Ok u (cacheFullURI n u st).
Proof.
  intros Hc Hp Hu. rewrite resolveNodeURI_S, Hc, Hp.
  unfold appendOwnUri. rewrite Hp.
  destruct (AlLocationDescriptor.uri (deref st n)) as [|c u] eqn:E; [done|].
  rewrite append_nil, lacksHttp_prefix. simpl negb at 1. rewrite andb_true_l.
  by destruct (String.prefix "http" (String c u)).
Qed.

Lemma resolveNodeURI_child fuel n ctx st p st1 up st2 :
  truthy (AlLocationDescriptor._fullURI (deref st n)) = false ->
  truthy (AlLocationDescriptor.parentId (deref st n)) = true ->
  AlLocationDescriptor.uri (deref st n) <> EmptyString ->
  getNode (tpl (AlLocationDescriptor.parentId (deref st n))) ctx st = Ok (Some p) st1 ->
  resolveNodeURI fuel p ctx st1 = Ok up st2 ->
  resolveNodeURI (S fuel) n ctx st
  = Ok (up +:+ AlLocationDescriptor.uri (deref st n))
       (cacheFullURI n (up +:+ AlLocationDescriptor.uri (deref st n)) st2).
Proof.
  intros Hc Hp Hu Hg Hr. rewrite resolveNodeURI_S, Hc, Hp, Hg, Hr.
  assert (Hs : sameButCaches st st2).
  { eapply sameButCaches_trans.
    - eapply keeps_Ok; [apply getNode_keeps | exact Hg].
    - eapply keeps_Ok; [apply resolveNodeURI_keeps | exact Hr]. }
  destruct (sameButCaches_fields _ _ n Hs) as [Eu Ep].
  rewrite (appendOwnUri_same (deref st n) (deref st2 n)) by done.
  unfold appendOwnUri. rewrite Hp.
  by destruct (AlLocationDescriptor.uri (deref st n)).
Qed.

(** More fuel does not change an answer. *)
Lemma resolveNodeURI_mono fuel fuel' n ctx st u st' :
  fuel <= fuel' ->
  resolveNodeURI fuel n ctx st = Ok u st' ->
  resolveNodeURI fuel' n ctx st = Ok u st'.
Proof.
  revert fuel' n st u st'. induction fuel as [|fuel IH]; intros fuel' n st u st' Hle H; [done|].
  destruct fuel' as [|fuel']; [lia|].
  rewrite resolveNodeURI_S in *.
  destruct (truthy (AlLocationDescriptor._fullURI (deref st n))); [done|].
  destruct (truthy (AlLocationDescriptor.parentId (deref st n))); [|done].
  destruct (getNode _ ctx st) as [[p|] st1|st1|]; [|done..].
  destruct (resolveNodeURI fuel p ctx _) as [up st2| |] eqn:E; [|done..].
  by rewrite (IH fuel' p _ up st2) by (done || lia).
Qed.

(** C7 at the failing input: the parentless node with [uri] "httpbin.org"
    has no protocol scheme and no cached URL, yet it resolves to
    "httpbin.org" as it stands, at every fuel, and never to
    "https://httpbin.org": the test that is to detect a domain without
    protocol looks for the leading characters [http], which this host name
    has.  The bare host name next to it gets its protocol. *)
Theorem resolveNodeURI_bare_host_starting_with_http :
  AlLocationDescriptor.uri (familyHeap !!! 3) = "httpbin.org"
  /\ truthy (AlLocationDescriptor.parentId (familyHeap !!! 3)) = false
  /\ truthy (AlLocationDescriptor._fullURI (familyHeap !!! 3)) = false
  /\ (forall fuel,
        resolveNodeURI (S fuel) 3 None (loaded familyHeap None [0; 1; 2; 3])
        = Ok "httpbin.org"
             (cacheFullURI 3 "httpbin.org" (loaded familyHeap None [0; 1; 2; 3])))
  /\ ~ (exists fuel,
          returned (resolveNodeURI fuel 3 None (loaded familyHeap None [0; 1; 2; 3]))
          = Some "https://httpbin.org")
  /\ (forall fuel,
        returned (resolveNodeURI (S fuel) 2 None (loaded familyHeap None [0; 1; 2; 3]))
        = Some "https://bare.example.com").
Proof.
  split; [done|]. split; [done|]. split; [done|]. split; [|split].
  - intros fuel. by rewrite resolveNodeURI_parentless.
  - intros [[|fuel] H]; [discriminate|].
    by rewrite resolveNodeURI_parentless in H.
  - intros fuel. by rewrite resolveNodeURI_parentless.
Qed.

(** ** resolveNodeURI: how a URL is composed *)

(** A node whose [_fullURI] is set resolves to it and nothing is written.
    A parentless node with a non-empty [uri] and no cached value resolves to
    its [uri], with [https://] put before it exactly when the [uri] does not
    begin with the four characters [http].  A child with a non-empty [uri]
    whose parent [getNode] finds by [parentId] resolves to what the parent
    resolves to, followed by the child's own [uri].  In both cases the
    result is stored in the node's [_fullURI].  A child of a parent with
    [uri] "https://p.example.com" and with [uri] "/child" resolves to
    "https://p.example.com/child". *)
Theorem resolveNodeURI_composes
    (fuel : nat) (n : ref) (ctx : option AlLocationContext.t) (st : AlLocatorMatrix) :
  (truthy (AlLocationDescriptor._fullURI (deref st n)) = true ->
   resolveNodeURI (S fuel) n ctx st = Ok (tpl (AlLocationDescriptor._fullURI (deref st n))) st)
  /\ (truthy (AlLocationDescriptor._fullURI (deref st n)) = false ->
      truthy (AlLocationDescriptor.parentId (deref st n)) = false ->
      AlLocationDescriptor.uri (deref st n) <> EmptyString ->
      resolveNodeURI (S fuel) n ctx st
      = let u := if String.prefix "http" (AlLocationDescriptor.uri (deref st n))
                 then AlLocationDescriptor.uri (deref st n)
                 else "https://" +:+ AlLocationDescriptor.uri (deref st n) in
        Ok u (cacheFullURI n u st))
  /\ (forall p st1 up st2,
        truthy (AlLocationDescriptor._fullURI (deref st n)) = false ->
        truthy (AlLocationDescriptor.parentId (deref st n)) = true ->
        AlLocationDescriptor.uri (deref st n) <> EmptyString ->
        getNode (tpl (AlLocationDescriptor.parentId (deref st n))) ctx st = Ok (Some p) st1 ->
        resolveNodeURI fuel p ctx st1 = Ok up st2 ->
        resolveNodeURI (S fuel) n ctx st
        = Ok (up +:+ AlLocationDescriptor.uri (deref st n))
             (cacheFullURI n (up +:+ AlLocationDescriptor.uri (deref st n)) st2))
  /\ (forall u st', n < length (heap st') ->
        AlLocationDescriptor._fullURI (deref (cacheFullURI n u st') n) = Some u)
  /\ returned (resolveNodeURI (2 + fuel) 1 None (loaded familyHeap None [0; 1; 2; 3]))
     = Some "https://p.example.com/child".
Proof.
  split; [apply resolveNodeURI_cached|].
  split; [apply resolveNodeURI_parentless|].
  split; [intros p st1 up st2; apply resolveNodeURI_child|].
  split.
  { intros u st' Hn. rewrite deref_cacheFullURI. by rewrite decide_True. }
  set (s := loaded familyHeap None [0; 1; 2; 3]).
  rewrite (resolveNodeURI_mono 2 (2 + fuel) 1 None s "https://p.example.com/child"
             (stateAfter (resolveNodeURI 2 1 None s) s)); [done | lia |].
  vm_compute. reflexivity.
Qed.

(** Witness: the parent of [familyHeap]. *)
Lemma resolveNodeURI_composes_witness :
  resolveNodeURI 1 0 None (loaded familyHeap None [0; 1; 2; 3])
  = Ok "https://p.example.com"
       (cacheFullURI 0 "https://p.example.com" (loaded familyHeap None [0; 1; 2; 3])).
Proof.
  destruct (resolveNodeURI_composes 0 0 None (loaded familyHeap None [0; 1; 2; 3]))
    as (_ & H & _).
  apply H; [reflexivity | reflexivity | discriminate].
Defined.

(** ** Patterns of plain URIs *)

Lemma not_special_chars c :
  isSpecial c = false ->
  Ascii.eqb c "^" = false /\ Ascii.eqb c "$" = false /\ Ascii.eqb c "\" = false
  /\ Ascii.eqb c "[" = false /\ Ascii.eqb c "." = false.
Proof.
  unfold isSpecial, ascii_in. simpl. intros H.
  repeat (apply orb_false_elim in H as [? H]). by repeat split.
Qed.

Lemma not_quantifier_chars c :
  isQuantifier c = false ->
  Ascii.eqb c "*" = false /\ Ascii.eqb c "+" = false /\ Ascii.eqb c "?" = false.
Proof.
  unfold isQuantifier, ascii_in. simpl. intros H.
  repeat (apply orb_false_elim in H as [? H]). by repeat split.
Qed.

Lemma quantOf_plain c : isQuantifier c = false -> quantOf c = None.
Proof. intros (H1 & H2 & H3)%not_quantifier_chars. unfold quantOf. by rewrite H1, H2, H3. Qed.

Lemma special_not_quantifier c : isSpecial c = true -> isQuantifier c = false.
Proof.
  unfold isSpecial, isQuantifier, ascii_in. simpl. intros H.
  repeat (apply orb_true_elim in H as [H|H];
          [apply Ascii.eqb_eq in H; by subst|]).
  done.
Qed.

Lemma startChar_plain k c :
  isSpecial c = false -> isQuantifier c = false -> startChar k c = k (After (Lit c)).
Proof.
  intros Hs Hq. destruct (not_special_chars c Hs) as (H1 & H2 & H3 & H4 & H5).
  unfold startChar. by rewrite H1, H2, H3, H4, H5, Hq, Hs.
Qed.

Lemma scan_After_plain a s :
  startsPlain s = true -> scan (After a) s = emit (Rep a Once) (scan Start s).
Proof.
  destruct s as [|c r]; [done|]. simpl. intros H%negb_true_iff.
  by rewrite quantOf_plain.
Qed.

Lemma replaceFirstStar_plain s : isPlain s = true -> replaceFirstStar s = s.
Proof.
  induction s as [|c r IH]; [done|]. simpl. intros [Hc Hr]%andb_true_iff.
  apply negb_true_iff, not_quantifier_chars in Hc as (-> & _). by rewrite IH.
Qed.

Lemma escapeAll_plain s : isPlain s = true -> isPlain (escapeAll s) = true.
Proof.
  induction s as [|c r IH]; [done|]. simpl. intros [Hc Hr]%andb_true_iff.
  destruct (isSpecial c); simpl; rewrite ?Hc, IH; done.
Qed.

Lemma escapeAll_startsPlain s rest :
  isPlain s = true -> startsPlain rest = true -> startsPlain (escapeAll s +:+ rest) = true.
Proof.
  destruct s as [|c r]; [done|]. simpl. intros [Hc _]%andb_true_iff _.
  destruct (isSpecial c); [done|]. by rewrite append_cons.
Qed.

Lemma scan_escapeAll s rest R :
  isPlain s = true -> startsPlain rest = true -> scan Start rest = Some R ->
  scan Start (escapeAll s +:+ rest) = Some (literals s ++ R).
Proof.
  intros Hs Hrest HR. induction s as [|c r IH]; [done|].
  simpl in Hs. apply andb_true_iff in Hs as [Hc Hr]. apply negb_true_iff in Hc.
  specialize (IH Hr). cbn [escapeAll literals].
  destruct (isSpecial c) eqn:Hsp.
  - rewrite !append_cons. cbn [scan]. unfold startChar. simpl Ascii.eqb.
    cbn [scan]. rewrite Hsp.
    rewrite scan_After_plain by by apply escapeAll_startsPlain.
    by rewrite IH.
  - rewrite append_cons. cbn [scan]. rewrite startChar_plain by done.
    rewrite scan_After_plain by by apply escapeAll_startsPlain.
    by rewrite IH.
Qed.

(** The pattern of a plain URI compiles to its literals and an open end. *)
Lemma newRegExp_plain uri :
  isPlain uri = true ->
  newRegExp (escapeLocationPattern uri)
  = Some (Bol :: literals uri ++ [Rep AnyChar ZeroOrMore; Eol]).
Proof.
  intros H. unfold newRegExp, escapeLocationPattern.
  rewrite replaceFirstStar_plain.
  2:{ rewrite append_cons, append_nil. simpl. by apply escapeAll_plain. }
  rewrite append_cons, append_nil, append_cons. cbn [scan]. unfold startChar. simpl Ascii.eqb.
  cbv iota. by rewrite (scan_escapeAll uri ".*$" [Rep AnyChar ZeroOrMore; Eol]).
Qed.

Lemma matchStar_open_end b s :
  noLineTerminator s = true -> matchStar AnyChar (matchTerms [Eol]) b s = true.
Proof.
  revert b. induction s as [|c r IH]; intros b; [done|].
  simpl. intros [Hc Hr]%andb_true_iff. by rewrite Hc, IH.
Qed.

Lemma matchTerms_literals uri s b :
  noLineTerminator s = true ->
  matchTerms (literals uri ++ [Rep AnyChar ZeroOrMore; Eol]) b (uri +:+ s) = true.
Proof.
  intros Hs. revert b. induction uri as [|c r IH]; intros b.
  - rewrite append_nil. simpl literals. simpl app. cbn [matchTerms].
    by apply matchStar_open_end.
  - rewrite append_cons. cbn [literals app matchTerms accepts].
    by rewrite Ascii.eqb_refl, IH.
Qed.

(** The matcher compiled for a plain URI accepts the URI followed by
    anything that holds no line terminator. *)
Lemma compiledTest_plain uri s :
  isPlain uri = true -> noLineTerminator s = true ->
  compiledTest uri (uri +:+ s) = Some true.
Proof.
  intros Hu Hs. unfold compiledTest. rewrite newRegExp_plain by done.
  simpl. f_equal. unfold test. destruct (uri +:+ s) eqn:E; cbn [searchFrom matchTerms];
    rewrite <- E, matchTerms_literals by done; done.
Qed.

(** ** getBaseUrl *)

Lemma prefix_char c x s :
  String.prefix (String c EmptyString) (String x s) = bool_decide (c = x).
Proof.
  simpl. destruct (ascii_dec c x) as [->|Hne].
  - rewrite bool_decide_eq_true_2 by done. by destruct s.
  - by rewrite bool_decide_eq_false_2.
Qed.

Lemma chopAt_head c s : chopAt (String c EmptyString) (String c s) = EmptyString.
Proof.
  unfold chopAt. cbn [String.index]. rewrite prefix_char.
  by rewrite bool_decide_eq_true_2.
Qed.

Lemma chopAt_cons_ne c x s :
  x <> c -> chopAt (String c EmptyString) (String x s) = String x (chopAt (String c EmptyString) s).
Proof.
  intros Hne. unfold chopAt. cbn [String.index]. rewrite prefix_char.
  rewrite bool_decide_eq_false_2 by congruence.
  by destruct (String.index 0 (String c EmptyString) s).
Qed.

Lemma chopAt_empty c : chopAt (String c EmptyString) EmptyString = EmptyString.
Proof. done. Qed.

Lemma chopAt_app c a b :
  ascii_in c a = false ->
  chopAt (String c EmptyString) (a +:+ b) = a +:+ chopAt (String c EmptyString) b.
Proof.
  induction a as [|x a IH]; [done|].
  unfold ascii_in. simpl. intros [Hx Ha]%orb_false_elim.
  rewrite !append_cons, chopAt_cons_ne, IH; [done | exact Ha |].
  intros ->. by rewrite Ascii.eqb_refl in Hx.
Qed.

Lemma chopAt_absent c a : ascii_in c a = false -> chopAt (String c EmptyString) a = a.
Proof.
  intros H. rewrite <- (append_empty_r a) at 1.
  by rewrite chopAt_app, chopAt_empty, append_empty_r.
Qed.

Lemma get_append_end s c : String.get (String.length s) (s +:+ String c EmptyString) = Some c.
Proof. induction s as [|x s IH]; [done|]. rewrite append_cons. simpl. exact IH. Qed.

Lemma substring_append s t : String.substring 0 (String.length s) (s +:+ t) = s.
Proof.
  induction s as [|x s IH]; [by destruct t|]. rewrite append_cons. simpl. by rewrite IH.
Qed.

Lemma dropTrailingSlash_slash s : dropTrailingSlash (s +:+ "/") = s.
Proof.
  unfold dropTrailingSlash. rewrite append_length. simpl.
  replace (String.length s + 1 - 1) with (String.length s) by lia.
  replace (0 <? String.length s + 1) with true by (symmetry; apply Nat.ltb_lt; lia).
  rewrite get_append_end, bool_decide_eq_true_2 by done. simpl.
  apply substring_append.
Qed.

(** What [getBaseUrl] strips: everything from the first [?] or [#] on, and
    then one trailing slash. *)
Lemma getBaseUrl_strips base rest :
  ascii_in "#" base = false -> ascii_in "?" base = false ->
  rest = EmptyString \/ (exists q, rest = "?" +:+ q) \/ (exists f, rest = "#" +:+ f) ->
  getBaseUrl (base +:+ rest) = dropTrailingSlash base.
Proof.
  intros Hh Hq Hrest. unfold getBaseUrl. rewrite (chopAt_app "#") by done.
  destruct Hrest as [->|[[q ->]|[f ->]]].
  - by rewrite chopAt_empty, append_empty_r, chopAt_absent.
  - rewrite append_cons, append_nil, chopAt_cons_ne by done.
    rewrite (chopAt_app "?") by done. by rewrite chopAt_head, append_empty_r.
  - rewrite append_cons, append_nil, chopAt_head, append_empty_r.
    by rewrite chopAt_absent.
Qed.

(** ** C3: getNodeByURI *)

Lemma firstMatch_skips target (earlier later : Dict Mapping) k mapping :
  (forall kv, kv ∈ earlier -> test (matcher kv.2) target = false) ->
  test (matcher mapping) target = true ->
  firstMatch target (earlier ++ (k, mapping) :: later) = Some mapping.
Proof.
  intros He Hm. induction earlier as [|[k' m'] earlier IH]; simpl.
  - by rewrite Hm.
  - pose proof (He (k', m') ltac:(by left)) as H0. simpl in H0. rewrite H0.
    apply IH. intros kv Hkv. apply He. by right.
Qed.

Lemma test_compiled source url re :
  newRegExp (escapeLocationPattern source) = Some re ->
  compiledTest source url = Some (test re url).
Proof. intros H. unfold compiledTest. by rewrite H. Qed.

(** C3, as the code has it.  Let the pattern of a URI [U] that holds none of
    the characters [*], [+] and [?] be registered to descriptor [N], and let
    no entry registered before it match.  Then [getNodeByURI] returns [N] for
    [U] followed by any suffix without line terminators.  When the base URL
    of the argument is the stored [uri] of [N] nothing is written; otherwise
    [uri] and [_fullURI] of [N] both become that base URL and nothing else
    changes.  The base URL of an argument is what stands before its first
    [?] or [#], less one trailing slash. *)
Theorem getNodeByURI_finds_and_corrects
    (st : AlLocatorMatrix) (N : ref) (U s : string) (re : RegExp)
    (earlier later : Dict Mapping) :
  uriMap st = earlier ++ (escapeLocationPattern U, mkMapping re N) :: later ->
  newRegExp (escapeLocationPattern U) = Some re ->
  isPlain U = true ->
  noLineTerminator s = true ->
  (forall kv, kv ∈ earlier -> test (matcher kv.2) (U +:+ s) = false) ->
  N < length (heap st) ->
  (getNodeByURI (U +:+ s) st).1 = Some N
  /\ (getBaseUrl (U +:+ s) = AlLocationDescriptor.uri (deref st N) ->
      (getNodeByURI (U +:+ s) st).2 = st)
  /\ (getBaseUrl (U +:+ s) <> AlLocationDescriptor.uri (deref st N) ->
      (getNodeByURI (U +:+ s) st).2
      = set_heap (<[N := AlLocationDescriptor.with_uri (getBaseUrl (U +:+ s))
                            (Some (getBaseUrl (U +:+ s))) (deref st N)]> (heap st)) st
      /\ deref (getNodeByURI (U +:+ s) st).2 N
         = AlLocationDescriptor.with_uri (getBaseUrl (U +:+ s)) (Some (getBaseUrl (U +:+ s)))
             (deref st N)
      /\ (forall r, r <> N -> deref (getNodeByURI (U +:+ s) st).2 r = deref st r))
  /\ (forall base rest,
        ascii_in "#" base = false -> ascii_in "?" base = false ->
        rest = EmptyString \/ (exists q, rest = "?" +:+ q) \/ (exists f, rest = "#" +:+ f) ->
        getBaseUrl (base +:+ rest) = dropTrailingSlash base)
  /\ (forall base, dropTrailingSlash (base +:+ "/") = base)
  /\ (getNodeByURI "https://x.example.com/some/path?query=1#frag"
        (loaded exampleHeap None [0])).1 = Some 0
  /\ deref (getNodeByURI "https://x.example.com/some/path?query=1#frag"
              (loaded exampleHeap None [0])).2 0
     = AlLocationDescriptor.with_uri "https://x.example.com/some/path"
         (Some "https://x.example.com/some/path") (exampleHeap !!! 0).
Proof.
  intros Hmap Hre Hplain Hs Hearlier HN.
  assert (Hfm : firstMatch (U +:+ s) (uriMap st) = Some (mkMapping re N)).
  { rewrite Hmap. apply firstMatch_skips; [done|]. simpl.
    pose proof (compiledTest_plain U s Hplain Hs) as Hc.
    rewrite (test_compiled _ _ _ Hre) in Hc. by injection Hc. }
  unfold getNodeByURI. rewrite Hfm. simpl location.
  split; [by case_decide|]. split; [|split; [|split; [|split; [|split]]]].
  - intros E. by rewrite decide_True.
  - intros E. rewrite decide_False by done. simpl. split; [done|]. split.
    + unfold deref. simpl. by rewrite list_lookup_total_insert_eq.
    + intros r Hr. unfold deref. simpl. by rewrite list_lookup_total_insert_ne.
  - apply getBaseUrl_strips.
  - apply dropTrailingSlash_slash.
  - vm_compute. reflexivity.
  - vm_compute. reflexivity.
Qed.

(** C3 witness: the node of the round-trip example and the suffix of the claim. *)
Lemma getNodeByURI_finds_and_corrects_witness :
  (getNodeByURI ("https://x.example.com" +:+ "/some/path?query=1#frag")
     (loaded exampleHeap None [0])).1 = Some 0.
Proof.
  refine (proj1 (getNodeByURI_finds_and_corrects (loaded exampleHeap None [0]) 0
            "https://x.example.com" "/some/path?query=1#frag"
            (Bol :: literals "https://x.example.com" ++ [Rep AnyChar ZeroOrMore; Eol])
            [] [] _ _ _ _ _ _)).
  - vm_compute. reflexivity.
  - vm_compute. reflexivity.
  - reflexivity.
  - reflexivity.
  - intros kv Hkv. by apply elem_of_nil in Hkv.
  - vm_compute. lia.
Defined.

(** C3 fails as stated, in two ways.  Of two descriptors loaded with one
    and the same URI, the pattern is one dictionary key, which the later
    descriptor takes over: the earlier one is no longer returned, although no
    pattern registered before its own matches.  And a descriptor whose URI
    holds a wildcard is not found by that URI followed by the suffix, the
    wildcard standing for word characters only. *)
Lemma getNodeByURI_misses_loaded_descriptor :
  (uriMap (loaded sharedUriHeap None [0; 1])).*1 = ["^https:\/\/x\.example\.com.*$"]
  /\ AlLocationDescriptor.uri (deref (loaded sharedUriHeap None [0; 1]) 0)
     = "https://x.example.com"
  /\ (getNodeByURI "https://x.example.com/some/path?query=1#frag"
        (loaded sharedUriHeap None [0; 1])).1 = Some 1
  /\ (uriMap (loaded wildcardHeap None [0])).*1
     = ["^https:\/\/[a-zA-Z0-9_]+\.example\.com.*$"]
  /\ (getNodeByURI "https://*.example.com/some/path?query=1#frag"
        (loaded wildcardHeap None [0])).1 = None.
Proof. vm_compute. repeat split. Qed.

(** ** C2: resolveURL *)






Lemma cacheFullURI_methodSafe n u st : methodSafe st -> methodSafe (cacheFullURI n u st).
Proof. by intros [Hs Hl]. Qed.

Lemma getNode_methodSafe T ctx st :
  methodSafe st ->
  getNode T ctx st = Ok (memoizedLookup T ctx st).1 (memoizedLookup T ctx st).2.
Proof. intros [Hs _]. by apply getNode_run. Qed.

(** One step of [resolveNodeURI] with the method in place. *)
Lemma resolveNodeURI_run fuel n ctx st :
  memoShadowed st = false ->
  resolveNodeURI (S fuel) n ctx st
  = if truthy (AlLocationDescriptor._fullURI (deref st n))
    then Ok (tpl (AlLocationDescriptor._fullURI (deref st n))) st
    else
      match
        (if truthy (AlLocationDescriptor.parentId (deref st n))
         then
           match (memoizedLookup (tpl (AlLocationDescriptor.parentId (deref st n))) ctx st).1 with
           | Some p =>
               resolveNodeURI fuel p ctx
                 (memoizedLookup (tpl (AlLocationDescriptor.parentId (deref st n))) ctx st).2
           | None =>
               Ok EmptyString
                  (memoizedLookup (tpl (AlLocationDescriptor.parentId (deref st n))) ctx st).2
           end
         else Ok EmptyString st)
      with
      | Ok uri st' =>
          Ok (appendOwnUri (deref st' n) uri)
             (cacheFullURI n (appendOwnUri (deref st' n) uri) st')
      | Thrown st' => Thrown st'
      | OutOfFuel => OutOfFuel
      end.
Proof.
  intros Hs. rewrite resolveNodeURI_S, getNode_run by done.
  destruct (truthy (AlLocationDescriptor._fullURI (deref st n))); [done|].
  destruct (truthy (AlLocationDescriptor.parentId (deref st n))); [|done].
  by destruct (memoizedLookup _ ctx st).1.
Qed.


Lemma resolveURL_unfold fuel T path ctx st :
  resolveURL fuel T path ctx st
  = match getNode T ctx st with
    | Ok (Some n) st1 =>
        match resolveNodeURI fuel n None st1 with
        | Ok url st' => Ok (withPath url path) st'
        | Thrown st' => Thrown st'
        | OutOfFuel => OutOfFuel
        end
    | Ok None st1 => Ok (withPath (currentLocation st1) path) st1
    | Thrown st1 => Thrown st1
    | OutOfFuel => OutOfFuel
    end.
Proof.
  unfold resolveURL, bind, gets, ret, withPath.
  by destruct (getNode T ctx st) as [[n|] st1|st1|].
Qed.

Lemma resolveURL_throws fuel T path ctx st :
  memoShadowed st = true -> resolveURL fuel T path ctx st = Thrown st.
Proof. intros H. by rewrite resolveURL_unfold, getNode_throws. Qed.

(** [resolveURL] with the method in place. *)
Lemma resolveURL_run fuel T path ctx st :
  memoShadowed st = false ->
  resolveURL fuel T path ctx st
  = match (memoizedLookup T ctx st).1 with
    | Some n =>
        match resolveNodeURI fuel n None (memoizedLookup T ctx st).2 with
        | Ok url st' => Ok (withPath url path) st'
        | Thrown st' => Thrown st'
        | OutOfFuel => OutOfFuel
        end
    | None =>
        Ok (withPath (currentLocation (memoizedLookup T ctx st).2) path)
           (memoizedLookup T ctx st).2
    end.
Proof.
  intros Hs. rewrite resolveURL_unfold, getNode_run by done.
  by destruct (memoizedLookup T ctx st).1.
Qed.

Lemma memoizedLookup_miss_keeps st T ctx :
  (memoizedLookup T ctx st).1 = None -> (memoizedLookup T ctx st).2 = st.
Proof.
  unfold memoizedLookup.
  destruct (nodes st !! T), ctx; cbn [fst snd]; try done;
    destruct (lookupNode st T _); cbn [fst snd]; done.
Qed.






(** ** getNode: the order of the keys *)

Lemma firstOf_Some {A} (x : A) l : firstOf (Some x :: l) = Some x.
Proof. done. Qed.

Lemma firstOf_None {A} (l : list (option A)) : firstOf (None :: l) = firstOf l.
Proof. done. Qed.

Lemma firstOf_one {A} (o : option A) : firstOf [o] = o.
Proof. by destruct o. Qed.

Lemma firstOf_then_None {A} (o : option A) : firstOf [o; None] = o.
Proof. by destruct o. Qed.

Lemma firstOf_nest {A} (o : option A) l : firstOf (firstOf (o :: l) :: l) = firstOf (o :: l).
Proof.
  destruct o as [x|]; [done|]. rewrite firstOf_None.
  destruct (firstOf l) eqn:E; [done|]. by rewrite firstOf_None.
Qed.

Lemma pick_get m k r : pick m k r = firstOf [dict_get k m; r].
Proof.
  unfold pick. destruct (dict_get k m) as [n|] eqn:E.
  - by rewrite (hasOwnProperty_Some _ _ _ E).
  - by rewrite (hasOwnProperty_None _ _ E), firstOf_None, firstOf_one.
Qed.

Lemma pick_first m k : pick m k None = dict_get k m.
Proof.
  unfold pick. destruct (dict_get k m) as [n|] eqn:E.
  - by rewrite (hasOwnProperty_Some _ _ _ E).
  - by rewrite (hasOwnProperty_None _ _ E).
Qed.

(** The loop over [accessible] ends with its last hit, or with what it
    started from. *)
Lemma accessible_loop_last (m : Dict ref) (key : string -> string) (i : option string)
    (accessible : list string) (node : option ref) :
  fold_left
    (fun node a => if decide (Some a = i) then node else pick m (key a) node)
    accessible node
  = firstOf [last (omap (fun a => if decide (Some a = i) then None else dict_get (key a) m)
                        accessible); node].
Proof.
  revert node. induction accessible as [|a l IH] using rev_ind; intros node.
  - by destruct node.
  - rewrite fold_left_app, omap_app. simpl. rewrite IH.
    destruct (decide (Some a = i)).
    + by rewrite app_nil_r.
    + rewrite pick_get. destruct (dict_get (key a) m) as [x|].
      * by rewrite last_snoc, !firstOf_Some.
      * by rewrite app_nil_r, firstOf_None, firstOf_one.
Qed.

(** [lookupNode] tries, in this order: the key of the insight location in
    effect, the accessible data centers (where the last hit counts), the
    residency key, the environment key and the type key. *)
Lemma lookupNode_order st T ctx :
  lookupNode st T ctx
  = let e := effective AlLocationContext.environment ctx st in
    let r := effective AlLocationContext.residency ctx st in
    let i := effective AlLocationContext.insightLocationId ctx st in
    firstOf
      [ (if truthy i then dict_get (key4 T (tpl e) (tpl r) (tpl i)) (_nodeMap st) else None);
        last (accessibleHits st T ctx);
        (if truthy e && truthy r then dict_get (key3 T (tpl e) (tpl r)) (_nodeMap st) else None);
        (if truthy e then dict_get (key3 T (tpl e) "*") (_nodeMap st) else None);
        dict_get (key3 T "*" "*") (_nodeMap st) ].
Proof.
  unfold lookupNode, accessibleHits, effective, effectiveAccessible. cbv zeta.
  set (e := orElse _ (AlLocationContext.environment (context st))).
  set (r := orElse _ (AlLocationContext.residency (context st))).
  set (i := orElse _ (AlLocationContext.insightLocationId (context st))).
  set (acc := match ctx ≫= AlLocationContext.accessible with
              | Some a => Some a
              | None => AlLocationContext.accessible (context st)
              end).
  set (m := _nodeMap st).
  set (hits := omap _ (default [] acc)).
  replace (if truthy i then pick m (key4 T (tpl e) (tpl r) (tpl i)) None else None)
    with (if truthy i then dict_get (key4 T (tpl e) (tpl r) (tpl i)) m else None)
    by (destruct (truthy i); [by rewrite pick_first | done]).
  destruct (if truthy i then dict_get (key4 T (tpl e) (tpl r) (tpl i)) m else None)
    as [x|]; [done|].
  rewrite firstOf_None.
  replace (match acc with
           | Some accessible =>
               fold_left
                 (fun node a =>
                    if decide (Some a = i) then node
                    else pick m (key4 T (tpl e) (tpl r) a) node)
                 accessible None
           | None => None
           end) with (last hits)
    by (unfold hits; destruct acc as [l|];
        [by rewrite accessible_loop_last, firstOf_then_None | done]).
  destruct (last hits) as [x|]; [done|]. rewrite firstOf_None.
  destruct (truthy e && truthy r); destruct (truthy e); rewrite ?pick_first;
    repeat match goal with
           | |- context [dict_get ?k m] => destruct (dict_get k m); rewrite ?pick_first
           end;
    done.
Qed.

Lemma last_head_short {A} (l : list A) : length l <= 1 -> last l = head l.
Proof. destruct l as [|x [|y l]]; simpl; [done | done | lia]. Qed.

Lemma memoizedLookup_lookup T ctx st :
  ctx <> None \/ nodes st !! T = None -> (memoizedLookup T ctx st).1 = lookupNode st T ctx.
Proof.
  intros H. unfold memoizedLookup. destruct ctx as [c|].
  - destruct (nodes st !! T); by destruct (lookupNode st T (Some c)).
  - destruct H as [H|H]; [done|]. rewrite H. by destruct (lookupNode st T None).
Qed.

(** The order in which [getNode] tries the keys, when at most one accessible
    data center other than the insight location in effect has a node: the
    key of the insight location in effect, the key of that accessible data
    center, the residency key, the environment key, the type key; the first
    one present gives the result, and there is none when no key is present.
    This is the lookup of a call with an explicit context, and of a call
    without one when the memo holds nothing for the type, on a locator whose
    memo holds no entry under [hasOwnProperty]; [getNode] then returns. *)
Theorem getNode_key_order (st : AlLocatorMatrix) (T : string) (ctx : option AlLocationContext.t) :
  memoShadowed st = false ->
  length (accessibleHits st T ctx) <= 1 ->
  ctx <> None \/ nodes st !! T = None ->
  returned (getNode T ctx st)
  = Some
      (let e := effective AlLocationContext.environment ctx st in
       let r := effective AlLocationContext.residency ctx st in
       let i := effective AlLocationContext.insightLocationId ctx st in
       firstOf
         [ (if truthy i then dict_get (key4 T (tpl e) (tpl r) (tpl i)) (_nodeMap st) else None);
           head (accessibleHits st T ctx);
           (if truthy e && truthy r
            then dict_get (key3 T (tpl e) (tpl r)) (_nodeMap st) else None);
           (if truthy e then dict_get (key3 T (tpl e) "*") (_nodeMap st) else None);
           dict_get (key3 T "*" "*") (_nodeMap st) ]).
Proof.
  intros Hs Hlen Hctx. rewrite getNode_run by done. cbn [returned]. f_equal.
  rewrite memoizedLookup_lookup, lookupNode_order by done.
  cbv zeta. by rewrite last_head_short.
Qed.

(** Witness: the lookup for production in EMEA among the three fallback nodes. *)
Lemma getNode_key_order_witness :
  returned (getNode "cd17:accounts"
              (Some (AlLocationContext.mk (Some "production") (Some "EMEA") None None))
              (loaded fallbackHeap None [0; 1; 2])) = Some (Some 1).
Proof.
  rewrite (getNode_key_order (loaded fallbackHeap None [0; 1; 2]) "cd17:accounts"
             (Some (AlLocationContext.mk (Some "production") (Some "EMEA") None None)));
    [vm_compute; reflexivity | reflexivity | vm_compute; lia | by left].
Defined.

(** With nodes of one type under the residency key, the environment key and
    the type key, a lookup for that environment and another residency, for
    which the index holds no key, returns the node under the environment
    key, not the one under the type key, and writes nothing; this on a
    locator whose memo holds no entry under [hasOwnProperty]. *)
Theorem getNode_prefers_environment_key
    (st : AlLocatorMatrix) (T env otherRes : string) (nEnv : ref) :
  memoShadowed st = false ->
  truthy (Some env) = true ->
  truthy (Some otherRes) = true ->
  dict_get (key3 T env "*") (_nodeMap st) = Some nEnv ->
  dict_get (key3 T env otherRes) (_nodeMap st) = None ->
  (forall d, dict_get (key4 T env otherRes d) (_nodeMap st) = None) ->
  getNode T (Some (AlLocationContext.mk (Some env) (Some otherRes) None None)) st
  = Ok (Some nEnv) st.
Proof.
  intros Hs He Hr Henv Hres Hdc.
  destruct env as [|c env]; [done|]. destruct otherRes as [|c' res]; [done|].
  set (ctx := Some (AlLocationContext.mk (Some (String c env)) (Some (String c' res)) None None)).
  assert (Hl : lookupNode st T ctx = Some nEnv).
  { rewrite lookupNode_order. cbv zeta.
    change (effective AlLocationContext.environment ctx st) with (Some (String c env)).
    change (effective AlLocationContext.residency ctx st) with (Some (String c' res)).
    assert (Hhits : accessibleHits st T ctx = []).
    { unfold accessibleHits.
      change (effective AlLocationContext.environment ctx st) with (Some (String c env)).
      change (effective AlLocationContext.residency ctx st) with (Some (String c' res)).
      cbn [tpl from_option id].
      induction (default [] (effectiveAccessible ctx st)) as [|a l IH]; [done|].
      cbn [omap list_omap]. rewrite Hdc, IH. by destruct (decide _). }
    rewrite Hhits. cbn [tpl from_option id truthy andb last].
    rewrite Hdc, Hres, Henv.
    by destruct (truthy (effective AlLocationContext.insightLocationId ctx st)). }
  rewrite getNode_run by done. unfold memoizedLookup. rewrite Hl.
  by destruct (nodes st !! T).
Qed.

(** Witness: production in EMEA among the three fallback nodes. *)
Lemma getNode_prefers_environment_key_witness :
  getNode "cd17:accounts"
    (Some (AlLocationContext.mk (Some "production") (Some "EMEA") None None))
    (loaded fallbackHeap None [0; 1; 2])
  = Ok (Some 1) (loaded fallbackHeap None [0; 1; 2]).
Proof.
  apply (getNode_prefers_environment_key (loaded fallbackHeap None [0; 1; 2])
           "cd17:accounts" "production" "EMEA" 1);
    [reflexivity | reflexivity | reflexivity | vm_compute; reflexivity
    | vm_compute; reflexivity |].
  intros d. apply eq_None_not_Some. intros [n Hn].
  assert (Hk : key4 "cd17:accounts" "production" "EMEA" d
               ∈ (_nodeMap (loaded fallbackHeap None [0; 1; 2])).*1).
  { apply hasOwnProperty_keys. by eapply hasOwnProperty_Some. }
  vm_compute in Hk.
  repeat (apply elem_of_cons in Hk as [Hk|Hk];
          [apply (f_equal (String.substring 0 24)) in Hk; vm_compute in Hk; discriminate|]).
  by apply elem_of_nil in Hk.
Defined.

(** ** The memo is an object

    [getNode] keys the memo by the type id itself and asks it for
    [hasOwnProperty]. *)

Lemma setContext_unshadowed arg st : memoShadowed (setContext arg st) = false.
Proof. reflexivity. Qed.

(** Once a lookup without context finds a descriptor of the type id
    [hasOwnProperty], the descriptor is memoized under that name and takes
    the place of the method: from then on every [getNode] and every
    [resolveURL] throws, whatever the type and the context, and so does
    [resolveNodeURI] for a node that must look its parent up; nothing is
    written.  The next [setContext] starts a new memo and lookups return
    again.  Under [__proto__] nothing is ever memoized: a lookup of that
    type id returns what the index holds and leaves the locator as it was.
    Under any other type id a found descriptor is memoized and the next
    call returns it from the memo. *)
Theorem getNode_throws_once_method_is_memoized :
  (forall (st : AlLocatorMatrix) (n : ref),
     memoShadowed st = false ->
     lookupNode st "hasOwnProperty" None = Some n ->
     let st1 := set_nodes (<["hasOwnProperty" := n]> (nodes st)) st in
     getNode "hasOwnProperty" None st = Ok (Some n) st1
     /\ (forall T ctx, getNode T ctx st1 = Thrown st1)
     /\ (forall fuel T path ctx, resolveURL fuel T path ctx st1 = Thrown st1)
     /\ (forall fuel r ctx,
           truthy (AlLocationDescriptor._fullURI (deref st1 r)) = false ->
           truthy (AlLocationDescriptor.parentId (deref st1 r)) = true ->
           resolveNodeURI (S fuel) r ctx st1 = Thrown st1)
     /\ (forall arg T ctx, exists o st2, getNode T ctx (setContext arg st1) = Ok o st2))
  /\ (forall (st : AlLocatorMatrix),
        memoShadowed st = false ->
        nodes st !! "__proto__" = None ->
        getNode "__proto__" None st = Ok (lookupNode st "__proto__" None) st)
  /\ (forall (st : AlLocatorMatrix) (T : string) (n : ref),
        memoShadowed st = false ->
        T <> "__proto__" -> T <> "hasOwnProperty" ->
        nodes st !! T = None ->
        lookupNode st T None = Some n ->
        let st1 := set_nodes (<[T := n]> (nodes st)) st in
        getNode T None st = Ok (Some n) st1 /\ getNode T None st1 = Ok (Some n) st1).
Proof.
  split; [|split].
  - intros st n Hs Hl st1.
    assert (Hsh : memoShadowed st1 = true).
    { apply bool_decide_eq_true. exists n. apply lookup_insert_eq. }
    split; [|split; [|split; [|split]]].
    + apply memoShadowed_false in Hs. rewrite getNode_run by by apply memoShadowed_false.
      unfold memoizedLookup. by rewrite Hs, Hl.
    + intros T ctx. by apply getNode_throws.
    + intros fuel T path ctx. by apply resolveURL_throws.
    + intros fuel r ctx Hc Hp. by rewrite resolveNodeURI_S, Hc, Hp, getNode_throws.
    + intros arg T ctx. rewrite getNode_run by apply setContext_unshadowed. eauto.
  - intros st Hs Hm. rewrite getNode_run by done. unfold memoizedLookup. rewrite Hm.
    by destruct (lookupNode st "__proto__" None).
  - intros st T n Hs Hp Hh Hm Hl st1.
    assert (Hs1 : memoShadowed st1 = false).
    { apply memoShadowed_false. unfold st1. cbn [nodes set_nodes].
      rewrite lookup_insert_ne by done. by apply memoShadowed_false. }
    rewrite !getNode_run by done. unfold memoizedLookup. rewrite Hm, Hl.
    unfold memoize. rewrite decide_False by done. split; [done|].
    unfold st1. cbn [nodes set_nodes]. by rewrite lookup_insert_eq.
Qed.

(** Witness: a catalog with a descriptor of the type id [hasOwnProperty];
    after one lookup of it the lookup of the accounts application throws. *)
Lemma getNode_throws_once_method_is_memoized_witness :
  getNode "hasOwnProperty" None (loaded methodHeap None [0; 1])
  = Ok (Some 1)
       (set_nodes (<["hasOwnProperty" := 1]> (nodes (loaded methodHeap None [0; 1])))
                  (loaded methodHeap None [0; 1])).
Proof.
  apply (proj1 getNode_throws_once_method_is_memoized (loaded methodHeap None [0; 1]) 1);
    [reflexivity | vm_compute; reflexivity].
Defined.

(** ** getBaseUrl on any input *)

Lemma ascii_in_cons c x s : ascii_in c (String x s) = Ascii.eqb c x || ascii_in c s.
Proof. reflexivity. Qed.

Lemma ascii_in_app c a b : ascii_in c (a +:+ b) = ascii_in c a || ascii_in c b.
Proof.
  induction a as [|x a IH]; [done|].
  by rewrite append_cons, !ascii_in_cons, IH, orb_assoc.
Qed.

Lemma chopAt_split c u :
  exists rest, u = chopAt (String c EmptyString) u +:+ rest
               /\ ascii_in c (chopAt (String c EmptyString) u) = false.
Proof.
  induction u as [|x u (rest & IH & Hin)].
  - by exists EmptyString.
  - destruct (decide (x = c)) as [->|Hne].
    + rewrite chopAt_head. by exists (String c u).
    + rewrite chopAt_cons_ne by done. exists rest. split.
      * by rewrite append_cons, <- IH.
      * rewrite ascii_in_cons, Hin, orb_false_r. apply Ascii.eqb_neq. congruence.
Qed.

Lemma substring_prefix n s :
  exists rest, s = String.substring 0 n s +:+ rest.
Proof.
  revert s. induction n as [|n IH]; intros s.
  - exists s. by destruct s.
  - destruct s as [|x s]; [by exists EmptyString|].
    destruct (IH s) as (rest & E). exists rest. simpl. by rewrite append_cons, <- E.
Qed.

Lemma dropTrailingSlash_split u :
  exists rest, u = dropTrailingSlash u +:+ rest.
Proof.
  unfold dropTrailingSlash. case_match.
  - apply substring_prefix.
  - exists EmptyString. by rewrite append_empty_r.
Qed.

Lemma get_last_split s c :
  0 < String.length s -> String.get (String.length s - 1) s = Some c ->
  exists v, s = v +:+ String c EmptyString.
Proof.
  induction s as [|x s IH]; simpl; [lia|]. intros _.
  destruct s as [|y s].
  - simpl. intros [= ->]. by exists EmptyString.
  - cbn [String.length]. replace (S (String.length s) - 0) with (S (String.length s)) by lia.
    cbn [String.get]. intros H. destruct IH as (v & E).
    + simpl; lia.
    + simpl. by replace (String.length s - 0) with (String.length s) by lia.
    + exists (String x v). by rewrite append_cons, <- E.
Qed.

Lemma dropTrailingSlash_fixed u :
  (forall v, u <> v +:+ "/") -> dropTrailingSlash u = u.
Proof.
  intros H. unfold dropTrailingSlash. case_match eqn:E; [|done].
  apply andb_true_iff in E as [Hlen Hget]. apply Nat.ltb_lt in Hlen.
  apply bool_decide_eq_true in Hget.
  destruct (get_last_split _ _ Hlen Hget) as (v & Ev). by destruct (H v).
Qed.

Lemma getBaseUrl_split u :
  exists rest, u = getBaseUrl u +:+ rest.
Proof.
  unfold getBaseUrl.
  destruct (chopAt_split "#" u) as (r1 & E1 & _).
  destruct (chopAt_split "?" (chopAt "#" u)) as (r2 & E2 & _).
  destruct (dropTrailingSlash_split (chopAt "?" (chopAt "#" u))) as (r3 & E3).
  exists (r3 +:+ r2 +:+ r1). rewrite <- !append_assoc, <- E3, <- E2. exact E1.
Qed.

Lemma getBaseUrl_clean u :
  ascii_in "#" (getBaseUrl u) = false /\ ascii_in "?" (getBaseUrl u) = false.
Proof.
  unfold getBaseUrl.
  destruct (chopAt_split "#" u) as (r1 & E1 & H1).
  destruct (chopAt_split "?" (chopAt "#" u)) as (r2 & E2 & H2).
  destruct (dropTrailingSlash_split (chopAt "?" (chopAt "#" u))) as (r3 & E3).
  assert (ascii_in "#" (chopAt "?" (chopAt "#" u)) = false) as H1'.
  { rewrite E2, ascii_in_app in H1. by apply orb_false_elim in H1 as []. }
  split.
  - rewrite E3, ascii_in_app in H1'. by apply orb_false_elim in H1' as [].
  - rewrite E3, ascii_in_app in H2. by apply orb_false_elim in H2 as [].
Qed.

(** [getBaseUrl] returns a prefix of its input that holds neither [#] nor
    [?]; an input that holds neither and does not end with a slash is
    returned as it is. *)
Theorem getBaseUrl_is_a_clean_prefix (u : string) :
  (exists rest, u = getBaseUrl u +:+ rest)
  /\ ascii_in "#" (getBaseUrl u) = false
  /\ ascii_in "?" (getBaseUrl u) = false
  /\ (ascii_in "#" u = false -> ascii_in "?" u = false -> (forall v, u <> v +:+ "/") ->
      getBaseUrl u = u).
Proof.
  split; [apply getBaseUrl_split|]. split; [apply getBaseUrl_clean|].
  split; [apply getBaseUrl_clean|].
  intros Hh Hq Hs. unfold getBaseUrl.
  rewrite (chopAt_absent "#") by done. rewrite (chopAt_absent "?") by done.
  by apply dropTrailingSlash_fixed.
Qed.

(** [getBaseUrl] removes one trailing slash, not all of them: applied to its
    own result it removes one more when there is one, and changes nothing
    otherwise. *)
Theorem getBaseUrl_strips_one_slash (u : string) :
  getBaseUrl (getBaseUrl u) = dropTrailingSlash (getBaseUrl u)
  /\ ((forall v, getBaseUrl u <> v +:+ "/") -> getBaseUrl (getBaseUrl u) = getBaseUrl u)
  /\ (forall v, getBaseUrl u = v +:+ "/" -> getBaseUrl (getBaseUrl u) = v)
  /\ (forall base rest,
        ascii_in "#" base = false -> ascii_in "?" base = false ->
        rest = EmptyString \/ (exists q, rest = "?" +:+ q) \/ (exists f, rest = "#" +:+ f) ->
        getBaseUrl (base +:+ "//" +:+ rest) = base +:+ "/").
Proof.
  destruct (getBaseUrl_clean u) as (Hh & Hq).
  assert (getBaseUrl (getBaseUrl u) = dropTrailingSlash (getBaseUrl u)) as E.
  { unfold getBaseUrl at 1. rewrite (chopAt_absent "#") by done.
    by rewrite (chopAt_absent "?") by done. }
  repeat split.
  - exact E.
  - intros H. rewrite E. by apply dropTrailingSlash_fixed.
  - intros v Hv. rewrite E, Hv. apply dropTrailingSlash_slash.
  - intros base rest Hb Hb' Hrest.
    rewrite <- append_assoc, getBaseUrl_strips; [| |  | done].
    + replace (base +:+ "//") with ((base +:+ "/") +:+ "/").
      * apply dropTrailingSlash_slash.
      * by rewrite append_assoc.
    + by rewrite ascii_in_app, Hb.
    + by rewrite ascii_in_app, Hb'.
Qed.

(** ** What the compiled patterns match *)

Lemma searchFrom_Bol R s : searchFrom (Bol :: R) false s = false.
Proof. induction s as [|c r IH]; [done|]. simpl. exact IH. Qed.

Lemma test_anchored R s : test (Bol :: R) s = matchTerms R true s.
Proof.
  unfold test. destruct s as [|c r]; cbn [searchFrom matchTerms andb].
  - apply orb_false_r.
  - by rewrite searchFrom_Bol, orb_false_r.
Qed.

Lemma openEnd_spec f s :
  matchTerms [Rep AnyChar ZeroOrMore; Eol] f s = noLineTerminator s.
Proof.
  cbn [matchTerms]. revert f. induction s as [|c r IH]; intros f; [done|].
  cbn [matchStar matchTerms noLineTerminator accepts orb]. by rewrite IH.
Qed.

Lemma literals_spec a R f t :
  (forall f f' s, matchTerms R f s = matchTerms R f' s) ->
  matchTerms (literals a ++ R) f t = true
  <-> exists t', t = a +:+ t' /\ matchTerms R false t' = true.
Proof.
  intros HR. revert f t. induction a as [|c a IH]; intros f t.
  - cbn [literals app]. rewrite (HR f false). split; [by exists t | by intros (t' & -> & H)].
  - cbn [literals app matchTerms]. destruct t as [|x t].
    + split; [done | by intros (t' & E & _)].
    + cbn [accepts]. rewrite andb_true_iff, IH. split.
      * intros (->%Ascii.eqb_eq & t' & -> & H). by exists t'.
      * intros (t' & E & H). rewrite append_cons in E. injection E as -> ->.
        split; [apply Ascii.eqb_refl | by exists t'].
Qed.

Lemma literals_flag a R f f' t :
  (forall f f' s, matchTerms R f s = matchTerms R f' s) ->
  matchTerms (literals a ++ R) f t = matchTerms (literals a ++ R) f' t.
Proof. intros HR. destruct a; [apply HR | done]. Qed.

Lemma matchStar_word k f s :
  (forall f f' s, k f s = k f' s) ->
  matchStar WordClass k f s = true
  <-> exists w s', s = w +:+ s' /\ wordChars w = true /\ k false s' = true.
Proof.
  intros Hk. revert f. induction s as [|c r IH]; intros f.
  - cbn [matchStar]. rewrite orb_false_r, (Hk f false). split.
    + intros H. by exists EmptyString, EmptyString.
    + intros (w & s' & E & _ & H). destruct w; [|done]. by rewrite append_nil in E; subst.
  - cbn [matchStar accepts]. rewrite orb_true_iff, andb_true_iff, IH, (Hk f false). split.
    + intros [H|(Hc & w & s' & -> & Hw & H)].
      * by exists EmptyString, (String c r).
      * exists (String c w), s'. split; [by rewrite append_cons|]. split; [|done].
        unfold wordChars. simpl. by rewrite Hc.
    + intros (w & s' & E & Hw & H). destruct w as [|x w].
      * left. rewrite append_nil in E. by subst.
      * right. rewrite append_cons in E. injection E as -> ->.
        unfold wordChars in Hw. simpl in Hw. apply andb_true_iff in Hw as [Hx Hw].
        split; [done|]. by exists w, s'.
Qed.

Lemma wordPlus_spec R f s :
  (forall f f' s, matchTerms R f s = matchTerms R f' s) ->
  matchTerms (Rep WordClass OneOrMore :: R) f s = true
  <-> exists w s', s = w +:+ s' /\ w <> EmptyString /\ wordChars w = true
                   /\ matchTerms R false s' = true.
Proof.
  intros HR. cbn [matchTerms]. destruct s as [|c r].
  - split; [done|]. intros (w & s' & E & Hne & _). by destruct w.
  - cbn [accepts]. rewrite andb_true_iff, (matchStar_word _ _ _ HR). split.
    + intros (Hc & w & s' & -> & Hw & H). exists (String c w), s'.
      split; [by rewrite append_cons|]. split; [done|]. split; [|done].
      unfold wordChars. simpl. by rewrite Hc.
    + intros (w & s' & E & Hne & Hw & H). destruct w as [|x w]; [done|].
      rewrite append_cons in E. injection E as -> ->.
      unfold wordChars in Hw. simpl in Hw. apply andb_true_iff in Hw as [Hx Hw].
      split; [done|]. by exists w, s'.
Qed.

Lemma test_plain uri target :
  test (Bol :: literals uri ++ [Rep AnyChar ZeroOrMore; Eol]) target = true
  <-> exists s, target = uri +:+ s /\ noLineTerminator s = true.
Proof.
  rewrite test_anchored, literals_spec.
  - by setoid_rewrite openEnd_spec.
  - intros. by rewrite !openEnd_spec.
Qed.

(** A URI or alias without [*], [+] and [?] is matched by prefix: its
    pattern compiles, and the matcher accepts exactly the targets that start
    with it and hold no line terminator after it. *)
Theorem plain_uri_matches_by_prefix (uri target : string) :
  isPlain uri = true ->
  is_Some (compiledTest uri target)
  /\ (compiledTest uri target = Some true
      <-> exists s, target = uri +:+ s /\ noLineTerminator s = true).
Proof.
  intros Hu. unfold compiledTest. rewrite newRegExp_plain by done. cbn [fmap option_fmap option_map].
  split; [eauto|]. rewrite <- test_plain. split; [by intros [= ->] | by intros ->].
Qed.

(** Witness: a URL of another site that starts with a registered URI matches. *)
Lemma plain_uri_matches_by_prefix_witness :
  compiledTest "https://console.account.alertlogic.com"
    "https://console.account.alertlogic.com.example.org/#/x" = Some true.
Proof.
  apply (plain_uri_matches_by_prefix "https://console.account.alertlogic.com"
           "https://console.account.alertlogic.com.example.org/#/x"); [reflexivity|].
  exists ".example.org/#/x". split; reflexivity.
Defined.

(** *** One wildcard *)

Lemma escapeAll_app a b : escapeAll (a +:+ b) = escapeAll a +:+ escapeAll b.
Proof.
  induction a as [|c a IH]; [done|]. rewrite append_cons. cbn [escapeAll].
  destruct (isSpecial c); by rewrite !append_cons, IH.
Qed.

Lemma replaceFirstStar_app p q :
  isPlain p = true -> replaceFirstStar (p +:+ q) = p +:+ replaceFirstStar q.
Proof.
  induction p as [|c p IH]; [done|]. simpl isPlain. intros [Hc Hp]%andb_true_iff.
  apply negb_true_iff, not_quantifier_chars in Hc as (Hc & _).
  rewrite !append_cons. cbn [replaceFirstStar]. by rewrite Hc, IH.
Qed.

Lemma scan_Quantified_plain a q s :
  startsPlain s = true -> scan (Quantified a q) s = emit (Rep a q) (scan Start s).
Proof.
  destruct s as [|c r]; [done|]. simpl startsPlain. intros H%negb_true_iff.
  cbn [scan]. by destruct (not_quantifier_chars c H) as (_ & _ & ->).
Qed.

Lemma scan_wordClass r :
  scan Start ("[a-zA-Z0-9_]" +:+ r) = scan (After WordClass) r.
Proof. reflexivity. Qed.

Lemma scan_wordPlus rest R :
  startsPlain rest = true -> scan Start rest = Some R ->
  scan Start ("[a-zA-Z0-9_]+" +:+ rest) = Some (Rep WordClass OneOrMore :: R).
Proof.
  intros Hp HR.
  change ("[a-zA-Z0-9_]+" +:+ rest) with ("[a-zA-Z0-9_]" +:+ String "+" rest).
  rewrite scan_wordClass.
  change (scan (After WordClass) (String "+" rest))
    with (scan (Quantified WordClass OneOrMore) rest).
  rewrite scan_Quantified_plain by done. by rewrite HR.
Qed.

Lemma escapeAll_star b : escapeAll (String "*" b) = String "*" (escapeAll b).
Proof. reflexivity. Qed.

Lemma replaceFirstStar_star r : replaceFirstStar (String "*" r) = "[a-zA-Z0-9_]+" +:+ r.
Proof. reflexivity. Qed.

Lemma replaceFirstStar_caret r :
  replaceFirstStar ("^" +:+ r) = "^" +:+ replaceFirstStar r.
Proof. reflexivity. Qed.

Lemma pattern_one_wildcard a b :
  isPlain a = true -> isPlain b = true ->
  escapeLocationPattern (a +:+ "*" +:+ b)
  = "^" +:+ escapeAll a +:+ "[a-zA-Z0-9_]+" +:+ escapeAll b +:+ ".*$".
Proof.
  intros Ha Hb. unfold escapeLocationPattern. cbv zeta.
  change ("*" +:+ b) with (String "*" b).
  rewrite escapeAll_app, escapeAll_star, replaceFirstStar_caret.
  rewrite replaceFirstStar_app by by apply escapeAll_plain.
  rewrite replaceFirstStar_star. by rewrite !append_assoc.
Qed.

Lemma newRegExp_one_wildcard a b :
  isPlain a = true -> isPlain b = true ->
  newRegExp (escapeLocationPattern (a +:+ "*" +:+ b))
  = Some (Bol :: literals a ++ Rep WordClass OneOrMore
              :: literals b ++ [Rep AnyChar ZeroOrMore; Eol]).
Proof.
  intros Ha Hb. rewrite pattern_one_wildcard by done. unfold newRegExp.
  rewrite append_cons, append_nil. cbn [scan]. unfold startChar. simpl Ascii.eqb. cbv iota.
  rewrite (scan_escapeAll a _ (Rep WordClass OneOrMore
                                 :: literals b ++ [Rep AnyChar ZeroOrMore; Eol])); [done..|].
  apply scan_wordPlus.
  - by apply escapeAll_startsPlain.
  - by apply scan_escapeAll.
Qed.

(** A URI or alias whose only operator character is one [*] compiles, and
    its matcher accepts exactly the targets made of the part before the [*],
    one or more characters of [[a-zA-Z0-9_]], the part after the [*], and a
    rest without line terminator. *)
Theorem wildcard_matches_word_characters (a b target : string) :
  isPlain a = true -> isPlain b = true ->
  is_Some (compiledTest (a +:+ "*" +:+ b) target)
  /\ (compiledTest (a +:+ "*" +:+ b) target = Some true
      <-> exists w s,
            target = a +:+ w +:+ b +:+ s /\ w <> EmptyString
            /\ wordChars w = true /\ noLineTerminator s = true).
Proof.
  intros Ha Hb. unfold compiledTest. rewrite newRegExp_one_wildcard by done.
  cbn [fmap option_fmap option_map]. split; [eauto|].
  assert (forall f f' s,
            matchTerms (literals b ++ [Rep AnyChar ZeroOrMore; Eol]) f s
            = matchTerms (literals b ++ [Rep AnyChar ZeroOrMore; Eol]) f' s) as Hb'.
  { intros. apply literals_flag. intros. by rewrite !openEnd_spec. }
  assert (forall f f' s,
            matchTerms (Rep WordClass OneOrMore
                          :: literals b ++ [Rep AnyChar ZeroOrMore; Eol]) f s
            = matchTerms (Rep WordClass OneOrMore
                            :: literals b ++ [Rep AnyChar ZeroOrMore; Eol]) f' s) as Hw.
  { intros f f' s. cbn [matchTerms]. by destruct s. }
  transitivity (test (Bol :: literals a ++ Rep WordClass OneOrMore
                          :: literals b ++ [Rep AnyChar ZeroOrMore; Eol]) target = true).
  { split; [by intros [= ->] | by intros ->]. }
  rewrite test_anchored, (literals_spec a _ _ _ Hw). split.
  - intros (t' & -> & (w & s' & -> & Hne & Hwc & H)%(wordPlus_spec _ _ _ Hb')).
    apply literals_spec in H as (s & -> & H); [|intros; by rewrite !openEnd_spec].
    rewrite openEnd_spec in H. by exists w, s.
  - intros (w & s & -> & Hne & Hwc & Hs). exists (w +:+ b +:+ s). split; [done|].
    apply (wordPlus_spec _ _ _ Hb'). exists w, (b +:+ s). repeat split; [done..|].
    apply literals_spec; [intros; by rewrite !openEnd_spec|].
    exists s. by rewrite openEnd_spec.
Qed.

(** Witness: a word in the place of the wildcard. *)
Lemma wildcard_matches_word_characters_witness :
  compiledTest ("https://" +:+ "*" +:+ ".example.com") "https://a_1.example.com/x" = Some true.
Proof.
  apply (wildcard_matches_word_characters "https://" ".example.com" "https://a_1.example.com/x");
    [reflexivity | reflexivity |].
  exists "a_1", "/x". repeat split; [discriminate | reflexivity..].
Defined.

(** ** Patterns that do not compile *)

Lemma scan_escapeAll_fmap s rest :
  isPlain s = true -> startsPlain rest = true ->
  scan Start (escapeAll s +:+ rest) = app (literals s) <$> scan Start rest.
Proof.
  intros Hs Hrest. destruct (scan Start rest) as [R|] eqn:E.
  - by apply scan_escapeAll.
  - induction s as [|c r IH]; [done|].
    simpl in Hs. apply andb_true_iff in Hs as [Hc Hr]. apply negb_true_iff in Hc.
    specialize (IH Hr). cbn [escapeAll].
    destruct (isSpecial c) eqn:Hsp.
    + rewrite !append_cons. cbn [scan]. unfold startChar. simpl Ascii.eqb.
      cbn [scan]. rewrite Hsp.
      rewrite scan_After_plain by by apply escapeAll_startsPlain.
      by rewrite IH.
    + rewrite append_cons. cbn [scan]. rewrite startChar_plain by done.
      rewrite scan_After_plain by by apply escapeAll_startsPlain.
      by rewrite IH.
Qed.

Lemma newRegExp_leading_plus s : newRegExp (escapeLocationPattern ("+" +:+ s)) = None.
Proof. reflexivity. Qed.

Lemma newRegExp_leading_question s : newRegExp (escapeLocationPattern ("?" +:+ s)) = None.
Proof. reflexivity. Qed.

Lemma newRegExp_double_star a b :
  isPlain a = true ->
  newRegExp (escapeLocationPattern (a +:+ "**" +:+ b)) = None.
Proof.
  intros Ha. unfold newRegExp, escapeLocationPattern. cbv zeta.
  change ("**" +:+ b) with (String "*" (String "*" b)).
  rewrite escapeAll_app, !escapeAll_star, replaceFirstStar_caret.
  rewrite replaceFirstStar_app by by apply escapeAll_plain.
  rewrite replaceFirstStar_star, !append_assoc.
  rewrite append_cons, append_nil. cbn [scan]. unfold startChar at 1. simpl Ascii.eqb. cbv iota.
  rewrite scan_escapeAll_fmap; [|done..].
  assert (scan Start ("[a-zA-Z0-9_]+" +:+ String "*" (escapeAll b) +:+ ".*$") = None) as ->
    by reflexivity.
  done.
Qed.

Lemma forEach_app {A} (l l' : list A) (f : A -> M unit) st :
  forEach (l ++ l') f st = bind (forEach l f) (fun _ => forEach l' f) st.
Proof.
  revert st. induction l as [|x l IH]; intros st; [done|].
  cbn [app forEach]. unfold bind. destruct (f x st) as [[] st1| |]; [|done..].
  rewrite IH. reflexivity.
Qed.

(** A URI that starts with [+] or [?], or whose first [*] is followed by
    another [*], gives a pattern [new RegExp] rejects.  [setLocations]
    throws at the first node with such a URI: the nodes before it are
    loaded, the node itself is in the hash index and not in the URI index,
    and the nodes after it are not loaded. *)
Theorem setLocations_stops_at_bad_pattern :
  (forall (pre post : list ref) (n : ref) (st st1 : AlLocatorMatrix),
     setLocations pre st = Ok tt st1 ->
     AlLocationDescriptor.uri (deref st n) <> EmptyString ->
     newRegExp (escapeLocationPattern (AlLocationDescriptor.uri (deref st n))) = None ->
     setLocations (pre ++ n :: post) st
     = Thrown (set_nodeMap (assignAll n (nodeKeys (deref st n)) (_nodeMap st1)) st1))
  /\ (forall s, newRegExp (escapeLocationPattern ("+" +:+ s)) = None)
  /\ (forall s, newRegExp (escapeLocationPattern ("?" +:+ s)) = None)
  /\ (forall a b, isPlain a = true ->
        newRegExp (escapeLocationPattern (a +:+ "**" +:+ b)) = None).
Proof.
  split; [|split; [|split]].
  - intros pre post n st st1 Hpre Huri Hbad. unfold setLocations in *.
    rewrite forEach_app. unfold bind at 1. rewrite Hpre. cbn [forEach]. unfold bind at 1.
    pose proof (keeps_Ok _ _ _ _ _ (setLocations_keeps pre) Hpre) as (Hheap & _).
    assert (deref st1 n = deref st n) as Hd by (unfold deref; by rewrite Hheap).
    rewrite saveNode_unfold, addUriMapping_unfold. rewrite Hd.
    change (deref (set_nodeMap ?m st1) n) with (deref st1 n). rewrite Hd.
    unfold uriSources. destruct (AlLocationDescriptor.uri (deref st n)) as [|c u] eqn:Eu; [done|].
    cbn [String.length Nat.ltb Nat.leb app forEach]. unfold bind, registerPattern.
    by rewrite Hbad.
  - apply newRegExp_leading_plus.
  - apply newRegExp_leading_question.
  - apply newRegExp_double_star.
Qed.

(** Witness: the second of three nodes has two wildcards in a row. *)
Lemma setLocations_stops_at_bad_pattern_witness :
  setLocations ([0] ++ 1 :: [2]) (emptyMatrix doubleStarHeap None)
  = Thrown (set_nodeMap
              (assignAll 1 (nodeKeys (deref (emptyMatrix doubleStarHeap None) 1))
                 (_nodeMap (loaded doubleStarHeap None [0])))
              (loaded doubleStarHeap None [0])).
Proof.
  apply (proj1 setLocations_stops_at_bad_pattern [0] [2] 1 (emptyMatrix doubleStarHeap None)
           (loaded doubleStarHeap None [0])); [vm_compute; reflexivity | discriminate |].
  vm_compute. reflexivity.
Defined.

(** ** Loading, then looking up *)

Lemma nodeWrites_snoc h catalog n :
  nodeWrites h (catalog ++ [n])
  = nodeWrites h catalog ++ ((fun k => (k, n)) <$> nodeKeys (h !!! n)).
Proof. unfold nodeWrites. rewrite flat_map_app. simpl. by rewrite app_nil_r. Qed.

(** After a catalog is loaded, every key of its last node leads to it. *)
Lemma setLocations_last_keys catalog n st st' k :
  setLocations (catalog ++ [n]) st = Ok tt st' ->
  k ∈ nodeKeys (deref st n) ->
  dict_get k (_nodeMap st') = Some n.
Proof.
  intros (ws & _ & ->)%setLocations_Ok Hk. cbn [_nodeMap set_uriMap set_nodeMap].
  rewrite nodeWrites_snoc, applyWrites_app. by apply applyWrites_get_in.
Qed.

Lemma nodeKeys_any d :
  key3 (AlLocationDescriptor.locTypeId d) "*" "*" ∈ nodeKeys d.
Proof. unfold nodeKeys. rewrite !elem_of_app. right. right. apply list_elem_of_singleton. done. Qed.

Lemma nodeKeys_residency d e r :
  AlLocationDescriptor.environment d = Some e -> truthy (Some e) = true ->
  AlLocationDescriptor.residency d = Some r -> truthy (Some r) = true ->
  key3 (AlLocationDescriptor.locTypeId d) e r ∈ nodeKeys d.
Proof.
  intros He Hte Hr Htr. unfold nodeKeys. rewrite He, Hr, Hte, Htr. cbn [andb tpl from_option id].
  rewrite !elem_of_app. left. right. by apply list_elem_of_singleton.
Qed.

Lemma nodeKeys_dataCenter d e r i :
  AlLocationDescriptor.environment d = Some e -> truthy (Some e) = true ->
  AlLocationDescriptor.residency d = Some r -> truthy (Some r) = true ->
  AlLocationDescriptor.insightLocationId d = Some i -> truthy (Some i) = true ->
  key4 (AlLocationDescriptor.locTypeId d) e r i ∈ nodeKeys d.
Proof.
  intros He Hte Hr Htr Hi Hti. unfold nodeKeys. rewrite He, Hr, Hi, Hte, Htr, Hti.
  cbn [andb tpl from_option id]. rewrite !elem_of_app. left. left. by apply list_elem_of_singleton.
Qed.

Lemma memoizedLookup_explicit T c st :
  memoizedLookup T (Some c) st = (lookupNode st T (Some c), st).
Proof. unfold memoizedLookup. destruct (nodes st !! T); by destruct (lookupNode st T (Some c)). Qed.

Lemma getNode_explicit T c st :
  memoShadowed st = false -> getNode T (Some c) st = Ok (lookupNode st T (Some c)) st.
Proof. intros Hs. by rewrite getNode_run, memoizedLookup_explicit. Qed.

Lemma setLocations_memoShadowed catalog st st' :
  setLocations catalog st = Ok tt st' -> memoShadowed st' = memoShadowed st.
Proof.
  intros Hload.
  pose proof (keeps_Ok _ _ _ _ _ (setLocations_keeps _) Hload) as (_ & _ & _ & _ & Hn & _).
  unfold memoShadowed. by rewrite Hn.
Qed.

Lemma firstOf_ends_Some {A} (a b c d : option A) (x : A) :
  is_Some (firstOf [a; b; c; d; Some x]).
Proof. destruct a, b, c, d; by eexists. Qed.

Lemma memoizedLookup_hits_with_type_key T ctx st n :
  dict_get (key3 T "*" "*") (_nodeMap st) = Some n -> is_Some (memoizedLookup T ctx st).1.
Proof.
  intros Hk. destruct ctx as [c|].
  - rewrite memoizedLookup_explicit. cbn [fst]. rewrite lookupNode_order. cbv zeta. rewrite Hk.
    apply firstOf_ends_Some.
  - destruct (nodes st !! T) as [m|] eqn:Em.
    + unfold memoizedLookup. rewrite Em. by eexists.
    + rewrite memoizedLookup_memo_miss by done. rewrite lookupNode_order. cbv zeta. rewrite Hk.
      apply firstOf_ends_Some.
Qed.

Lemma accessibleHits_none st T ctx :
  (forall d, dict_get (key4 T (tpl (effective AlLocationContext.environment ctx st))
                            (tpl (effective AlLocationContext.residency ctx st)) d)
               (_nodeMap st) = None) ->
  accessibleHits st T ctx = [].
Proof.
  intros H. unfold accessibleHits.
  induction (default [] (effectiveAccessible ctx st)) as [|a l IH]; [done|].
  cbn [omap list_omap]. rewrite H, IH. by destruct (decide _).
Qed.

(** The node loaded last is the fallback of its type: its type key leads to
    it, so that from then on [getNode] finds a node for that type under any
    context, and a context for whose environment and residency the index
    holds no key of that type gets this node.  This on a locator whose memo
    holds no entry under [hasOwnProperty]. *)
Theorem last_loaded_node_is_the_fallback
    (catalog : list ref) (n : ref) (st st' : AlLocatorMatrix) :
  memoShadowed st = false ->
  setLocations (catalog ++ [n]) st = Ok tt st' ->
  dict_get (key3 (AlLocationDescriptor.locTypeId (deref st n)) "*" "*") (_nodeMap st') = Some n
  /\ (forall ctx, exists m st2,
        getNode (AlLocationDescriptor.locTypeId (deref st n)) ctx st' = Ok (Some m) st2)
  /\ (forall env res,
        truthy (Some env) = true -> truthy (Some res) = true ->
        dict_get (key3 (AlLocationDescriptor.locTypeId (deref st n)) env "*") (_nodeMap st') = None ->
        dict_get (key3 (AlLocationDescriptor.locTypeId (deref st n)) env res) (_nodeMap st') = None ->
        (forall d, dict_get (key4 (AlLocationDescriptor.locTypeId (deref st n)) env res d)
                     (_nodeMap st') = None) ->
        getNode (AlLocationDescriptor.locTypeId (deref st n))
          (Some (AlLocationContext.mk (Some env) (Some res) None None)) st'
        = Ok (Some n) st').
Proof.
  intros Hs Hload. rewrite <- (setLocations_memoShadowed _ _ _ Hload) in Hs.
  pose proof (setLocations_last_keys _ _ _ _ _ Hload (nodeKeys_any (deref st n))) as Hk.
  split; [done|]. split.
  - intros ctx. rewrite getNode_run by done.
    destruct (memoizedLookup_hits_with_type_key _ ctx _ _ Hk) as [m Hm].
    rewrite Hm. eauto.
  - intros env res He Hr Henv Hres Hdc.
    destruct env as [|c env]; [done|]. destruct res as [|c' res]; [done|].
    rewrite getNode_explicit by done. f_equal. rewrite lookupNode_order. cbv zeta.
    set (ctx := Some (AlLocationContext.mk (Some (String c env)) (Some (String c' res)) None None)).
    change (effective AlLocationContext.environment ctx st') with (Some (String c env)).
    change (effective AlLocationContext.residency ctx st') with (Some (String c' res)).
    rewrite accessibleHits_none by exact Hdc.
    cbn [tpl from_option id truthy andb last].
    rewrite Hdc, Hres, Henv, Hk.
    by destruct (truthy (effective AlLocationContext.insightLocationId ctx st')).
Qed.

(** Witness: an environment no node was declared for gets the node loaded last. *)
Lemma last_loaded_node_is_the_fallback_witness :
  getNode "cd17:accounts"
    (Some (AlLocationContext.mk (Some "staging") (Some "EMEA") None None))
    (loaded fallbackHeap None [0; 1; 2])
  = Ok (Some 2) (loaded fallbackHeap None [0; 1; 2]).
Proof.
  assert (Hload : setLocations ([0; 1] ++ [2]) (emptyMatrix fallbackHeap None)
                  = Ok tt (loaded fallbackHeap None [0; 1; 2])) by (vm_compute; reflexivity).
  destruct (last_loaded_node_is_the_fallback [0; 1] 2 (emptyMatrix fallbackHeap None) _
              eq_refl Hload) as (_ & _ & H).
  assert (Hkeys : forall k, String.prefix "cd17:accounts-staging" k = true ->
                    dict_get k (_nodeMap (loaded fallbackHeap None [0; 1; 2])) = None).
  { intros k Hp. apply eq_None_not_Some. intros [m Hm].
    assert (Hk : k ∈ (_nodeMap (loaded fallbackHeap None [0; 1; 2])).*1).
    { apply hasOwnProperty_keys. by eapply hasOwnProperty_Some. }
    vm_compute in Hk.
    repeat (apply elem_of_cons in Hk as [Hk|Hk]; [subst k; vm_compute in Hp; discriminate|]).
    by apply elem_of_nil in Hk. }
  apply (H "staging" "EMEA"); [reflexivity | reflexivity | ..].
  - apply Hkeys. reflexivity.
  - apply Hkeys. reflexivity.
  - intros d. apply Hkeys. reflexivity.
Defined.

(** A node loaded last is found under its own coordinates: with its
    environment, residency and data center in the context whatever else the
    context holds, and with its environment and residency alone when no
    data center and no accessible list is in effect.  This on a locator
    whose memo holds no entry under [hasOwnProperty]. *)
Theorem getNode_finds_last_loaded_node
    (catalog : list ref) (n : ref) (st st' : AlLocatorMatrix) (e r : string) :
  memoShadowed st = false ->
  setLocations (catalog ++ [n]) st = Ok tt st' ->
  AlLocationDescriptor.environment (deref st n) = Some e -> truthy (Some e) = true ->
  AlLocationDescriptor.residency (deref st n) = Some r -> truthy (Some r) = true ->
  (forall i accessible,
     AlLocationDescriptor.insightLocationId (deref st n) = Some i -> truthy (Some i) = true ->
     getNode (AlLocationDescriptor.locTypeId (deref st n))
       (Some (AlLocationContext.mk (Some e) (Some r) (Some i) accessible)) st'
     = Ok (Some n) st')
  /\ (truthy (AlLocationContext.insightLocationId (context st)) = false ->
      AlLocationContext.accessible (context st) = None ->
      getNode (AlLocationDescriptor.locTypeId (deref st n))
        (Some (AlLocationContext.mk (Some e) (Some r) None None)) st'
      = Ok (Some n) st').
Proof.
  intros Hs Hload He Hte Hr Htr. rewrite <- (setLocations_memoShadowed _ _ _ Hload) in Hs.
  pose proof (keeps_Ok _ _ _ _ _ (setLocations_keeps _) Hload) as (_ & _ & _ & _ & _ & Hctx).
  destruct e as [|c e]; [done|]. destruct r as [|c' r]; [done|]. split.
  - intros i accessible Hi Hti. destruct i as [|c'' i]; [done|].
    pose proof (setLocations_last_keys _ _ _ _ _ Hload
                  (nodeKeys_dataCenter _ _ _ _ He Hte Hr Htr Hi Hti)) as Hk.
    rewrite getNode_explicit by done. f_equal. rewrite lookupNode_order. cbv zeta.
    set (ctx := Some (AlLocationContext.mk _ _ _ _)).
    change (effective AlLocationContext.environment ctx st') with (Some (String c e)).
    change (effective AlLocationContext.residency ctx st') with (Some (String c' r)).
    change (effective AlLocationContext.insightLocationId ctx st') with (Some (String c'' i)).
    cbn [tpl from_option id truthy andb]. by rewrite Hk.
  - intros Hi Hacc.
    pose proof (setLocations_last_keys _ _ _ _ _ Hload
                  (nodeKeys_residency _ _ _ He Hte Hr Htr)) as Hk.
    rewrite getNode_explicit by done. f_equal. rewrite lookupNode_order. cbv zeta.
    set (ctx := Some (AlLocationContext.mk _ _ _ _)).
    change (effective AlLocationContext.environment ctx st') with (Some (String c e)).
    change (effective AlLocationContext.residency ctx st') with (Some (String c' r)).
    assert (effective AlLocationContext.insightLocationId ctx st'
            = AlLocationContext.insightLocationId (context st)) as ->.
    { unfold effective. by rewrite Hctx. }
    assert (accessibleHits st' (AlLocationDescriptor.locTypeId (deref st n)) ctx = []) as ->.
    { unfold accessibleHits, effectiveAccessible. rewrite Hctx, Hacc. reflexivity. }
    cbn [tpl from_option id truthy andb last]. by rewrite Hi, Hk.
Qed.

(** Witness: the Ashburn node, asked for by its data center. *)
Lemma getNode_finds_last_loaded_node_witness :
  getNode "insight:api"
    (Some (AlLocationContext.mk (Some "production") (Some "US") (Some "defender-us-ashburn")
             (Some ["defender-us-denver"])))
    (loaded twoCenters None [0; 1])
  = Ok (Some 1) (loaded twoCenters None [0; 1]).
Proof.
  assert (Hload : setLocations ([0] ++ [1]) (emptyMatrix twoCenters None)
                  = Ok tt (loaded twoCenters None [0; 1])) by (vm_compute; reflexivity).
  destruct (getNode_finds_last_loaded_node [0] 1 (emptyMatrix twoCenters None) _
              "production" "US" eq_refl Hload)
    as (H & _); [reflexivity..|].
  apply (H "defender-us-ashburn"); reflexivity.
Defined.

(** ** The memo and the cached URLs *)

Lemma memoizedLookup_memoized T m st :
  T <> "__proto__" ->
  (memoizedLookup T None st).1 = Some m -> nodes (memoizedLookup T None st).2 !! T = Some m.
Proof.
  intros HT. unfold memoizedLookup. destruct (nodes st !! T) as [k|] eqn:E; simpl.
  - by intros [= ->].
  - destruct (lookupNode st T None) as [k|]; simpl; [|done].
    intros [= ->]. unfold memoize. rewrite decide_False by done. apply lookup_insert_eq.
Qed.

Lemma memoizedLookup_unshadowed T ctx st :
  T <> "hasOwnProperty" ->
  memoShadowed st = false -> memoShadowed (memoizedLookup T ctx st).2 = false.
Proof.
  intros HT Hs%memoShadowed_false. apply memoShadowed_false.
  unfold memoizedLookup. destruct (nodes st !! T), ctx; simpl; try done;
    destruct (lookupNode st T _); simpl; try done.
  unfold memoize. case_decide; [done|]. simpl. by rewrite lookup_insert_ne.
Qed.

(** The memo is flushed by [setContext] only: a type looked up without
    context before a catalog is loaded keeps resolving to the memoized node
    after the load, until the context is set again.  This for every type id
    but [__proto__], under which nothing is memoized, and [hasOwnProperty],
    whose memo entry makes the next lookup throw. *)
Theorem memo_outlives_setLocations
    (T : string) (m : ref) (catalog : list ref) (st0 st1 st' : AlLocatorMatrix) :
  T <> "__proto__" -> T <> "hasOwnProperty" ->
  getNode T None st0 = Ok (Some m) st1 ->
  setLocations catalog st1 = Ok tt st' ->
  getNode T None st' = Ok (Some m) st'
  /\ forall arg,
       returned (getNode T None (setContext arg st'))
       = Some (lookupNode (setContext arg st') T None).
Proof.
  intros HT HT' (Hs & Hm & ->)%getNode_Ok Hload. symmetry in Hm.
  pose proof (memoizedLookup_unshadowed T None st0 HT' Hs) as Hs1.
  apply memoizedLookup_memoized in Hm; [|done].
  pose proof (keeps_Ok _ _ _ _ _ (setLocations_keeps _) Hload) as (_ & _ & _ & _ & Hn & _).
  rewrite <- (setLocations_memoShadowed _ _ _ Hload) in Hs1.
  split.
  - rewrite getNode_run by done. unfold memoizedLookup. by rewrite Hn, Hm.
  - intros arg. by apply getNode_memo_miss.
Qed.

(** Witness: the node memoized before the production node is loaded is still
    returned after the load, where a fresh lookup finds the production node. *)
Lemma memo_outlives_setLocations_witness :
  let st := stateAfter (getNode "cd17:accounts" None (loaded fallbackHeap None [2]))
                       (loaded fallbackHeap None [2]) in
  let st' := stateAfter (setLocations [0] st) st in
  getNode "cd17:accounts" None st' = Ok (Some 2) st'
  /\ lookupNode st' "cd17:accounts" None = Some 0
  /\ returned (getNode "cd17:accounts" None (setContext None st')) = Some (Some 0).
Proof.
  intros st st'. split; [|split; vm_compute; reflexivity].
  apply (memo_outlives_setLocations "cd17:accounts" 2 [0] (loaded fallbackHeap None [2]) st st');
    [discriminate | discriminate | vm_compute; reflexivity | vm_compute; reflexivity].
Defined.

Lemma onlyFillsCaches_refl st : onlyFillsCaches st st.
Proof. split; [apply sameButCaches_refl | done]. Qed.

Lemma onlyFillsCaches_trans a b c :
  onlyFillsCaches a b -> onlyFillsCaches b c -> onlyFillsCaches a c.
Proof.
  intros (H1 & H2 & H3) (H1' & H2' & H3'). split; [by eapply sameButCaches_trans|].
  split; [by etrans | congruence].
Qed.

Lemma memoizedLookup_onlyFillsCaches T ctx st : onlyFillsCaches st (memoizedLookup T ctx st).2.
Proof.
  split; [apply memoizedLookup_sameButCaches|]. split; [|by rewrite memoizedLookup_heap].
  unfold memoizedLookup. destruct (nodes st !! T) as [k|] eqn:E, ctx; simpl; try done;
    destruct (lookupNode st T _); simpl; try done.
  unfold memoize. case_decide; [done|]. by apply insert_subseteq.
Qed.

Lemma getNode_onlyFillsCaches T ctx : keeps onlyFillsCaches (getNode T ctx).
Proof.
  apply keeps_getNode; [apply onlyFillsCaches_refl|]. intros st.
  apply memoizedLookup_onlyFillsCaches.
Qed.

Lemma cacheFullURI_onlyFillsCaches n u st : onlyFillsCaches st (cacheFullURI n u st).
Proof.
  split; [apply cacheFullURI_sameButCaches|]. split; [done|].
  unfold cacheFullURI. simpl. apply length_insert.
Qed.

Lemma resolveNodeURI_onlyFillsCaches fuel n ctx :
  keeps onlyFillsCaches (resolveNodeURI fuel n ctx).
Proof.
  revert n. induction fuel as [|fuel IH]; intros n; [by intros st|].
  pose proof onlyFillsCaches_refl as Hr. pose proof onlyFillsCaches_trans as Ht.
  cbn [resolveNodeURI].
  apply keeps_bind; [done | by apply keeps_gets |]. intros d.
  destruct (truthy (AlLocationDescriptor._fullURI d)); [by apply keeps_ret|].
  apply keeps_bind; [done | |].
  - destruct (truthy (AlLocationDescriptor.parentId d)); [|by apply keeps_ret].
    apply keeps_bind; [done | |].
    + apply getNode_onlyFillsCaches.
    + intros [p|]; [apply IH | by apply keeps_ret].
  - intros uri. apply keeps_bind; [done | by apply keeps_gets |]. intros d'.
    apply keeps_bind; [done | | intros _; by apply keeps_ret].
    apply keeps_modify. intros st. apply cacheFullURI_onlyFillsCaches.
Qed.

(** [getNode], [resolveNodeURI] and [resolveURL] never write to the two
    indices, the context, the acting node or any descriptor field other than
    [_fullURI], whether they return or throw: the memo may get entries, and
    it loses none. *)
Theorem lookups_only_fill_caches
    (fuel : nat) (T : string) (path : option string) (ctx : option AlLocationContext.t)
    (n : ref) :
  keeps onlyFillsCaches (resolveURL fuel T path ctx)
  /\ keeps onlyFillsCaches (resolveNodeURI fuel n ctx)
  /\ keeps onlyFillsCaches (getNode T ctx).
Proof.
  pose proof onlyFillsCaches_refl as Hr. pose proof onlyFillsCaches_trans as Ht.
  split; [|split; [apply resolveNodeURI_onlyFillsCaches|]].
  - unfold resolveURL. apply keeps_bind; [done | |].
    + apply getNode_onlyFillsCaches.
    + intros [k|]; (apply keeps_bind; [done | | intros u; by apply keeps_ret]).
      * apply resolveNodeURI_onlyFillsCaches.
      * by apply keeps_gets.
  - apply getNode_onlyFillsCaches.
Qed.

(** *** A resolved URL stays *)

Lemma resolveNodeURI_caches fuel n ctx st url st' :
  n < length (heap st) ->
  resolveNodeURI fuel n ctx st = Ok url st' -> url <> EmptyString ->
  AlLocationDescriptor._fullURI (deref st' n) = Some url.
Proof.
  intros Hn H Hurl. destruct fuel as [|fuel]; [done|]. rewrite resolveNodeURI_S in H.
  destruct (truthy (AlLocationDescriptor._fullURI (deref st n))) eqn:Ef.
  - injection H as <- <-. by apply truthy_Some in Ef as (c & s & ->).
  - set (inner := if truthy (AlLocationDescriptor.parentId (deref st n)) then _ else _) in H.
    assert (forall u st2, inner = Ok u st2 -> length (heap st2) = length (heap st)) as Hlen.
    { subst inner. intros u st2.
      destruct (truthy (AlLocationDescriptor.parentId (deref st n))).
      2:{ intros E. injection E as _ <-. done. }
      destruct (getNode _ ctx st) as [[p|] st1|st1|] eqn:Ep; [| |done..].
      - intros E. pose proof (keeps_Ok _ _ _ _ _ (resolveNodeURI_onlyFillsCaches fuel p ctx) E)
          as (_ & _ & Hl).
        pose proof (keeps_Ok _ _ _ _ _ (getNode_onlyFillsCaches _ ctx) Ep) as (_ & _ & Hl').
        congruence.
      - intros E. injection E as _ <-.
        by pose proof (keeps_Ok _ _ _ _ _ (getNode_onlyFillsCaches _ ctx) Ep) as (_ & _ & Hl'). }
    destruct inner as [u st2| |]; [|done..]. injection H as <- <-.
    rewrite deref_cacheFullURI. rewrite decide_True; [done|].
    split; [done|]. by rewrite (Hlen u st2).
Qed.

(** Once [resolveNodeURI] has resolved a node to a URL that is not empty,
    every later call returns that URL, under any context argument and after
    any [setContext]: the flush of [setContext] does not reach the cached
    URLs. *)
Theorem resolved_url_survives_setContext
    (fuel : nat) (n : ref) (ctx : option AlLocationContext.t)
    (st st' : AlLocatorMatrix) (url : string) :
  n < length (heap st) ->
  resolveNodeURI fuel n ctx st = Ok url st' ->
  url <> EmptyString ->
  forall arg ctx' fuel',
    resolveNodeURI (S fuel') n ctx' (setContext arg st') = Ok url (setContext arg st')
    /\ resolveNodeURI (S fuel') n ctx' st' = Ok url st'.
Proof.
  intros Hn H Hurl arg ctx' fuel'.
  pose proof (resolveNodeURI_caches _ _ _ _ _ _ Hn H Hurl) as Hc.
  assert (truthy (Some url) = true) as Ht by by destruct url.
  split.
  - rewrite resolveNodeURI_cached.
    + change (deref (setContext arg st') n) with (deref st' n). by rewrite Hc.
    + change (deref (setContext arg st') n) with (deref st' n). by rewrite Hc.
  - rewrite resolveNodeURI_cached; by rewrite Hc.
Qed.

(** Witness: a child resolved in US keeps its US URL when the context moves to
    EMEA, where its parent type now resolves to the EMEA node. *)
Lemma resolved_url_survives_setContext_witness :
  let st' := stateAfter (resolveNodeURI 2 2 None (loaded residencyHeap None [0; 1; 2]))
               (loaded residencyHeap None [0; 1; 2]) in
  returned (resolveNodeURI 1 2 None (setContext inEMEA st')) = Some "https://us.example.com/child"
  /\ returned (getNode "parent:ui" None (setContext inEMEA st')) = Some (Some 1).
Proof.
  intros st'. split; [|vm_compute; reflexivity].
  destruct (resolved_url_survives_setContext 2 2 None (loaded residencyHeap None [0; 1; 2]) st'
              "https://us.example.com/child") with (arg := inEMEA) (ctx' := @None AlLocationContext.t)
              (fuel' := 0) as [-> _];
    [vm_compute; lia | vm_compute; reflexivity | discriminate | reflexivity].
Defined.

(** *** getNodeByURI, again and afterwards *)

Lemma set_heap_id st : set_heap (heap st) st = st.
Proof. by destruct st. Qed.

(** Asking [getNodeByURI] the same question again gives the same node and
    changes nothing more. *)
Theorem getNodeByURI_again (target : string) (st : AlLocatorMatrix) :
  getNodeByURI target (getNodeByURI target st).2 = getNodeByURI target st.
Proof.
  unfold getNodeByURI at 2 3.
  destruct (firstMatch target (uriMap st)) as [mapping|] eqn:E; cbv zeta.
  2:{ cbn [snd]. unfold getNodeByURI. by rewrite E. }
  destruct (decide (getBaseUrl target = AlLocationDescriptor.uri (deref st (location mapping))))
    as [Hb|Hb]; cbn [snd].
  - unfold getNodeByURI. rewrite E. cbv zeta. by rewrite decide_True.
  - unfold getNodeByURI. cbn [uriMap set_heap]. rewrite E. cbv zeta.
    destruct (decide (location mapping < length (heap st))) as [Hl|Hl].
    + rewrite decide_True; [done|].
      unfold deref, set_heap. cbn [heap]. by rewrite list_lookup_total_insert_eq.
    + rewrite list_insert_ge by lia. rewrite !set_heap_id.
      rewrite decide_False by done. by rewrite list_insert_ge, set_heap_id by lia.
Qed.

(** When [getNodeByURI] rewrites the URI of the node it finds, that node
    resolves to the rewritten URI from then on, under any context: for a
    child, the URL of its parent is no longer put before it. *)
Theorem getNodeByURI_pins_the_resolved_url
    (target : string) (st : AlLocatorMatrix) (N : ref) :
  (getNodeByURI target st).1 = Some N ->
  N < length (heap st) ->
  getBaseUrl target <> AlLocationDescriptor.uri (deref st N) ->
  getBaseUrl target <> EmptyString ->
  forall fuel ctx,
    resolveNodeURI (S fuel) N ctx (getNodeByURI target st).2
    = Ok (getBaseUrl target) (getNodeByURI target st).2.
Proof.
  intros HN Hl Hb Hne fuel ctx. unfold getNodeByURI in *.
  destruct (firstMatch target (uriMap st)) as [mapping|]; [|done]. cbv zeta in *.
  destruct (decide _) as [Hb'|_]; cbn [fst snd] in *; injection HN as HN; subst N; [done|].
  rewrite resolveNodeURI_cached.
  - unfold deref, set_heap. cbn [heap]. by rewrite list_lookup_total_insert_eq.
  - unfold deref, set_heap. cbn [heap]. rewrite list_lookup_total_insert_eq by done.
    cbn. by destruct (getBaseUrl target).
Qed.

(** Witness: the node found for a URL with a path resolves to that path. *)
Lemma getNodeByURI_pins_the_resolved_url_witness :
  resolveNodeURI 1 0 None
    (getNodeByURI "https://x.example.com/some/path?query=1#frag" (loaded exampleHeap None [0])).2
  = Ok "https://x.example.com/some/path"
       (getNodeByURI "https://x.example.com/some/path?query=1#frag"
          (loaded exampleHeap None [0])).2.
Proof.
  apply (getNodeByURI_pins_the_resolved_url "https://x.example.com/some/path?query=1#frag"
           (loaded exampleHeap None [0]) 0);
    [vm_compute; reflexivity | vm_compute; lia | vm_compute; discriminate | vm_compute; discriminate].
Defined.

(** *** A child whose parent is missing *)

(** A node whose [parentId] [getNode] resolves to no node resolves to its
    own [uri] as it is: nothing is put before it, not even the default
    protocol. *)
Theorem resolveNodeURI_of_an_orphan
    (fuel : nat) (n : ref) (ctx : option AlLocationContext.t) (st : AlLocatorMatrix) :
  truthy (AlLocationDescriptor._fullURI (deref st n)) = false ->
  truthy (AlLocationDescriptor.parentId (deref st n)) = true ->
  returned (getNode (tpl (AlLocationDescriptor.parentId (deref st n))) ctx st) = Some None ->
  resolveNodeURI (S fuel) n ctx st
  = Ok (AlLocationDescriptor.uri (deref st n))
       (cacheFullURI n (AlLocationDescriptor.uri (deref st n)) st).
Proof.
  intros Hf Hp [Hs Hg]%getNode_returned. symmetry in Hg.
  rewrite resolveNodeURI_run, Hf, Hp, Hg by done.
  rewrite (memoizedLookup_miss_keeps _ _ _ Hg).
  unfold appendOwnUri. rewrite Hp. by destruct (AlLocationDescriptor.uri (deref st n)).
Qed.

(** Witness: a bare host name of a child without parent gets no protocol. *)
Lemma resolveNodeURI_of_an_orphan_witness :
  returned (resolveURL 1 "child:ui" None None (loaded orphanHeap None [0]))
  = Some "bare.example.com/child".
Proof.
  rewrite resolveURL_run by reflexivity.
  assert ((memoizedLookup "child:ui" None (loaded orphanHeap None [0])).1 = Some 0) as ->
    by (vm_compute; reflexivity).
  rewrite (resolveNodeURI_of_an_orphan 0 0 None); [reflexivity | vm_compute; reflexivity..].
Defined.

(** ** setContext, applied again *)

Lemma mergeContext_fields arg st :
  mergeContext arg st
  = let c := context st in
    let i := orElse (arg ≫= AlLocationContext.insightLocationId)
                    (AlLocationContext.insightLocationId c) in
    AlLocationContext.mk
      (orElse (arg ≫= AlLocationContext.environment) (AlLocationContext.environment c))
      (orElse (arg ≫= AlLocationContext.residency)
              (boundResidency st i (AlLocationContext.residency c)))
      i
      (match arg ≫= AlLocationContext.accessible with
       | Some (a :: l) => Some (a :: l)
       | _ => AlLocationContext.accessible c
       end).
Proof. reflexivity. Qed.

Lemma boundResidency_context st c i f :
  boundResidency (set_context c (set_nodes ∅ st)) i f = boundResidency st i f.
Proof. reflexivity. Qed.

Lemma orElse_idem a b : orElse a (orElse a b) = orElse a b.
Proof. unfold orElse. by destruct (truthy a). Qed.

Lemma orElse_truthy a b : truthy b = true -> truthy (orElse a b) = true.
Proof. unfold orElse. by destruct (truthy a) eqn:E. Qed.

Lemma boundResidency_truthy st i f :
  truthy f = true -> truthy (boundResidency st i f) = true.
Proof.
  intros Hf. unfold boundResidency. destruct (truthy i); [|done].
  destruct (findOne _ st) as [r|]; [|done].
  by destruct (truthy (AlLocationDescriptor.residency (deref st r))) eqn:E.
Qed.

Lemma boundResidency_idem st i f :
  boundResidency st i (boundResidency st i f) = boundResidency st i f.
Proof.
  unfold boundResidency. destruct (truthy i); [|done].
  destruct (findOne _ st) as [r|]; [|done].
  by destruct (truthy (AlLocationDescriptor.residency (deref st r))).
Qed.

(** The table of insight locations: residencies are not empty, and every
    alternative is an entry of the same residency without alternatives. *)
Lemma AlInsightLocations_closed id loc :
  dict_get id AlInsightLocations = Some loc ->
  truthy (Some (InsightLocation.residency loc)) = true
  /\ forall accessible s,
       selectedLocation loc (Some id) accessible = Some s ->
       truthy (Some s) = true
       /\ exists loc',
            dict_get s AlInsightLocations = Some loc'
            /\ InsightLocation.residency loc' = InsightLocation.residency loc
            /\ forall accessible', selectedLocation loc' (Some s) accessible' = Some s.
Proof.
  unfold AlInsightLocations. cbn [dict_get].
  repeat (case_decide; [subst id; intros [= <-]; split; [done|];
    intros acc s; unfold selectedLocation; cbn [InsightLocation.alternatives selectAlternative head];
    repeat case_bool_decide; intros [= <-]; (split; [done|]); eexists; (split; [reflexivity|]); done|]).
  done.
Qed.

Lemma normalizeContext_inactive c :
  AlLocationContext.accessible c = None
  \/ truthy (AlLocationContext.insightLocationId c) = false
  \/ dict_get (tpl (AlLocationContext.insightLocationId c)) AlInsightLocations = None ->
  normalizeContext c = c.
Proof.
  intros H. unfold normalizeContext. destruct (AlLocationContext.accessible c); [|done].
  destruct H as [H | [H | H]]; [done | by rewrite H | rewrite H; by destruct (truthy _)].
Qed.

Lemma normalizeContext_active c accessible id loc :
  AlLocationContext.accessible c = Some accessible ->
  AlLocationContext.insightLocationId c = Some id ->
  truthy (Some id) = true ->
  dict_get id AlInsightLocations = Some loc ->
  normalizeContext c
  = AlLocationContext.mk (AlLocationContext.environment c)
      (Some (InsightLocation.residency loc))
      (selectedLocation loc (Some id) accessible) (Some accessible).
Proof.
  intros Ha Hi Ht Hloc. destruct (AlInsightLocations_closed id loc Hloc) as [Hr _].
  unfold normalizeContext, selectedLocation. rewrite Ha, Hi, Ht. ctx_simpl. rewrite Hloc, Hr.
  destruct c as [e r i a]. cbn in Ha, Hi. subst.
  destruct (InsightLocation.alternatives loc); ctx_simpl; case_bool_decide; ctx_simpl; congruence.
Qed.

(** Setting the same context twice is setting it once. *)
Theorem setContext_again (arg : option AlLocationContext.t) (st : AlLocatorMatrix) :
  setContext arg (setContext arg st) = setContext arg st.
Proof.
  assert (forall a s, setContext a s
            = set_context (normalizeContext (mergeContext a s)) (set_nodes ∅ s)) as Hs
    by reflexivity.
  rewrite (Hs arg (setContext arg st)). rewrite (Hs arg st) at 2.
  assert (normalizeContext (mergeContext arg (setContext arg st))
          = normalizeContext (mergeContext arg st)) as ->; [|reflexivity].
  rewrite (mergeContext_fields arg (setContext arg st)). cbv zeta.
  change (context (setContext arg st)) with (normalizeContext (mergeContext arg st)).
  rewrite normalizeContext_environment, normalizeContext_accessible.
  rewrite (Hs arg st), boundResidency_context.
  rewrite (mergeContext_fields arg st). cbv zeta.
  set (c := context st).
  set (i0 := orElse (arg ≫= AlLocationContext.insightLocationId)
                    (AlLocationContext.insightLocationId c)).
  set (e0 := orElse (arg ≫= AlLocationContext.environment) (AlLocationContext.environment c)).
  set (r0 := orElse (arg ≫= AlLocationContext.residency)
                    (boundResidency st i0 (AlLocationContext.residency c))).
  set (a0 := match arg ≫= AlLocationContext.accessible with
             | Some (a :: l) => Some (a :: l)
             | _ => AlLocationContext.accessible c
             end).
  cbn [AlLocationContext.environment AlLocationContext.accessible].
  assert (orElse (arg ≫= AlLocationContext.environment) e0 = e0) as -> by apply orElse_idem.
  assert (match arg ≫= AlLocationContext.accessible with
          | Some (a :: l) => Some (a :: l)
          | _ => a0
          end = a0) as ->.
  { subst a0. by destruct (arg ≫= AlLocationContext.accessible) as [[|]|]. }
  set (m0 := AlLocationContext.mk e0 r0 i0 a0).
  destruct (decide (a0 = None \/ truthy i0 = false
                    \/ dict_get (tpl i0) AlInsightLocations = None)) as [Hin|Hact].
  - rewrite (normalizeContext_inactive m0) by exact Hin.
    change (AlLocationContext.insightLocationId m0) with i0.
    change (AlLocationContext.residency m0) with r0.
    assert (orElse (arg ≫= AlLocationContext.insightLocationId) i0 = i0) as ->
      by apply orElse_idem.
    assert (orElse (arg ≫= AlLocationContext.residency) (boundResidency st i0 r0) = r0) as ->.
    { subst r0. unfold orElse.
      destruct (truthy (arg ≫= AlLocationContext.residency)); [done|].
      apply boundResidency_idem. }
    by apply normalizeContext_inactive.
  - destruct a0 as [acc|] eqn:Ea; [|by destruct Hact; left].
    destruct (truthy i0) eqn:Ht; [|by destruct Hact; right; left].
    destruct (dict_get (tpl i0) AlInsightLocations) as [loc|] eqn:Eloc;
      [|by destruct Hact; right; right].
    destruct (truthy_Some _ Ht) as (x & id & Ei). rewrite Ei in Eloc, Ht. cbn in Eloc.
    rewrite (normalizeContext_active m0 acc (String x id) loc); [|done..].
    cbn [AlLocationContext.insightLocationId AlLocationContext.residency
         AlLocationContext.environment].
    change (AlLocationContext.environment m0) with e0.
    destruct (AlInsightLocations_closed _ _ Eloc) as [Hr Hsel].
    destruct (selectedLocation loc (Some (String x id)) acc) as [s|] eqn:Es.
    2:{ exfalso. revert Es. unfold selectedLocation.
        destruct (AlInsightLocations_alternatives _ _ Eloc) as [_ Halts].
        destruct (InsightLocation.alternatives loc) as [alts|]; [|done].
        destruct (Halts alts eq_refl) as [Hne _].
        destruct (selectAlternative alts acc); [done|]. by destruct alts. }
    destruct (Hsel acc s Es) as (Hts & loc' & Hloc' & Hres & Hfix).
    destruct (truthy (arg ≫= AlLocationContext.insightLocationId)) eqn:Hai.
    + assert (orElse (arg ≫= AlLocationContext.insightLocationId) (Some s) = Some (String x id))
        as ->.
      { rewrite <- Ei. subst i0. unfold orElse. by rewrite Hai. }
      rewrite (normalizeContext_active _ acc (String x id) loc); [|done..].
      cbn [AlLocationContext.environment]. by rewrite Es.
    + assert (orElse (arg ≫= AlLocationContext.insightLocationId) (Some s) = Some s) as ->.
      { unfold orElse. by rewrite Hai. }
      rewrite (normalizeContext_active _ acc s loc'); [|done..].
      cbn [AlLocationContext.environment]. by rewrite Hfix, Hres.
Qed.

(** *** setContext never clears a field *)

Lemma normalizeContext_truthy c :
  (truthy (AlLocationContext.residency c) = true ->
   truthy (AlLocationContext.residency (normalizeContext c)) = true)
  /\ (truthy (AlLocationContext.insightLocationId c) = true ->
      truthy (AlLocationContext.insightLocationId (normalizeContext c)) = true).
Proof.
  destruct (decide (AlLocationContext.accessible c = None
                    \/ truthy (AlLocationContext.insightLocationId c) = false
                    \/ dict_get (tpl (AlLocationContext.insightLocationId c))
                         AlInsightLocations = None)) as [Hin|Hact].
  - by rewrite normalizeContext_inactive.
  - destruct (AlLocationContext.accessible c) as [acc|] eqn:Ea; [|by destruct Hact; left].
    destruct (truthy (AlLocationContext.insightLocationId c)) eqn:Ht;
      [|by destruct Hact; right; left].
    destruct (dict_get (tpl (AlLocationContext.insightLocationId c)) AlInsightLocations)
      as [loc|] eqn:Eloc; [|by destruct Hact; right; right].
    destruct (truthy_Some _ Ht) as (x & id & Ei). rewrite Ei in Eloc. cbn in Eloc.
    rewrite (normalizeContext_active c acc (String x id) loc); [|done..].
    cbn [AlLocationContext.insightLocationId AlLocationContext.residency].
    destruct (AlInsightLocations_closed _ _ Eloc) as [Hr Hsel]. split; [done|]. intros _.
    destruct (selectedLocation loc (Some (String x id)) acc) as [s|] eqn:Es.
    + by destruct (Hsel acc s Es) as (Hts & _).
    + exfalso. revert Es. unfold selectedLocation.
      destruct (AlInsightLocations_alternatives _ _ Eloc) as [_ Halts].
      destruct (InsightLocation.alternatives loc) as [alts|]; [|done].
      destruct (Halts alts eq_refl) as [Hne _].
      destruct (selectAlternative alts acc); [done|]. by destruct alts.
Qed.

(** [setContext] replaces fields and never clears one: an environment, a
    residency or an insight location that the context holds is still there,
    possibly changed, after any [setContext], and so is an accessible list
    that is not empty. *)
Theorem setContext_never_clears (arg : option AlLocationContext.t) (st : AlLocatorMatrix) :
  (truthy (AlLocationContext.environment (context st)) = true ->
   truthy (AlLocationContext.environment (context (setContext arg st))) = true)
  /\ (truthy (AlLocationContext.residency (context st)) = true ->
      truthy (AlLocationContext.residency (context (setContext arg st))) = true)
  /\ (truthy (AlLocationContext.insightLocationId (context st)) = true ->
      truthy (AlLocationContext.insightLocationId (context (setContext arg st))) = true)
  /\ (forall a l,
        AlLocationContext.accessible (context st) = Some (a :: l) ->
        exists a' l',
          AlLocationContext.accessible (context (setContext arg st)) = Some (a' :: l')).
Proof.
  change (context (setContext arg st)) with (normalizeContext (mergeContext arg st)).
  rewrite normalizeContext_environment, normalizeContext_accessible.
  destruct (normalizeContext_truthy (mergeContext arg st)) as [Hr Hi].
  rewrite mergeContext_fields in *. cbv zeta in *.
  cbn [AlLocationContext.environment AlLocationContext.residency
       AlLocationContext.insightLocationId AlLocationContext.accessible] in *.
  split; [apply orElse_truthy|]. split; [|split].
  - intros H. apply Hr, orElse_truthy, boundResidency_truthy, H.
  - intros H. by apply Hi, orElse_truthy.
  - intros a l ->. destruct (arg ≫= AlLocationContext.accessible) as [[|a' l']|]; eauto.
Qed.

(** Witness: an empty residency does not clear the residency. *)
Lemma setContext_never_clears_witness :
  truthy (AlLocationContext.residency
            (context (setContext (Some (AlLocationContext.mk None (Some "") None None))
                        (emptyMatrix [] None)))) = true.
Proof.
  apply (setContext_never_clears (Some (AlLocationContext.mk None (Some "") None None))
           (emptyMatrix [] None)).
  reflexivity.
Defined.

(** ** setActingUri with a URL *)

Lemma orElse_idem' a b : orElse (orElse a b) b = orElse a b.
Proof. unfold orElse. destruct (truthy a) eqn:E; [by rewrite E | by destruct (truthy b)]. Qed.

Lemma getNodeByURI_keeps_coordinates target st r :
  AlLocationDescriptor.environment (deref (getNodeByURI target st).2 r)
  = AlLocationDescriptor.environment (deref st r)
  /\ AlLocationDescriptor.residency (deref (getNodeByURI target st).2 r)
     = AlLocationDescriptor.residency (deref st r).
Proof.
  unfold getNodeByURI. destruct (firstMatch target (uriMap st)) as [mapping|]; [|done].
  cbv zeta. destruct (decide _); [done|]. cbn [snd]. unfold deref, set_heap. cbn [heap].
  destruct (decide (r = location mapping)) as [->|Hne].
  - destruct (decide (location mapping < length (heap st))) as [Hl|Hl].
    + by rewrite list_lookup_total_insert_eq.
    + by rewrite list_insert_ge by lia.
  - by rewrite list_lookup_total_insert_ne.
Qed.

(** [setActingUri] with a URL that is not empty records the URL and makes
    the node [getNodeByURI] finds for it the acting node.  When there is
    one, the ambient environment becomes that node's environment if it has
    one, the ambient residency that node's residency if it has one and no
    insight location is bound, and the memo is flushed.  When there is
    none, the acting node is cleared and the context stays as it was.  The
    empty string changes nothing at all. *)
Theorem setActingUri_adopts_the_actor_context (c : ascii) (s : string) (st : AlLocatorMatrix) :
  actingUri (setActingUri (UriString (String c s)) st) = Some (String c s)
  /\ getActingNode (setActingUri (UriString (String c s)) st)
     = (getNodeByURI (String c s) st).1
  /\ (forall a,
        (getNodeByURI (String c s) st).1 = Some a ->
        AlLocationContext.environment (context (setActingUri (UriString (String c s)) st))
        = orElse (AlLocationDescriptor.environment (deref st a))
                 (AlLocationContext.environment (context st))
        /\ nodes (setActingUri (UriString (String c s)) st) = ∅
        /\ (truthy (AlLocationContext.insightLocationId (context st)) = false ->
            AlLocationContext.residency (context (setActingUri (UriString (String c s)) st))
            = orElse (AlLocationDescriptor.residency (deref st a))
                     (AlLocationContext.residency (context st))))
  /\ ((getNodeByURI (String c s) st).1 = None ->
      setActingUri (UriString (String c s)) st = set_acting (Some (String c s)) None st)
  /\ setActingUri (UriString EmptyString) st = st.
Proof.
  unfold setActingUri.
  pose proof (getNodeByURI_keeps_coordinates (String c s) st) as Hk.
  assert (context (getNodeByURI (String c s) st).2 = context st) as Hctx.
  { unfold getNodeByURI. destruct (firstMatch _ _); [|done]. cbv zeta. by destruct (decide _). }
  destruct (getNodeByURI (String c s) st) as [[a|] st2] eqn:E; cbn [fst snd] in *.
  - split; [done|]. split; [done|]. split; [|split; [done|done]].
    intros a' [= <-]. destruct (Hk a) as [He Hr].
    change (deref (set_acting (Some (String c s)) (Some a) st2) a) with (deref st2 a).
    change (context (set_acting (Some (String c s)) (Some a) st2)) with (context st2).
    rewrite He, Hr, Hctx.
    set (arg := Some (AlLocationContext.mk _ _ None None)).
    change (context (setContext arg ?x)) with (normalizeContext (mergeContext arg x)).
    rewrite normalizeContext_environment. split; [|split; [done|]].
    + rewrite mergeContext_fields. cbv zeta. cbn [AlLocationContext.environment].
      change (context (set_acting (Some (String c s)) (Some a) st2)) with (context st2).
      rewrite Hctx. subst arg. cbn [mbind option_bind AlLocationContext.environment].
      apply orElse_idem'.
    + intros Hi. rewrite normalizeContext_inactive.
      * rewrite mergeContext_fields. cbv zeta. cbn [AlLocationContext.residency].
        change (context (set_acting (Some (String c s)) (Some a) st2)) with (context st2).
        rewrite Hctx. subst arg.
        cbn [mbind option_bind AlLocationContext.residency AlLocationContext.insightLocationId].
        unfold boundResidency, orElse at 3. cbn [truthy]. rewrite Hi. apply orElse_idem'.
      * right. left. rewrite mergeContext_fields. cbv zeta.
        cbn [AlLocationContext.insightLocationId].
        change (context (set_acting (Some (String c s)) (Some a) st2)) with (context st2).
        rewrite Hctx. subst arg. by cbn.
  - assert (st2 = st) as ->.
    { revert E. unfold getNodeByURI. destruct (firstMatch _ _); [|by intros [= <-]].
      cbv zeta. by destruct (decide _). }
    split; [done|]. split; [done|]. split; [by intros a [=]|]. split; [done|done].
Qed.

(** ** The index holds descriptors under their own keys *)

Lemma dict_get_elem {V} k (v : V) m : dict_get k m = Some v -> (k, v) ∈ m.
Proof.
  induction m as [|[k' v'] m IH]; [done|]. cbn [dict_get]. case_decide as E.
  - intros [= ->]. subst. apply list_elem_of_here.
  - intros H. apply list_elem_of_further. by apply IH.
Qed.

Lemma elem_of_dict_set {V} k (v : V) m k' v' :
  (k', v') ∈ dict_set k v m -> (k', v') ∈ m \/ (k' = k /\ v' = v).
Proof.
  unfold dict_set. destruct (hasOwnProperty k m).
  - intros (kv & E & Hin)%list_elem_of_fmap. case_decide as Hk.
    + right. by injection E as -> ->.
    + left. by subst.
  - intros [H|H%list_elem_of_singleton]%elem_of_app; [by left|].
    right. by injection H as -> ->.
Qed.

Lemma keepsIndexed_refl st : keepsIndexed st st.
Proof. by intros H. Qed.

Lemma keepsIndexed_trans a b c : keepsIndexed a b -> keepsIndexed b c -> keepsIndexed a c.
Proof. intros H1 H2 H. by apply H2, H1. Qed.

Lemma nodeKeys_with_uri u f d : nodeKeys (AlLocationDescriptor.with_uri u f d) = nodeKeys d.
Proof. reflexivity. Qed.

Lemma nodeKeys_keyOf d k : k ∈ nodeKeys d -> keyOf (AlLocationDescriptor.locTypeId d) k.
Proof.
  unfold nodeKeys, keyOf, key4, key3. intros H.
  repeat (apply elem_of_app in H as [H|H]);
    repeat case_match; try (by apply elem_of_nil in H);
    try (apply elem_of_app in H as [H|H]);
    try (by apply elem_of_nil in H);
    apply list_elem_of_singleton in H; subst k; rewrite ?append_assoc; eauto.
Qed.

(** Replacing a descriptor by one with the same keys keeps the index sound. *)
Lemma wellIndexed_update st n d :
  nodeKeys d = nodeKeys (deref st n) ->
  keepsIndexed st (set_heap (<[n := d]> (heap st)) st).
Proof.
  intros Hd [Hm Hn].
  assert (forall r, nodeKeys (deref (set_heap (<[n := d]> (heap st)) st) r) = nodeKeys (deref st r))
    as Hk.
  { intros r. unfold deref, set_heap. cbn [heap].
    destruct (decide (r = n)) as [->|Hne].
    - destruct (decide (n < length (heap st))).
      + by rewrite list_lookup_total_insert_eq.
      + by rewrite list_insert_ge by lia.
    - by rewrite list_lookup_total_insert_ne. }
  split.
  - intros k r Hin. rewrite Hk. by apply Hm.
  - intros T r Hin. setoid_rewrite Hk. by apply Hn.
Qed.

Lemma indexNode_keepsIndexed k n st :
  k ∈ nodeKeys (deref st n) ->
  keepsIndexed st (set_nodeMap (dict_set k n (_nodeMap st)) st).
Proof.
  intros Hk [Hm Hn]. split; [|exact Hn].
  intros k' r [Hin|[-> ->]]%elem_of_dict_set; [by apply Hm | exact Hk].
Qed.

Lemma assignAll_keepsIndexed ks n st :
  ks ⊆ nodeKeys (deref st n) ->
  keepsIndexed st (set_nodeMap (assignAll n ks (_nodeMap st)) st).
Proof.
  revert st. induction ks as [|k ks IH]; intros st Hks.
  - unfold assignAll. cbn [fold_left]. rewrite set_nodeMap_id. apply keepsIndexed_refl.
  - eapply keepsIndexed_trans.
    + apply (indexNode_keepsIndexed k n). apply Hks, list_elem_of_here.
    + specialize (IH (set_nodeMap (dict_set k n (_nodeMap st)) st)).
      apply IH. intros x Hx. apply Hks. by apply list_elem_of_further.
Qed.

Lemma sameButUriMap_keepsIndexed st st' : sameButUriMap st st' -> keepsIndexed st st'.
Proof.
  intros [(Hh & _ & _ & _ & Hn & _) Hm] [H1 H2]. unfold wellIndexed, deref.
  rewrite Hh, Hn, Hm. by split.
Qed.

Lemma saveNode_keepsIndexed n : keeps keepsIndexed (saveNode n).
Proof.
  intros st. rewrite saveNode_unfold.
  pose proof (addUriMapping_keeps n
                (set_nodeMap (assignAll n (nodeKeys (deref st n)) (_nodeMap st)) st)) as Hu.
  pose proof (assignAll_keepsIndexed (nodeKeys (deref st n)) n st) as Ha.
  destruct (addUriMapping n _) as [[] st'|st'|]; [| |done];
    (eapply keepsIndexed_trans; [apply Ha; done | by apply sameButUriMap_keepsIndexed]).
Qed.

Lemma keyOf_key3 T e r : keyOf T (key3 T e r).
Proof. by exists (e +:+ "-" +:+ r). Qed.

Lemma keyOf_key4 T e r i : keyOf T (key4 T e r i).
Proof. exists (e +:+ "-" +:+ r +:+ "-" +:+ i). unfold key4, key3. by rewrite !append_assoc. Qed.

Lemma firstOf_Some_inv {A} (l : list (option A)) x : firstOf l = Some x -> Some x ∈ l.
Proof.
  unfold firstOf. induction l as [|[y|] l IH]; cbn; [done | |].
  - intros [= ->]. apply list_elem_of_here.
  - intros H. apply list_elem_of_further. by apply IH.
Qed.

(** A successful lookup found its result in the index, under a key of the
    type asked for. *)
Lemma lookupNode_Some st T ctx n :
  lookupNode st T ctx = Some n -> exists k, keyOf T k /\ (k, n) ∈ _nodeMap st.
Proof.
  rewrite lookupNode_order. cbv zeta. intros H%firstOf_Some_inv.
  repeat (apply elem_of_cons in H as [H|H]).
  - destruct (truthy _); [|done]. symmetry in H. apply dict_get_elem in H.
    eexists. split; [apply keyOf_key4 | exact H].
  - symmetry in H. apply last_Some in H as (l' & H).
    assert (n ∈ accessibleHits st T ctx) as Hin.
    { rewrite H. apply elem_of_app. right. apply list_elem_of_here. }
    unfold accessibleHits in Hin. apply list_elem_of_omap in Hin as (a & _ & Ha).
    case_decide; [done|]. apply dict_get_elem in Ha.
    eexists. split; [apply keyOf_key4 | exact Ha].
  - destruct (_ && _); [|done]. symmetry in H. apply dict_get_elem in H.
    eexists. split; [apply keyOf_key3 | exact H].
  - destruct (truthy _); [|done]. symmetry in H. apply dict_get_elem in H.
    eexists. split; [apply keyOf_key3 | exact H].
  - symmetry in H. apply dict_get_elem in H.
    eexists. split; [apply keyOf_key3 | exact H].
  - by apply elem_of_nil in H.
Qed.

Lemma memoizedLookup_keepsIndexed T ctx st : keepsIndexed st (memoizedLookup T ctx st).2.
Proof.
  intros [Hm Hn]. unfold memoizedLookup.
  destruct (nodes st !! T) as [m|] eqn:Em, ctx as [c|]; cbn [snd]; try done;
    destruct (lookupNode st T _) as [n|] eqn:El; cbn [snd]; try done.
  unfold memoize. case_decide; [done|].
  split; [exact Hm|]. intros T' r. cbn [nodes set_nodes].
  destruct (decide (T' = T)) as [->|Hne].
  - rewrite lookup_insert_eq. intros [= <-].
    apply lookupNode_Some in El as (k & Hk & Hin). exists k. split; [done|]. by apply Hm.
  - rewrite lookup_insert_ne by done. apply Hn.
Qed.

Lemma getNode_keepsIndexed T ctx : keeps keepsIndexed (getNode T ctx).
Proof.
  apply keeps_getNode; [apply keepsIndexed_refl|]. intros st.
  apply memoizedLookup_keepsIndexed.
Qed.

Lemma getNodeByURI_keepsIndexed target st : keepsIndexed st (getNodeByURI target st).2.
Proof.
  unfold getNodeByURI.
  destruct (firstMatch target (uriMap st)) as [mapping|]; [|apply keepsIndexed_refl].
  cbv zeta. destruct (decide _); [apply keepsIndexed_refl|]. cbn [snd].
  by apply wellIndexed_update.
Qed.

Lemma cacheFullURI_keepsIndexed n u st : keepsIndexed st (cacheFullURI n u st).
Proof. by apply wellIndexed_update. Qed.

Lemma resolveNodeURI_keepsIndexed fuel n ctx : keeps keepsIndexed (resolveNodeURI fuel n ctx).
Proof.
  revert n. induction fuel as [|fuel IH]; intros n; [by intros st|].
  pose proof keepsIndexed_refl as Hr. pose proof keepsIndexed_trans as Ht.
  cbn [resolveNodeURI].
  apply keeps_bind; [done | by apply keeps_gets |]. intros d.
  destruct (truthy (AlLocationDescriptor._fullURI d)); [by apply keeps_ret|].
  apply keeps_bind; [done | |].
  - destruct (truthy (AlLocationDescriptor.parentId d)); [|by apply keeps_ret].
    apply keeps_bind; [done | |].
    + apply getNode_keepsIndexed.
    + intros [p|]; [apply IH | by apply keeps_ret].
  - intros uri. apply keeps_bind; [done | by apply keeps_gets |]. intros d'.
    apply keeps_bind; [done | | intros _; by apply keeps_ret].
    apply keeps_modify. intros st. apply cacheFullURI_keepsIndexed.
Qed.

Lemma setContext_keepsIndexed arg st : keepsIndexed st (setContext arg st).
Proof. intros [Hm Hn]. split; [exact Hm|]. intros T r. by cbn. Qed.

Lemma setActingUri_keepsIndexed u st : keepsIndexed st (setActingUri u st).
Proof.
  assert (forall a b s, keepsIndexed s (set_acting a b s)) as Hset by (by intros a b s H).
  destruct u as [|b|s]; [apply Hset | |].
  - unfold setActingUri. destruct (currentLocation st) as [|c s]; [apply keepsIndexed_refl|].
    pose proof (getNodeByURI_keepsIndexed (String c s) st) as Hg.
    destruct (getNodeByURI (String c s) st) as [[a|] st2]; cbn [snd] in Hg.
    + eapply keepsIndexed_trans; [exact Hg|]. eapply keepsIndexed_trans; [apply Hset|].
      apply setContext_keepsIndexed.
    + eapply keepsIndexed_trans; [exact Hg | apply Hset].
  - unfold setActingUri. destruct s as [|c s]; [apply keepsIndexed_refl|].
    pose proof (getNodeByURI_keepsIndexed (String c s) st) as Hg.
    destruct (getNodeByURI (String c s) st) as [[a|] st2]; cbn [snd] in Hg.
    + eapply keepsIndexed_trans; [exact Hg|]. eapply keepsIndexed_trans; [apply Hset|].
      apply setContext_keepsIndexed.
    + eapply keepsIndexed_trans; [exact Hg | apply Hset].
Qed.

Lemma emptyMatrix_wellIndexed h w : wellIndexed (emptyMatrix h w).
Proof. split; [intros k r H; by apply elem_of_nil in H | intros T r H; done]. Qed.

Lemma setLocations_keepsIndexed catalog : keeps keepsIndexed (setLocations catalog).
Proof.
  apply keeps_forEach; [apply keepsIndexed_refl | apply keepsIndexed_trans |].
  apply saveNode_keepsIndexed.
Qed.

Lemma loaded_wellIndexed h w catalog : wellIndexed (loaded h w catalog).
Proof.
  unfold loaded. pose proof (setLocations_keepsIndexed catalog (emptyMatrix h w)) as H.
  pose proof (emptyMatrix_wellIndexed h w) as He.
  destruct (setLocations catalog (emptyMatrix h w)); cbn [stateAfter]; auto.
Qed.

(** The hash index and the memo hold descriptors under their own keys only.
    This holds for a fresh locator and every method keeps it, whether it
    returns or throws: [setLocations], [setContext], [setActingUri],
    [getNode], [getNodeByURI], [resolveNodeURI] and [resolveURL]; so it
    holds after the constructor too. *)
Theorem index_holds_descriptors_under_their_keys :
  (forall h w, wellIndexed (emptyMatrix h w))
  /\ (forall catalog, keeps keepsIndexed (setLocations catalog))
  /\ (forall arg st, keepsIndexed st (setContext arg st))
  /\ (forall u st, keepsIndexed st (setActingUri u st))
  /\ (forall T ctx, keeps keepsIndexed (getNode T ctx))
  /\ (forall target st, keepsIndexed st (getNodeByURI target st).2)
  /\ (forall fuel n ctx, keeps keepsIndexed (resolveNodeURI fuel n ctx))
  /\ (forall fuel T path ctx, keeps keepsIndexed (resolveURL fuel T path ctx))
  /\ (forall h w catalog u ctx,
        wellIndexed (stateAfter (construct h w catalog u ctx) (emptyMatrix h w))).
Proof.
  pose proof keepsIndexed_refl as Hr. pose proof keepsIndexed_trans as Ht.
  pose proof emptyMatrix_wellIndexed as Hempty.
  pose proof setLocations_keepsIndexed as Hload.
  split; [exact Hempty|]. split; [exact Hload|].
  split; [apply setContext_keepsIndexed|]. split; [apply setActingUri_keepsIndexed|].
  split; [apply getNode_keepsIndexed|]. split; [apply getNodeByURI_keepsIndexed|].
  split; [apply resolveNodeURI_keepsIndexed|]. split.
  - intros fuel T path ctx. unfold resolveURL. apply keeps_bind; [done | |].
    + apply getNode_keepsIndexed.
    + intros [k|]; (apply keeps_bind; [done | | intros u; by apply keeps_ret]).
      * apply resolveNodeURI_keepsIndexed.
      * by apply keeps_gets.
  - intros h w catalog u ctx. unfold construct.
    assert (keeps keepsIndexed
              (when (bool_decide (is_Some ctx)) (modify (setContext ctx)) ;;
               when (bool_decide (catalog <> [])) (setLocations catalog) ;;
               match u with
               | UriBoolean _ | UriString (String _ _) => modify (setActingUri u)
               | _ => ret tt
               end)) as Hk.
    { apply keeps_bind; [done | |].
      - apply keeps_when; [done|]. apply keeps_modify. apply setContext_keepsIndexed.
      - intros _. apply keeps_bind; [done | |].
        + apply keeps_when; [done|]. apply Hload.
        + intros _. destruct u as [|b|[|c s]]; try (by apply keeps_ret);
            apply keeps_modify; apply setActingUri_keepsIndexed. }
    specialize (Hk (emptyMatrix h w)).
    match type of Hk with match ?o with _ => _ end => destruct o as [a st'|st'|] end;
      cbn [stateAfter]; [by apply Hk.. | done].
Qed.

(** ** Lookups return the type asked for *)

Lemma hyphenFree_cons c s :
  hyphenFree (String c s) = true -> c <> "-"%char /\ hyphenFree s = true.
Proof.
  unfold hyphenFree. rewrite ascii_in_cons, negb_orb. intros [Hc Hs]%andb_true_iff.
  split; [|done]. intros ->. by rewrite Ascii.eqb_refl in Hc.
Qed.

Lemma keyOf_inj T T' k :
  keyOf T k -> keyOf T' k -> hyphenFree T = true -> hyphenFree T' = true -> T = T'.
Proof.
  intros [x ->] [y E]. revert T' E. induction T as [|c T IH]; intros [|c' T'] E HT HT'.
  - done.
  - rewrite !append_cons, append_nil in E. injection E as <- _.
    by apply hyphenFree_cons in HT' as [? _].
  - rewrite !append_cons, append_nil in E. injection E as -> _.
    by apply hyphenFree_cons in HT as [? _].
  - rewrite !append_cons in E. injection E as <- E.
    apply hyphenFree_cons in HT as [_ HT]. apply hyphenFree_cons in HT' as [_ HT'].
    f_equal. by apply IH.
Qed.

Lemma memoizedLookup_has_key st T ctx n :
  wellIndexed st -> (memoizedLookup T ctx st).1 = Some n ->
  exists k, keyOf T k /\ k ∈ nodeKeys (deref st n).
Proof.
  intros [Hm Hn]. unfold memoizedLookup.
  destruct (nodes st !! T) as [m|] eqn:Em, ctx as [c|]; cbn [fst].
  - destruct (lookupNode st T (Some c)) eqn:El; cbn [fst]; [|done].
    intros [= ->]. apply lookupNode_Some in El as (k & Hk & Hin). eauto.
  - intros [= ->]. by apply Hn.
  - destruct (lookupNode st T (Some c)) eqn:El; cbn [fst]; [|done].
    intros [= ->]. apply lookupNode_Some in El as (k & Hk & Hin). eauto.
  - destruct (lookupNode st T None) eqn:El; cbn [fst]; [|done].
    intros [= ->]. apply lookupNode_Some in El as (k & Hk & Hin). eauto.
Qed.

(** On a sound index, [getNode] returns descriptors of the type asked for,
    as long as neither type id holds a hyphen; the keys join their parts
    with hyphens and do not escape them, so that with a hyphen in a type id
    a lookup can return a descriptor of another type. *)
Theorem getNode_returns_the_type_asked_for :
  (forall (st : AlLocatorMatrix) (T : string) (ctx : option AlLocationContext.t) (n : ref),
     wellIndexed st ->
     hyphenFree T = true ->
     hyphenFree (AlLocationDescriptor.locTypeId (deref st n)) = true ->
     returned (getNode T ctx st) = Some (Some n) ->
     AlLocationDescriptor.locTypeId (deref st n) = T)
  /\ (forall T e r, key3 (T +:+ "-" +:+ e) r "*" = key3 T (e +:+ "-" +:+ r) "*")
  /\ returned (getNode "cd17-accounts" (Some (AlLocationContext.mk (Some "x") None None None))
                 (loaded hyphenHeap None [0])) = Some (Some 0).
Proof.
  split; [|split].
  - intros st T ctx n Hw HT Hd [_ Hg]%getNode_returned. symmetry in Hg.
    apply memoizedLookup_has_key in Hg as (k & Hk & Hin); [|done].
    apply nodeKeys_keyOf in Hin. symmetry. by eapply keyOf_inj.
  - intros T e r. unfold key3. by rewrite !append_assoc.
  - vm_compute. reflexivity.
Qed.

(** Witness: a lookup among the three fallback nodes. *)
Lemma getNode_returns_the_type_asked_for_witness :
  AlLocationDescriptor.locTypeId (deref (loaded fallbackHeap None [0; 1; 2]) 1) = "cd17:accounts".
Proof.
  apply (proj1 getNode_returns_the_type_asked_for (loaded fallbackHeap None [0; 1; 2])
           "cd17:accounts"
           (Some (AlLocationContext.mk (Some "production") (Some "EMEA") None None)) 1);
    [apply loaded_wellIndexed | reflexivity | reflexivity | vm_compute; reflexivity].
Defined.

(** ** A type that no descriptor has *)

(** On a sound index whose memo holds no entry under [hasOwnProperty], a
    type that no descriptor in the store has is not found under any
    context, explicit or ambient, as long as the type ids, the one asked for
    included, hold no hyphen: [getNode] returns [null] and memoizes nothing,
    and [resolveURL] answers with the current location of the page, or
    [http://localhost:9999] outside a browser, followed by the path when
    one is given.  (A reference outside the store reads the blank
    descriptor, whose type id is empty.) *)
Theorem unloaded_type_falls_back
    (st : AlLocatorMatrix) (T : string) (path : option string)
    (ctx : option AlLocationContext.t) (fuel : nat) :
  wellIndexed st ->
  memoShadowed st = false ->
  hyphenFree T = true ->
  (forall r, hyphenFree (AlLocationDescriptor.locTypeId (deref st r)) = true) ->
  (forall r, AlLocationDescriptor.locTypeId (deref st r) <> T) ->
  getNode T ctx st = Ok None st
  /\ resolveURL fuel T path ctx st = Ok (withPath (currentLocation st) path) st.
Proof.
  intros Hw Hsh HT Hh Hno.
  assert ((memoizedLookup T ctx st).1 = None) as Hg.
  { destruct (memoizedLookup T ctx st).1 as [n|] eqn:E; [|done].
    apply memoizedLookup_has_key in E as (k & Hk & Hin); [|done].
    apply nodeKeys_keyOf in Hin. destruct (Hno n). symmetry.
    by eapply keyOf_inj. }
  pose proof (memoizedLookup_miss_keeps _ _ _ Hg) as Hs.
  split.
  - by rewrite getNode_run, Hg, Hs.
  - by rewrite resolveURL_run, Hg, Hs.
Qed.

(** Witness: an asset type asked of the three fallback nodes, in a browser
    at a page under a path. *)
Lemma unloaded_type_falls_back_witness :
  resolveURL 1 "cd17:assets" (Some "/#/x") None
      (loaded fallbackHeap (Some (mkWindowLocation "https://here.example.com" "/app/")) [0; 1; 2])
    = Ok "https://here.example.com/app//#/x"
         (loaded fallbackHeap (Some (mkWindowLocation "https://here.example.com" "/app/")) [0; 1; 2]).
Proof.
  refine (proj2 (unloaded_type_falls_back
            (loaded fallbackHeap (Some (mkWindowLocation "https://here.example.com" "/app/")) [0; 1; 2])
            "cd17:assets" (Some "/#/x") None 1 _ _ _ _ _)).
  - apply loaded_wellIndexed.
  - reflexivity.
  - reflexivity.
  - intros r. do 3 (destruct r as [|r]; [reflexivity|]). reflexivity.
  - intros r. do 3 (destruct r as [|r]; [discriminate|]). discriminate.
Defined.

(** ** The catalog that uiNode generates *)

Lemma isPlain_app a b : isPlain (a +:+ b) = isPlain a && isPlain b.
Proof.
  induction a as [|c a IH]; [done|]. rewrite append_cons. cbn [isPlain].
  by rewrite IH, andb_assoc.
Qed.

Lemma isPlain_digits d : isPlain (NilEmpty.string_of_uint d) = true.
Proof. induction d; cbn [NilEmpty.string_of_uint isPlain]; [done | by rewrite IHd..]. Qed.

(** A port prints as its digits; from 2^53 on the digits stop being exact,
    and from 10^21 on a number prints in exponent notation. *)
Lemma numberToString_examples :
  numberToString 0 = "0"
  /\ numberToString 8888 = "8888"
  /\ numberToString 9007199254740991 = "9007199254740991"
  /\ numberToString 9007199254740993 = "9007199254740992"
  /\ numberToString (2 ^ 60) = "1152921504606847000"
  /\ numberToString (10 ^ 21 - 1) = "1e+21"
  /\ numberToString (10 ^ 21) = "1e+21"
  /\ numberToString (2 ^ 70) = "1.1805916207174113e+21"
  /\ numberToString (2 ^ 1024) = "Infinity".
Proof. vm_compute. repeat split. Qed.

Lemma isPlain_decimal n : isPlain (decimal n) = true.
Proof.
  unfold decimal, NilZero.string_of_uint.
  destruct (N.to_uint n) eqn:E; try (rewrite <- E; apply isPlain_digits). done.
Qed.

(** Below 2^53 a number prints all its digits. *)
Lemma numberToString_safe n : (n < 9007199254740992)%N -> numberToString n = decimal n.
Proof. intros H%N.ltb_lt. unfold numberToString. by rewrite H. Qed.

Lemma isPlain_numberToString n :
  (n < 9007199254740992)%N -> isPlain (numberToString n) = true.
Proof. intros H. rewrite numberToString_safe by done. apply isPlain_decimal. Qed.

Lemma pattern_first_wildcard a b :
  isPlain a = true ->
  escapeLocationPattern (a +:+ "*" +:+ b)
  = "^" +:+ escapeAll a +:+ "[a-zA-Z0-9_]+" +:+ escapeAll b +:+ ".*$".
Proof.
  intros Ha. unfold escapeLocationPattern. cbv zeta.
  change ("*" +:+ b) with (String "*" b).
  rewrite escapeAll_app, escapeAll_star, replaceFirstStar_caret.
  rewrite replaceFirstStar_app by by apply escapeAll_plain.
  rewrite replaceFirstStar_star. by rewrite !append_assoc.
Qed.

(** A pattern whose first wildcard comes after a plain part: the rest is
    scanned as it is. *)
Lemma newRegExp_first_wildcard a b R :
  isPlain a = true ->
  scan Start ("[a-zA-Z0-9_]+" +:+ escapeAll b +:+ ".*$") = Some R ->
  newRegExp (escapeLocationPattern (a +:+ "*" +:+ b)) = Some (Bol :: literals a ++ R).
Proof.
  intros Ha HR. rewrite pattern_first_wildcard by done. unfold newRegExp.
  rewrite append_cons, append_nil. cbn [scan]. unfold startChar. simpl Ascii.eqb. cbv iota.
  by rewrite (scan_escapeAll a _ R).
Qed.

Lemma uiNode_uriWrites T app port :
  isPlain app = true ->
  (port < 9007199254740992)%N ->
  uriWrites (AlLocation.uiNode T app port) [0; 1; 2; 3] = Some (uiUriIndex app port).
Proof.
  intros Happ Hport.
  assert (forall a b, isPlain a = true -> isPlain b = true ->
            newRegExp (escapeLocationPattern (a +:+ app +:+ b))
            = Some (Bol :: literals (a +:+ app +:+ b) ++ openEnd)) as Hplain.
  { intros a b Ha Hb. apply newRegExp_plain. by rewrite !isPlain_app, Ha, Happ, Hb. }
  assert (forall tail R,
            scan Start ("[a-zA-Z0-9_]+" +:+ escapeAll tail +:+ ".*$") = Some R ->
            forall src, src = ("https://" +:+ app +:+ "-") +:+ "*" +:+ tail ->
            newRegExp (escapeLocationPattern src)
            = Some (Bol :: literals ("https://" +:+ app +:+ "-") ++ R)) as Halias.
  { intros tail R HR src ->. apply newRegExp_first_wildcard; [|done].
    by rewrite !isPlain_app, Happ. }
  unfold uriWrites, uiUriIndex.
  change (uriSources (AlLocation.uiNode T app port !!! 0))
    with ["https://console." +:+ app +:+ ".alertlogic.com"].
  change (uriSources (AlLocation.uiNode T app port !!! 1))
    with ["https://console." +:+ app +:+ ".alertlogic.co.uk"].
  change (uriSources (AlLocation.uiNode T app port !!! 2))
    with [ "https://console." +:+ app +:+ ".product.dev.alertlogic.com";
           "https://" +:+ app +:+ ".ui-dev.product.dev.alertlogic.com";
           "https://" +:+ app +:+ "-*.ui-dev.product.dev.alertlogic.com";
           "https://" +:+ app +:+ "-*-*.ui-dev.product.dev.alertlogic.com";
           "https://" +:+ app +:+ "-*-*-*.ui-dev.product.dev.alertlogic.com";
           "https://*.o3-" +:+ app +:+ ".product.dev.alertlogic.com" ].
  change (uriSources (AlLocation.uiNode T app port !!! 3))
    with ["http://localhost:" +:+ numberToString port].
  cbn [compileSources].
  rewrite !Hplain by done.
  rewrite (Halias ".ui-dev.product.dev.alertlogic.com"
             (Rep WordClass OneOrMore
                :: literals ".ui-dev.product.dev.alertlogic.com" ++ openEnd) eq_refl
             ("https://" +:+ app +:+ "-*.ui-dev.product.dev.alertlogic.com"))
    by by rewrite !append_assoc.
  rewrite (Halias "-*.ui-dev.product.dev.alertlogic.com"
             (Rep WordClass OneOrMore :: Rep (Lit "-") ZeroOrMore
                :: literals ".ui-dev.product.dev.alertlogic.com" ++ openEnd) eq_refl
             ("https://" +:+ app +:+ "-*-*.ui-dev.product.dev.alertlogic.com"))
    by by rewrite !append_assoc.
  rewrite (Halias "-*-*.ui-dev.product.dev.alertlogic.com"
             (Rep WordClass OneOrMore :: Rep (Lit "-") ZeroOrMore :: Rep (Lit "-") ZeroOrMore
                :: literals ".ui-dev.product.dev.alertlogic.com" ++ openEnd) eq_refl
             ("https://" +:+ app +:+ "-*-*-*.ui-dev.product.dev.alertlogic.com"))
    by by rewrite !append_assoc.
  assert (newRegExp (escapeLocationPattern
                       ("https://*.o3-" +:+ app +:+ ".product.dev.alertlogic.com"))
          = Some (Bol :: literals "https://"
                       ++ Rep WordClass OneOrMore
                       :: literals (".o3-" +:+ app +:+ ".product.dev.alertlogic.com")
                       ++ openEnd)) as ->.
  { change ("https://*.o3-" +:+ app +:+ ".product.dev.alertlogic.com")
      with ("https://" +:+ "*" +:+ (".o3-" +:+ app +:+ ".product.dev.alertlogic.com")).
    apply newRegExp_one_wildcard; [done|]. by rewrite !isPlain_app, Happ. }
  rewrite (newRegExp_plain ("http://localhost:" +:+ numberToString port)).
  2:{ by rewrite isPlain_app, isPlain_numberToString. }
  reflexivity.
Qed.

Lemma uiNode_loads T app port w :
  isPlain app = true ->
  (port < 9007199254740992)%N ->
  setLocations [0; 1; 2; 3] (emptyMatrix (AlLocation.uiNode T app port) w)
  = Ok tt (loaded (AlLocation.uiNode T app port) w [0; 1; 2; 3])
  /\ uriMap (loaded (AlLocation.uiNode T app port) w [0; 1; 2; 3])
     = applyWrites (uiUriIndex app port) []
  /\ _nodeMap (loaded (AlLocation.uiNode T app port) w [0; 1; 2; 3])
     = applyWrites (nodeWrites (AlLocation.uiNode T app port) [0; 1; 2; 3]) []
  /\ heap (loaded (AlLocation.uiNode T app port) w [0; 1; 2; 3]) = AlLocation.uiNode T app port
  /\ nodes (loaded (AlLocation.uiNode T app port) w [0; 1; 2; 3]) = ∅
  /\ context (loaded (AlLocation.uiNode T app port) w [0; 1; 2; 3]) = defaultContext.
Proof.
  intros Happ Hport. unfold loaded.
  pose proof (setLocations_spec [0; 1; 2; 3] (emptyMatrix (AlLocation.uiNode T app port) w)) as H.
  cbn [heap emptyMatrix] in H. rewrite uiNode_uriWrites in H by done. rewrite H.
  by cbn [stateAfter].
Qed.

(** When two keys of one type are the same. *)
Lemma split_unique e r e' r' :
  hyphenFree e' = true -> hyphenFree r' = true ->
  e +:+ "-" +:+ r = e' +:+ "-" +:+ r' -> e = e' /\ r = r'.
Proof.
  intros He' Hr'. revert e'  He'. induction e as [|c e IH]; intros [|c' e'] He' E;
    app_norm_in E.
  - by injection E as ->.
  - injection E as <- _. by apply hyphenFree_cons in He' as [? _].
  - injection E as -> E. exfalso.
    assert (ascii_in "-" r' = true) as Hin.
    { rewrite <- E, ascii_in_app, ascii_in_cons. cbn. apply orb_true_r. }
    unfold hyphenFree in Hr'. by rewrite Hin in Hr'.
  - injection E as <- E.
    apply hyphenFree_cons in He' as [_ He']. destruct (IH e' He' E) as [-> ->]. done.
Qed.

Lemma key3_eq_iff T e r e' r' :
  hyphenFree e' = true -> hyphenFree r' = true ->
  key3 T e r = key3 T e' r' <-> e = e' /\ r = r'.
Proof.
  intros He' Hr'. split; [|by intros [-> ->]]. unfold key3.
  intros H%append_inj_l. change ("-" +:+ e +:+ "-" +:+ r) with (String "-" (e +:+ "-" +:+ r)) in H.
  change ("-" +:+ e' +:+ "-" +:+ r') with (String "-" (e' +:+ "-" +:+ r')) in H.
  injection H as H. by apply split_unique.
Qed.

Lemma key3_ne_written T e r e' r' :
  hyphenFree e' = true -> hyphenFree r' = true ->
  ~ (e = e' /\ r = r') -> key3 T e' r' <> key3 T e r.
Proof. intros He' Hr' Hne H. symmetry in H. by apply key3_eq_iff in H. Qed.

(** The hash index of a locator loaded with the descriptors of a UI. *)
Lemma uiNode_index T app port w e r :
  isPlain app = true ->
  (port < 9007199254740992)%N ->
  dict_get (key3 T e r) (_nodeMap (loaded (AlLocation.uiNode T app port) w [0; 1; 2; 3]))
  = if decide (e = "*" /\ r = "*") then Some 3
    else if decide (e = "development" /\ r = "*") then Some 3
    else if decide (e = "integration" /\ r = "*") then Some 2
    else if decide (e = "production" /\ r = "*") then Some 1
    else if decide (e = "production" /\ r = "EMEA") then Some 1
    else if decide (e = "production" /\ r = "US") then Some 0
    else None.
Proof.
  intros Happ Hbound. destruct (uiNode_loads T app port w Happ Hbound) as (_ & _ & -> & _).
  change (nodeWrites (AlLocation.uiNode T app port) [0; 1; 2; 3])
    with [ (key3 T "production" "US", 0); (key3 T "production" "*", 0); (key3 T "*" "*", 0);
           (key3 T "production" "EMEA", 1); (key3 T "production" "*", 1); (key3 T "*" "*", 1);
           (key3 T "integration" "*", 2); (key3 T "*" "*", 2);
           (key3 T "development" "*", 3); (key3 T "*" "*", 3) ].
  unfold applyWrites. cbn [fold_left fst snd].
  repeat (case_decide;
          [match goal with H : _ /\ _ |- _ => destruct H as [-> ->] end;
           repeat first [ rewrite dict_get_set_eq; reflexivity
                        | rewrite dict_get_set_ne
                            by (apply key3_ne_written; [reflexivity..|];
                                intros [? ?]; discriminate) ]
          |]).
  repeat (rewrite dict_get_set_ne by (by apply key3_ne_written)).
  reflexivity.
Qed.

Lemma uiNode_lookup T app port w ctx e r :
  isPlain app = true ->
  (port < 9007199254740992)%N ->
  effective AlLocationContext.environment ctx
    (loaded (AlLocation.uiNode T app port) w [0; 1; 2; 3]) = Some e ->
  effective AlLocationContext.residency ctx
    (loaded (AlLocation.uiNode T app port) w [0; 1; 2; 3]) = Some r ->
  truthy (Some e) = true -> truthy (Some r) = true ->
  ctx ≫= AlLocationContext.insightLocationId = None ->
  ctx ≫= AlLocationContext.accessible = None ->
  lookupNode (loaded (AlLocation.uiNode T app port) w [0; 1; 2; 3]) T ctx
  = Some (uiNodeFor e r).
Proof.
  intros Happ Hbound He Hr Hte Htr Hi Ha.
  destruct (uiNode_loads T app port w Happ Hbound) as (_ & _ & _ & _ & _ & Hctx).
  rewrite lookupNode_order. cbv zeta. rewrite He, Hr.
  assert (effective AlLocationContext.insightLocationId ctx
            (loaded (AlLocation.uiNode T app port) w [0; 1; 2; 3]) = None) as ->.
  { unfold effective. by rewrite Hi, Hctx. }
  assert (accessibleHits (loaded (AlLocation.uiNode T app port) w [0; 1; 2; 3]) T ctx = [])
    as ->.
  { unfold accessibleHits, effectiveAccessible. by rewrite Ha, Hctx. }
  rewrite Hte, Htr. cbn [truthy andb last tpl from_option id].
  rewrite !uiNode_index by assumption.
  clear Hctx He Hr Hte Htr Hi Ha Happ Hbound.
  unfold uiNodeFor.
  assert (forall (P : Prop) `{Decision P} (A : Type) (x y : A),
            ~ P -> (if decide P then x else y) = y) as Hno.
  { intros P ? A x y HP. by rewrite decide_False. }
  assert (forall (P : Prop) `{Decision P} (A : Type) (x y : A),
            P -> (if decide P then x else y) = x) as Hyes.
  { intros P ? A x y HP. by rewrite decide_True. }
  destruct (decide (e = "production")) as [->|He];
    [|destruct (decide (e = "integration")) as [->|Hi];
      [|destruct (decide (e = "development")) as [->|Hd];
        [|destruct (decide (e = "*")) as [->|He']]]];
    (destruct (decide (r = "US")) as [->|Hus];
     [|destruct (decide (r = "EMEA")) as [->|Hemea];
       [|destruct (decide (r = "*")) as [->|Hstar]]]);
    rewrite ?Hno by (intros [? ?]; congruence); reflexivity.
Qed.

Lemma uiNode_resolveNodeURI T app port fuel n st :
  heap st = AlLocation.uiNode T app port ->
  n < 4 ->
  returned (resolveNodeURI (S fuel) n None st)
  = Some (AlLocationDescriptor.uri (AlLocation.uiNode T app port !!! n)).
Proof.
  intros Hh Hn.
  assert (deref st n = AlLocation.uiNode T app port !!! n) as Hd
    by (unfold deref; by rewrite Hh).
  assert (truthy (AlLocationDescriptor._fullURI (deref st n)) = false
          /\ truthy (AlLocationDescriptor.parentId (deref st n)) = false
          /\ AlLocationDescriptor.uri (deref st n) <> EmptyString
          /\ String.prefix "http" (AlLocationDescriptor.uri (deref st n)) = true)
    as (H1 & H2 & H3 & H4).
  { rewrite Hd. clear Hd Hh. destruct n as [|[|[|[|n]]]]; [| | | |lia];
      (split; [reflexivity|]; split; [reflexivity|]; split; [discriminate | reflexivity]). }
  rewrite resolveNodeURI_parentless by assumption. cbv zeta. rewrite H4.
  cbn [returned]. by rewrite Hd.
Qed.

Lemma uiNodeFor_lt e r : uiNodeFor e r < 4.
Proof. unfold uiNodeFor. repeat case_decide; lia. Qed.

(** A fresh locator loads the descriptors [uiNode] generates for an
    application code without [*], [+] and [?].  A context with an
    environment and a residency then resolves the type to the US console
    for production in US, to the EMEA console for production in any other
    residency, to the integration console for integration, and to localhost
    at the development port for every other environment; without a context
    argument it resolves to the US console. *)
Theorem uiNode_resolves
    (T app : string) (devPort : N) (w : option WindowLocation) (fuel : nat)
    (e r : string) (path : option string) :
  isPlain app = true ->
  (devPort < 9007199254740992)%N ->
  truthy (Some e) = true ->
  truthy (Some r) = true ->
  returned (setLocations [0; 1; 2; 3] (emptyMatrix (AlLocation.uiNode T app devPort) w))
  = Some tt
  /\ returned (resolveURL (S fuel) T path
                 (Some (AlLocationContext.mk (Some e) (Some r) None None))
                 (loaded (AlLocation.uiNode T app devPort) w [0; 1; 2; 3]))
     = Some (withPath
               (if decide (e = "production")
                then (if decide (r = "US")
                      then "https://console." +:+ app +:+ ".alertlogic.com"
                      else "https://console." +:+ app +:+ ".alertlogic.co.uk")
                else if decide (e = "integration")
                     then "https://console." +:+ app +:+ ".product.dev.alertlogic.com"
                     else "http://localhost:" +:+ numberToString devPort)
               path)
  /\ returned (resolveURL (S fuel) T path None
                 (loaded (AlLocation.uiNode T app devPort) w [0; 1; 2; 3]))
     = Some (withPath ("https://console." +:+ app +:+ ".alertlogic.com") path).
Proof.
  intros Happ Hbound He Hr.
  destruct (uiNode_loads T app devPort w Happ Hbound)
    as (Hload & _ & _ & Hheap & Hnodes & Hctx).
  split; [by rewrite Hload|]. clear Hload.
  assert (memoShadowed (loaded (AlLocation.uiNode T app devPort) w [0; 1; 2; 3]) = false)
    as Hsh by (apply memoShadowed_false; rewrite Hnodes; apply lookup_empty).
  pose proof (uiNode_lookup T app devPort w
                (Some (AlLocationContext.mk (Some e) (Some r) None None)) e r Happ Hbound)
    as Hl1.
  pose proof (uiNode_lookup T app devPort w None "production" "US" Happ Hbound) as Hl2.
  unfold effective in Hl1, Hl2. rewrite Hctx in Hl1, Hl2.
  cbn [mbind option_bind AlLocationContext.environment AlLocationContext.residency
       AlLocationContext.insightLocationId AlLocationContext.accessible defaultContext]
    in Hl1, Hl2.
  unfold orElse in Hl1, Hl2. rewrite He, Hr in Hl1. cbn [truthy] in Hl2.
  specialize (Hl1 eq_refl eq_refl eq_refl eq_refl eq_refl eq_refl).
  specialize (Hl2 eq_refl eq_refl eq_refl eq_refl eq_refl eq_refl).
  clear Hctx. set (st := loaded _ _ _) in *. clearbody st.
  assert (forall ctx n,
            (memoizedLookup T ctx st).1 = Some n -> n < 4 ->
            returned (resolveURL (S fuel) T path ctx st)
            = Some (withPath (AlLocationDescriptor.uri (AlLocation.uiNode T app devPort !!! n))
                      path)) as Hres.
  { intros ctx n Hg Hn. rewrite resolveURL_run, Hg by done.
    pose proof (uiNode_resolveNodeURI T app devPort fuel n (memoizedLookup T ctx st).2) as Hu.
    rewrite memoizedLookup_heap in Hu. specialize (Hu Hheap Hn).
    destruct (resolveNodeURI (S fuel) n None _) as [u st'| |]; [|discriminate..].
    cbn [returned] in *. by injection Hu as ->. }
  split.
  - rewrite (Hres _ (uiNodeFor e r)); [| |apply uiNodeFor_lt].
    + unfold uiNodeFor. by repeat case_decide.
    + rewrite memoizedLookup_explicit. exact Hl1.
  - rewrite (Hres None 0); [reflexivity | | lia].
    rewrite memoizedLookup_memo_miss by by rewrite Hnodes. exact Hl2.
Qed.

(** Witness: the accounts UI in an environment that is not declared. *)
Lemma uiNode_resolves_witness :
  returned (resolveURL 1 AlLocation.AccountsUI (Some "/#/users")
              (Some (AlLocationContext.mk (Some "staging") (Some "US") None None))
              (loaded (AlLocation.uiNode AlLocation.AccountsUI "account" 8002) None
                 [0; 1; 2; 3]))
  = Some "http://localhost:8002/#/users".
Proof.
  destruct (uiNode_resolves AlLocation.AccountsUI "account" 8002 None 0 "staging" "US"
              (Some "/#/users")) as (_ & H & _); [reflexivity..|].
  rewrite H. vm_compute. reflexivity.
Defined.

(** ** From the generated URLs back to the nodes *)

Lemma applyWrites_fresh {V} (ws m : Dict V) :
  NoDup (m.*1 ++ ws.*1) -> applyWrites ws m = m ++ ws.
Proof.
  revert m. induction ws as [|[k v] ws IH]; intros m Hnd.
  - by rewrite app_nil_r.
  - rewrite applyWrites_cons, dict_set_fresh.
    + rewrite IH; [by rewrite <- app_assoc|].
      rewrite fmap_app. cbn [fmap list_fmap fst]. by rewrite <- app_assoc.
    + cbn [fmap list_fmap fst] in Hnd. apply NoDup_app in Hnd as (_ & Hd & _).
      intros Hin. apply (Hd k Hin). apply list_elem_of_here.
Qed.

Lemma literals_prefix a R f t :
  matchTerms (literals a ++ R) f t = true -> exists t', t = a +:+ t'.
Proof.
  revert f t. induction a as [|c a IH]; intros f t; [by exists t|].
  cbn [literals app matchTerms]. destruct t as [|x t]; [done|].
  cbn [accepts]. intros [->%Ascii.eqb_eq (t' & ->)%IH]%andb_true_iff. by exists t'.
Qed.

Lemma test_prefix a R t :
  test (Bol :: literals a ++ R) t = true -> exists t', t = a +:+ t'.
Proof. rewrite test_anchored. apply literals_prefix. Qed.

Lemma pattern_plain u :
  isPlain u = true -> escapeLocationPattern u = "^" +:+ escapeAll u +:+ ".*$".
Proof.
  intros Hu. unfold escapeLocationPattern. cbv zeta.
  rewrite replaceFirstStar_caret, replaceFirstStar_plain by by apply escapeAll_plain.
  by rewrite append_assoc.
Qed.

Lemma count_occ_string c a b :
  count_occ ascii_dec (String.list_ascii_of_string (a +:+ b)) c
  = count_occ ascii_dec (String.list_ascii_of_string a) c
    + count_occ ascii_dec (String.list_ascii_of_string b) c.
Proof.
  induction a as [|x a IH]; [done|]. rewrite append_cons. cbn [String.list_ascii_of_string].
  cbn [count_occ]. rewrite IH. by destruct (ascii_dec x c).
Qed.

Ltac pattern_ne :=
  let H := fresh in
  intros H;
  first
    [ by (apply (f_equal String.length) in H; rewrite !append_length in H; simpl in H; lia)
    | by (simpl escapeAll in H; rewrite ?append_assoc in H; app_norm_in H; discriminate H)
    | by (apply (f_equal (fun s => count_occ ascii_dec (String.list_ascii_of_string s)
                                     "c"%char)) in H;
          rewrite !count_occ_string in H; simpl in H; lia) ].

Lemma uiNode_uriMap T code port w :
  isPlain code = true ->
  (port < 9007199254740992)%N ->
  uriMap (loaded (AlLocation.uiNode T code port) w [0; 1; 2; 3]) = uiUriIndex code port.
Proof.
  intros Happ Hbound. destruct (uiNode_loads T code port w Happ Hbound) as (_ & -> & _).
  rewrite applyWrites_fresh; [done|]. cbn [fmap list_fmap app].
  unfold uiUriIndex. cbn [fmap list_fmap fst].
  assert (isPlain (numberToString port) = true) as Hport by by apply isPlain_numberToString.
  clear Hbound.
  rewrite !pattern_plain by (by rewrite ?isPlain_app, ?Happ, ?Hport).
  rewrite (pattern_plain ("http://localhost:" +:+ numberToString port))
    by (by rewrite ?isPlain_app, ?Hport).
  assert (forall tail src,
            src = ("https://" +:+ code +:+ "-") +:+ "*" +:+ tail ->
            escapeLocationPattern src
            = "^" +:+ escapeAll ("https://" +:+ code +:+ "-") +:+ "[a-zA-Z0-9_]+"
              +:+ escapeAll tail +:+ ".*$") as Halias.
  { intros tail src ->. apply pattern_first_wildcard. by rewrite !isPlain_app, Happ. }
  rewrite (Halias ".ui-dev.product.dev.alertlogic.com"
             ("https://" +:+ code +:+ "-*" +:+ ".ui-dev.product.dev.alertlogic.com"))
    by by rewrite !append_assoc.
  rewrite (Halias "-*.ui-dev.product.dev.alertlogic.com"
             ("https://" +:+ code +:+ "-*-*" +:+ ".ui-dev.product.dev.alertlogic.com"))
    by by rewrite !append_assoc.
  rewrite (Halias "-*-*.ui-dev.product.dev.alertlogic.com"
             ("https://" +:+ code +:+ "-*-*-*" +:+ ".ui-dev.product.dev.alertlogic.com"))
    by by rewrite !append_assoc.
  change ("https://*.o3-" +:+ code +:+ ".product.dev.alertlogic.com")
    with ("https://" +:+ "*" +:+ (".o3-" +:+ code +:+ ".product.dev.alertlogic.com")).
  rewrite (pattern_first_wildcard "https://") by done.
  rewrite !escapeAll_app. clear Halias Happ Hport.
  generalize (escapeAll code) as E. generalize (escapeAll (numberToString port)) as P.
  intros P E.
  repeat (apply NoDup_cons; split;
          [repeat (apply not_elem_of_cons; split; [pattern_ne|]); apply not_elem_of_nil|]).
  apply NoDup_nil_2.
Qed.

Lemma test_miss a R t :
  (forall t', t <> a +:+ t') -> test (Bol :: literals a ++ R) t = false.
Proof.
  intros H. apply not_true_is_false. intros (t' & E)%test_prefix. by apply (H t').
Qed.

Lemma test_hit u rest :
  noLineTerminator rest = true -> test (Bol :: literals u ++ openEnd) (u +:+ rest) = true.
Proof. intros H. apply test_plain. by exists rest. Qed.

Ltac other_prefix :=
  let t := fresh in let H := fresh in
  intros t H; rewrite ?append_assoc in H; repeat apply append_inj_l in H;
  app_norm_in H; discriminate H.

Lemma uiNode_getNodeByURI T code devPort w rest :
  isPlain code = true ->
  (devPort < 9007199254740992)%N ->
  noLineTerminator rest = true ->
  (getNodeByURI (("https://console." +:+ code +:+ ".alertlogic.com") +:+ rest)
     (loaded (AlLocation.uiNode T code devPort) w [0; 1; 2; 3])).1 = Some 0
  /\ (getNodeByURI (("https://console." +:+ code +:+ ".alertlogic.co.uk") +:+ rest)
        (loaded (AlLocation.uiNode T code devPort) w [0; 1; 2; 3])).1 = Some 1
  /\ (getNodeByURI (("https://console." +:+ code +:+ ".product.dev.alertlogic.com") +:+ rest)
        (loaded (AlLocation.uiNode T code devPort) w [0; 1; 2; 3])).1 = Some 2
  /\ (getNodeByURI (("http://localhost:" +:+ numberToString devPort) +:+ rest)
        (loaded (AlLocation.uiNode T code devPort) w [0; 1; 2; 3])).1 = Some 3.
Proof.
  intros Hcode Hbound Hrest.
  assert (forall target n,
            (exists m, firstMatch target (uiUriIndex code devPort) = Some m /\ location m = n) ->
            (getNodeByURI target (loaded (AlLocation.uiNode T code devPort) w [0; 1; 2; 3])).1
            = Some n) as Hfind.
  { intros target n (m & Hm & <-). unfold getNodeByURI. rewrite uiNode_uriMap by done.
    rewrite Hm. cbv zeta. by destruct (decide _). }
  unfold uiUriIndex in Hfind. cbv zeta in Hfind. cbn [firstMatch matcher] in Hfind.
  split; [|split; [|split]]; apply Hfind; clear Hfind.
  - rewrite test_hit by done. by eexists.
  - rewrite test_miss by other_prefix. rewrite test_hit by done. by eexists.
  - rewrite !test_miss by other_prefix. rewrite test_hit by done. by eexists.
  - rewrite !test_miss by other_prefix. rewrite test_hit by done. by eexists.
Qed.

(** The URLs of the four descriptors [uiNode] generates lead back to them:
    on a fresh locator loaded with them, [getNodeByURI] maps every URL that
    starts with the URI of one of the four, and holds no line terminator
    after it, to that descriptor. *)
Theorem uiNode_urls_lead_back
    (T code : string) (devPort : N) (w : option WindowLocation) (n : ref) (rest : string) :
  isPlain code = true ->
  (devPort < 9007199254740992)%N ->
  noLineTerminator rest = true ->
  n < 4 ->
  (getNodeByURI (AlLocationDescriptor.uri (AlLocation.uiNode T code devPort !!! n) +:+ rest)
     (loaded (AlLocation.uiNode T code devPort) w [0; 1; 2; 3])).1 = Some n.
Proof.
  intros Hcode Hbound Hrest Hn.
  destruct (uiNode_getNodeByURI T code devPort w rest Hcode Hbound Hrest)
    as (H0 & H1 & H2 & H3).
  destruct n as [|[|[|[|n]]]]; [exact H0 | exact H1 | exact H2 | exact H3 | lia].
Qed.

(** Witness: a URL of the EMEA console of the accounts UI. *)
Lemma uiNode_urls_lead_back_witness :
  (getNodeByURI ("https://console.account.alertlogic.co.uk" +:+ "/#/users")
     (loaded (AlLocation.uiNode AlLocation.AccountsUI "account" 8002) None [0; 1; 2; 3])).1
  = Some 1.
Proof.
  apply (uiNode_urls_lead_back AlLocation.AccountsUI "account" 8002 None 1 "/#/users");
    [reflexivity | reflexivity | reflexivity | lia].
Defined.

(** ** A locator constructed where a generated UI runs *)

Lemma lookupNode_same st st' T ctx ctx' :
  _nodeMap st = _nodeMap st' ->
  effective AlLocationContext.environment ctx st
  = effective AlLocationContext.environment ctx' st' ->
  effective AlLocationContext.residency ctx st
  = effective AlLocationContext.residency ctx' st' ->
  effective AlLocationContext.insightLocationId ctx st
  = effective AlLocationContext.insightLocationId ctx' st' ->
  effectiveAccessible ctx st = effectiveAccessible ctx' st' ->
  lookupNode st T ctx = lookupNode st' T ctx'.
Proof.
  intros Hm He Hr Hi Ha. rewrite !lookupNode_order. cbv zeta.
  unfold accessibleHits. by rewrite Hm, He, Hr, Hi, Ha.
Qed.

Lemma dropTrailingSlash_nonempty c s :
  c <> "/"%char -> dropTrailingSlash (String c s) <> EmptyString.
Proof.
  intros Hc. unfold dropTrailingSlash. cbn [String.length]. case_match eqn:E; [|done].
  apply andb_true_iff in E as [_ E]. apply bool_decide_eq_true in E.
  destruct s as [|x s]; [cbn in E; congruence|].
  cbn [String.length]. replace (S (S (String.length s)) - 1) with (S (String.length s)) by lia.
  done.
Qed.

Lemma getBaseUrl_nonempty c s :
  c <> "#"%char -> c <> "?"%char -> c <> "/"%char -> getBaseUrl (String c s) <> EmptyString.
Proof.
  intros H1 H2 H3. unfold getBaseUrl. rewrite chopAt_cons_ne by done.
  rewrite chopAt_cons_ne by done. by apply dropTrailingSlash_nonempty.
Qed.

(** The state [setActingUri] leaves when [getNodeByURI] finds a node. *)
Lemma setActingUri_found c s st a :
  (getNodeByURI (String c s) st).1 = Some a ->
  setActingUri (UriString (String c s)) st
  = setContext
      (Some (AlLocationContext.mk
               (orElse (AlLocationDescriptor.environment (deref st a))
                       (AlLocationContext.environment (context st)))
               (orElse (AlLocationDescriptor.residency (deref st a))
                       (AlLocationContext.residency (context st)))
               None None))
      (set_acting (Some (String c s)) (Some a) (getNodeByURI (String c s) st).2).
Proof.
  intros Ha. unfold setActingUri.
  pose proof (getNodeByURI_keeps_coordinates (String c s) st a) as [He Hr].
  assert (context (getNodeByURI (String c s) st).2 = context st) as Hctx.
  { unfold getNodeByURI. destruct (firstMatch _ _); [|done]. cbv zeta. by destruct (decide _). }
  destruct (getNodeByURI (String c s) st) as [found st2]. cbn [fst snd] in *. subst found.
  change (deref (set_acting (Some (String c s)) (Some a) st2) a) with (deref st2 a).
  change (context (set_acting (Some (String c s)) (Some a) st2)) with (context st2).
  by rewrite He, Hr, Hctx.
Qed.

Lemma getNodeByURI_index target st :
  _nodeMap (getNodeByURI target st).2 = _nodeMap st
  /\ context (getNodeByURI target st).2 = context st
  /\ length (heap (getNodeByURI target st).2) = length (heap st).
Proof.
  unfold getNodeByURI. destruct (firstMatch _ _); [|done]. cbv zeta.
  destruct (decide _); [done|]. cbn [snd]. repeat split. unfold set_heap. cbn [heap].
  apply length_insert.
Qed.

Lemma getNodeByURI_resolves target st n fuel ctx :
  (getNodeByURI target st).1 = Some n ->
  n < length (heap st) ->
  getBaseUrl target <> EmptyString ->
  truthy (AlLocationDescriptor._fullURI (deref st n)) = false ->
  truthy (AlLocationDescriptor.parentId (deref st n)) = false ->
  String.prefix "http" (AlLocationDescriptor.uri (deref st n)) = true ->
  forall st',
    heap st' = heap (getNodeByURI target st).2 ->
    returned (resolveNodeURI (S fuel) n ctx st') = Some (getBaseUrl target).
Proof.
  intros Hn Hl Hb Hf Hp Hh st' Hheap. revert Hn Hheap. unfold getNodeByURI.
  destruct (firstMatch target (uriMap st)) as [mapping|]; [|done]. cbv zeta.
  destruct (decide _) as [Heq|Hne]; cbn [fst snd]; intros [= <-] Hheap.
  - assert (deref st' (location mapping) = deref st (location mapping)) as Hd
      by (unfold deref; by rewrite Hheap).
    rewrite resolveNodeURI_parentless; rewrite ?Hd; try done.
    + cbv zeta. by rewrite Hh, Heq.
    + intros E. rewrite E in Heq. done.
  - assert (deref st' (location mapping)
            = AlLocationDescriptor.with_uri (getBaseUrl target) (Some (getBaseUrl target))
                (deref st (location mapping))) as Hd.
    { unfold deref. rewrite Hheap. unfold set_heap. cbn [heap].
      by rewrite list_lookup_total_insert_eq. }
    rewrite resolveNodeURI_cached; rewrite Hd; cbn; [done|].
    by destruct (getBaseUrl target).
Qed.

(** A locator constructed with the descriptors [uiNode] generates and with
    an acting URL under the URI of one of them: the constructor returns,
    that descriptor is the acting node, lookups of the type without context
    find it, and the type resolves to the base of the acting URL. *)
Theorem uiNode_acting_application
    (T code : string) (devPort : N) (w : option WindowLocation) (n : ref) (rest : string)
    (fuel : nat) :
  isPlain code = true ->
  (devPort < 9007199254740992)%N ->
  noLineTerminator rest = true ->
  n < 4 ->
  let target := AlLocationDescriptor.uri (AlLocation.uiNode T code devPort !!! n) +:+ rest in
  let made := construct (AlLocation.uiNode T code devPort) w [0; 1; 2; 3]
                (UriString target) None in
  let st := stateAfter made (emptyMatrix (AlLocation.uiNode T code devPort) w) in
  returned made = Some tt
  /\ actingUri st = Some target
  /\ getActingNode st = Some n
  /\ AlLocationContext.environment (getContext st)
     = AlLocationDescriptor.environment (AlLocation.uiNode T code devPort !!! n)
  /\ returned (getNode T None st) = Some (Some n)
  /\ returned (resolveURL (S fuel) T None None st) = Some (getBaseUrl target).
Proof.
  intros Hcode Hbound Hrest Hn target made st.
  destruct (uiNode_loads T code devPort w Hcode Hbound)
    as (Hload & _ & _ & Hheap & Hnodes & Hctx).
  pose proof (uiNode_getNodeByURI T code devPort w rest Hcode Hbound Hrest) as Hfind.
  set (h := AlLocation.uiNode T code devPort) in *.
  set (st1 := loaded h w [0; 1; 2; 3]) in *.
  assert ((getNodeByURI target st1).1 = Some n) as Hfound.
  { subst target. destruct Hfind as (H0 & H1 & H2 & H3).
    destruct n as [|[|[|[|n]]]]; [exact H0 | exact H1 | exact H2 | exact H3 | lia]. }
  assert (exists c s, target = String c s /\ c <> "#"%char /\ c <> "?"%char /\ c <> "/"%char)
    as (c & s & Et & Hc1 & Hc2 & Hc3).
  { subst target h. destruct n as [|[|[|[|n]]]]; [| | | |lia];
      (eexists "h"%char, _; split; [reflexivity|]; by repeat split). }
  assert (made = Ok tt (setActingUri (UriString target) st1)) as Hmade.
  { subst made. unfold construct. rewrite Et. cbn [bool_decide decide_rel]. unfold bind, when.
    rewrite bool_decide_eq_false_2 by (by intros [x Hx]).
    rewrite bool_decide_eq_true_2 by done. unfold ret. fold h. rewrite Hload. reflexivity. }
  assert (st = setActingUri (UriString target) st1) as Hst by (subst st; by rewrite Hmade).
  clearbody made st. subst made st. clear Hload Hfind.
  pose proof (getNodeByURI_index target st1) as (Hm2 & Hc2' & Hl2).
  pose proof (getNodeByURI_keeps_coordinates target st1 n) as _.
  rewrite Et in *. rewrite (setActingUri_found c s st1 n Hfound).
  set (arg := Some (AlLocationContext.mk _ _ None None)).
  set (st3 := set_acting _ _ _).
  assert (deref st1 n = h !!! n) as Hd by (unfold deref; by rewrite Hheap).
  assert (context (setContext arg st3)
          = AlLocationContext.mk
              (AlLocationDescriptor.environment (h !!! n))
              (orElse (AlLocationDescriptor.residency (h !!! n)) (Some "US")) None None) as Hcf.
  { change (context (setContext arg st3)) with (normalizeContext (mergeContext arg st3)).
    rewrite normalizeContext_inactive.
    - rewrite mergeContext_fields. cbv zeta.
      change (context st3) with (context (getNodeByURI (String c s) st1).2).
      rewrite Hc2', Hctx. subst arg. rewrite Hd, Hctx.
      cbn [mbind option_bind AlLocationContext.environment AlLocationContext.residency
           AlLocationContext.insightLocationId AlLocationContext.accessible defaultContext].
      unfold boundResidency. cbn [orElse truthy]. 
      subst h. clear -Hn. destruct n as [|[|[|[|n]]]]; [reflexivity..|lia].
    - left. rewrite mergeContext_fields. cbv zeta.
      change (context st3) with (context (getNodeByURI (String c s) st1).2).
      rewrite Hc2', Hctx. reflexivity. }
  assert (lookupNode (setContext arg st3) T None = Some n) as Hlook.
  { rewrite (lookupNode_same _ st1 T None
               (Some (AlLocationContext.mk
                        (AlLocationDescriptor.environment (h !!! n))
                        (orElse (AlLocationDescriptor.residency (h !!! n)) (Some "US"))
                        None None))).
    - assert (forall e r,
                effective AlLocationContext.environment
                  (Some (AlLocationContext.mk (Some e) (Some r) None None)) st1 = Some e
                /\ effective AlLocationContext.residency
                     (Some (AlLocationContext.mk (Some e) (Some r) None None)) st1 = Some r
                -> truthy (Some e) = true -> truthy (Some r) = true
                -> lookupNode st1 T (Some (AlLocationContext.mk (Some e) (Some r) None None))
                   = Some (uiNodeFor e r)) as Hui.
      { intros e r [He Hr] Hte Htr. by apply uiNode_lookup. }
      assert (forall e r, truthy (Some e) = true -> truthy (Some r) = true ->
                effective AlLocationContext.environment
                  (Some (AlLocationContext.mk (Some e) (Some r) None None)) st1 = Some e
                /\ effective AlLocationContext.residency
                     (Some (AlLocationContext.mk (Some e) (Some r) None None)) st1 = Some r)
        as Heff.
      { intros e r He Hr. unfold effective. cbn [mbind option_bind
          AlLocationContext.environment AlLocationContext.residency].
        unfold orElse. by rewrite He, Hr. }
      subst h. clear -Hn Hui Heff. destruct n as [|[|[|[|n]]]]; [| | | |lia].
      + apply (Hui "production" "US"); [by apply Heff | done..].
      + apply (Hui "production" "EMEA"); [by apply Heff | done..].
      + apply (Hui "integration" "US"); [by apply Heff | done..].
      + apply (Hui "development" "US"); [by apply Heff | done..].
    - exact Hm2.
    - unfold effective. rewrite Hcf, Hctx. subst h. clear -Hn.
      destruct n as [|[|[|[|n]]]]; [reflexivity..|lia].
    - unfold effective. rewrite Hcf, Hctx. subst h. clear -Hn.
      destruct n as [|[|[|[|n]]]]; [reflexivity..|lia].
    - unfold effective. rewrite Hcf, Hctx. reflexivity.
    - unfold effectiveAccessible. rewrite Hcf, Hctx. reflexivity. }
  assert ((memoizedLookup T None (setContext arg st3)).1 = Some n) as Hg.
  { rewrite memoizedLookup_memo_miss by done. exact Hlook. }
  split; [done|]. split; [done|]. split; [done|].
  split; [unfold getContext; by rewrite Hcf|]. split.
  { rewrite getNode_run by apply setContext_unshadowed. cbn [returned]. by rewrite Hg. }
  rewrite resolveURL_run, Hg by apply setContext_unshadowed.
  pose proof (getNodeByURI_resolves (String c s) st1 n fuel None Hfound) as Hres.
  assert (truthy (AlLocationDescriptor._fullURI (h !!! n)) = false
          /\ truthy (AlLocationDescriptor.parentId (h !!! n)) = false
          /\ String.prefix "http" (AlLocationDescriptor.uri (h !!! n)) = true)
    as (H1 & H2 & H3).
  { subst h. clear -Hn. destruct n as [|[|[|[|n]]]]; [| | | |lia]; by repeat split. }
  rewrite Hd, Hheap in Hres.
  specialize (Hres Hn (getBaseUrl_nonempty c s Hc1 Hc2 Hc3) H1 H2 H3
                (memoizedLookup T None (setContext arg st3)).2).
  rewrite memoizedLookup_heap in Hres. specialize (Hres eq_refl).
  destruct (resolveNodeURI (S fuel) n None _) as [u st'| |]; [|discriminate..].
  cbn [returned] in *. injection Hres as ->. reflexivity.
Qed.

(** Witness: the accounts UI running on the integration console. *)
Lemma uiNode_acting_application_witness :
  returned
    (resolveURL 1 AlLocation.AccountsUI None None
       (stateAfter
          (construct (AlLocation.uiNode AlLocation.AccountsUI "account" 8002) None [0; 1; 2; 3]
             (UriString ("https://console.account.product.dev.alertlogic.com" +:+ "/#/users"))
             None)
          (emptyMatrix (AlLocation.uiNode AlLocation.AccountsUI "account" 8002) None)))
  = Some "https://console.account.product.dev.alertlogic.com".
Proof.
  destruct (uiNode_acting_application AlLocation.AccountsUI "account" 8002 None 2 "/#/users" 0)
    as (_ & _ & _ & _ & _ & H); [reflexivity | reflexivity | reflexivity | lia |].
  exact H.
Defined.

(** ** The development aliases of a generated UI *)

Lemma wordChars_cons c s : wordChars (String c s) = isWordChar c && wordChars s.
Proof. reflexivity. Qed.

Lemma wordChars_isPlain s : wordChars s = true -> isPlain s = true.
Proof.
  induction s as [|c s IH]; [done|]. rewrite wordChars_cons. cbn [isPlain].
  intros [Hc Hs]%andb_true_iff. rewrite IH by done. rewrite andb_true_r.
  apply negb_true_iff. destruct (isQuantifier c) eqn:E; [|done].
  unfold isQuantifier, ascii_in in E. simpl in E.
  repeat (apply orb_true_elim in E as [E|E]; [apply Ascii.eqb_eq in E; by subst|]).
  done.
Qed.

(** An application code of word characters, followed by a hyphen or by
    [.ui-dev], is not the word [console.] followed by that code. *)
Lemma not_under_console code x y :
  wordChars code = true ->
  (exists x', x = "-" +:+ x') \/ (exists x', x = ".ui-dev" +:+ x') ->
  code +:+ x <> "console." +:+ code +:+ y.
Proof.
  intros Hw Hx H.
  do 8 (destruct code as [|? code];
        [destruct Hx as [[x' ->]|[x' ->]]; app_norm_in H; discriminate H|];
        app_norm_in H; injection H as -> H).
  simpl in Hw. discriminate Hw.
Qed.

Lemma test_wildcard_hit a b w rest :
  wordChars w = true -> w <> EmptyString -> noLineTerminator rest = true ->
  test (Bol :: literals a ++ Rep WordClass OneOrMore :: literals b ++ openEnd)
       (a +:+ w +:+ b +:+ rest) = true.
Proof.
  intros Hw Hne Hrest.
  assert (forall f f' s,
            matchTerms (literals b ++ openEnd) f s = matchTerms (literals b ++ openEnd) f' s)
    as Hb.
  { intros. apply literals_flag. intros. unfold openEnd. by rewrite !openEnd_spec. }
  assert (forall f f' s,
            matchTerms (Rep WordClass OneOrMore :: literals b ++ openEnd) f s
            = matchTerms (Rep WordClass OneOrMore :: literals b ++ openEnd) f' s) as Hp.
  { intros f f' s. cbn [matchTerms]. by destruct s. }
  rewrite test_anchored. apply (literals_spec a _ _ _ Hp). exists (w +:+ b +:+ rest).
  split; [done|]. apply (wordPlus_spec _ _ _ Hb). exists w, (b +:+ rest).
  repeat split; [done..|]. apply literals_spec.
  - intros. unfold openEnd. by rewrite !openEnd_spec.
  - exists rest. split; [done|]. unfold openEnd. by rewrite openEnd_spec.
Qed.

Ltac not_console Hcode :=
  let t := fresh in let H := fresh in
  intros t H; rewrite ?append_assoc in H;
  change ("https://console." +:+ ?z) with ("https://" +:+ "console." +:+ z) in H;
  apply append_inj_l in H;
  refine (not_under_console _ _ _ Hcode _ H); first [left; by eexists | right; by eexists].

(** The development aliases [uiNode] declares for the integration
    descriptor, for an application code of word characters: a URL under
    [https://<code>.ui-dev.product.dev.alertlogic.com], or under
    [https://<code>-<word>.ui-dev.product.dev.alertlogic.com] for a word of
    one or more characters of [[a-zA-Z0-9_]], leads to the integration
    descriptor. *)
Theorem uiNode_development_aliases
    (T code word : string) (devPort : N) (w : option WindowLocation) (rest : string) :
  wordChars code = true ->
  (devPort < 9007199254740992)%N ->
  wordChars word = true ->
  word <> EmptyString ->
  noLineTerminator rest = true ->
  (getNodeByURI (("https://" +:+ code +:+ ".ui-dev.product.dev.alertlogic.com") +:+ rest)
     (loaded (AlLocation.uiNode T code devPort) w [0; 1; 2; 3])).1 = Some 2
  /\ (getNodeByURI
        (("https://" +:+ code +:+ "-" +:+ word +:+ ".ui-dev.product.dev.alertlogic.com")
         +:+ rest)
        (loaded (AlLocation.uiNode T code devPort) w [0; 1; 2; 3])).1 = Some 2.
Proof.
  intros Hcode Hbound Hword Hne Hrest.
  pose proof (wordChars_isPlain code Hcode) as Hplain.
  assert (forall target n,
            (exists m, firstMatch target (uiUriIndex code devPort) = Some m /\ location m = n) ->
            (getNodeByURI target (loaded (AlLocation.uiNode T code devPort) w [0; 1; 2; 3])).1
            = Some n) as Hfind.
  { intros target n (m & Hm & <-). unfold getNodeByURI. rewrite uiNode_uriMap by done.
    rewrite Hm. cbv zeta. by destruct (decide _). }
  unfold uiUriIndex in Hfind. cbv zeta in Hfind. cbn [firstMatch matcher] in Hfind.
  split; apply Hfind; clear Hfind.
  - rewrite !test_miss by not_console Hcode. rewrite test_hit by done. by eexists.
  - rewrite !test_miss by not_console Hcode.
    rewrite test_miss by other_prefix.
    replace (("https://" +:+ code +:+ "-" +:+ word +:+ ".ui-dev.product.dev.alertlogic.com")
             +:+ rest)
      with (("https://" +:+ code +:+ "-") +:+ word
            +:+ ".ui-dev.product.dev.alertlogic.com" +:+ rest)
      by (by rewrite !append_assoc).
    rewrite test_wildcard_hit by done. by eexists.
Qed.

(** Witness: a feature deployment of the accounts UI. *)
Lemma uiNode_development_aliases_witness :
  (getNodeByURI
     (("https://" +:+ "account" +:+ "-" +:+ "pr123" +:+ ".ui-dev.product.dev.alertlogic.com")
      +:+ "/#/users")
     (loaded (AlLocation.uiNode AlLocation.AccountsUI "account" 8002) None [0; 1; 2; 3])).1
  = Some 2.
Proof.
  apply (uiNode_development_aliases AlLocation.AccountsUI "account" "pr123" 8002 None "/#/users");
    [reflexivity | reflexivity | reflexivity | discriminate | reflexivity].
Defined.
